(** * OpenNewsAgent: the fetch / classify / track pipeline

    A shallow embedding of the Python sources

      - [services/news_fetcher.py]  (class [NewsFetcher])
      - [services/ai_analyzer.py]   (class [AIAnalyzer])
      - [services/job_manager.py]   (class [JobManager])
      - [main.py]                   ([process_news_search], the job endpoints)
      - [models.py]                 ([SearchRequest], [JobStatus])

    Python dictionaries holding the fetched articles are finite maps from
    field names to JSON values, what the analyzer takes from a completion
    is an arbitrary JSON value, the job table is an insertion-ordered
    dictionary, the [results/] directory is a finite map from file names
    to files, and the remote services (news search, chat completion) and
    the two export writers are oracles.  Exceptions are explicit: a
    computation that can raise returns a value of type [exn + A].  A
    Python [str] is the string of the bytes of its UTF-8 encoding. *)

From Stdlib Require Import ZArith Ascii String.
From Stdlib Require Import PrimFloat FloatOps SpecFloat Uint63.
From stdpp Require Import base option list sorting strings pretty gmap.

Local Open Scope string_scope.
Local Open Scope Z_scope.
Local Open Scope list_scope.

(** ** JSON values and articles *)

(** The values of the field of a fetched article that the pipeline looks
    at ([link]): a JSON string or [null]. *)
Inductive value : Type :=
  | VNull
  | VStr (s : string).

#[global] Instance value_eq_dec : EqDecision value.
Proof. solve_decision. Defined.

Definition value_to_option (v : value) : option string :=
  match v with VNull => None | VStr s => Some s end.

Definition value_of_option (o : option string) : value :=
  match o with None => VNull | Some s => VStr s end.

#[global] Instance value_countable : Countable value.
Proof.
  refine (inj_countable' value_to_option value_of_option _).
  intros []; reflexivity.
Defined.

(** Python truthiness, [bool(v)]: [None] and the empty string are falsy. *)
Definition truthy (v : value) : bool :=
  match v with
  | VNull => false
  | VStr s => negb (String.eqb s "")
  end.

(** An article as the news API delivers it is a [Dict[str, Any]]; its
    list-valued fields ([keywords], [category]) are only passed through
    by the pipeline and are not part of the model. *)
Abbreviation article := (gmap string value).

(** [d.get(k, dflt)] *)
Definition dict_get (d : article) (k : string) (dflt : value) : value :=
  default dflt (d !! k).

(** What [json.loads] returns: any JSON value.  An object is a [dict],
    given by its items in insertion order, each key once; a number is an
    [int] or a [float], the latter given by its literal. *)
Inductive json : Type :=
  | JNull
  | JBool (b : bool)
  | JInt (n : Z)
  | JFloat (literal : string)
  | JString (s : string)
  | JArray (items : list json)
  | JObject (members : list (string * json)).

(** ** Python built-ins used by the sources *)

(** An exception, represented by its message [str(e)]. *)
Definition exn : Type := string.

(** The characters [c] with [c.isspace()], which [str.strip()] removes,
    each by the bytes of its UTF-8 encoding: U+0009 to U+000D, U+001C to
    U+0020, U+0085, U+00A0, U+1680, U+2000 to U+200A, U+2028, U+2029,
    U+202F, U+205F and U+3000. *)
Definition whitespace_bytes : list (list nat) :=
  (((λ b : nat, [b]) <$> seq 9 5) ++ ((λ b : nat, [b]) <$> seq 28 5)
   ++ [[194; 133]; [194; 160]; [225; 154; 128]]
   ++ ((λ b : nat, [226; 128; b]) <$> seq 128 11)
   ++ [[226; 128; 168]; [226; 128; 169]; [226; 128; 175];
       [226; 129; 159]; [227; 128; 128]])%nat.

Definition whitespace : list (list ascii) :=
  (λ bytes : list nat, ascii_of_nat <$> bytes) <$> whitespace_bytes.

(** [l] without its first character, when that is white space. *)
Definition drop_space (l : list ascii) : option (list ascii) :=
  head (omap (λ w, if bool_decide (w `prefix_of` l)
                   then Some (drop (length w) l) else None)
          whitespace).

(** [l] without its last character, when that is white space. *)
Definition drop_space_end (l : list ascii) : option (list ascii) :=
  head (omap (λ w, if bool_decide (w `suffix_of` l)
                   then Some (take (length l - length w) l) else None)
          whitespace).

(** Doing [step] as long as it applies; every step shortens the list, so
    its length bounds their number. *)
Fixpoint repeat_step {A} (step : list A → option (list A)) (fuel : nat)
    (l : list A) : list A :=
  match fuel with
  | O => l
  | S fuel' =>
      match step l with
      | Some l' => repeat_step step fuel' l'
      | None => l
      end
  end.

Fixpoint drop_while {A} (p : A → bool) (l : list A) : list A :=
  match l with
  | [] => []
  | x :: l' => if p x then drop_while p l' else l
  end.

Definition drop_while_end {A} (p : A → bool) (l : list A) : list A :=
  reverse (drop_while p (reverse l)).

(** [s.strip()] *)
Definition str_strip (s : string) : string :=
  let l := list_ascii_of_string s in
  let l := repeat_step drop_space (length l) l in
  string_of_list_ascii (repeat_step drop_space_end (length l) l).

(** The characters of a string, each a string of its own: a character
    begins at every byte that is not a continuation byte (128 to 191) of
    the encoding. *)
Definition is_continuation (c : ascii) : bool :=
  let n := nat_of_ascii c in ((128 <=? n) && (n <=? 191))%nat.

Fixpoint str_chars_of (l : list ascii) : list (list ascii) :=
  match l with
  | [] => []
  | c :: l' =>
      let chars := str_chars_of l' in
      match head l', chars with
      | Some c', char :: chars' =>
          if is_continuation c' then (c :: char) :: chars'
          else [c] :: chars
      | _, _ => [c] :: chars
      end
  end.

Definition str_chars (s : string) : list string :=
  string_of_list_ascii <$> str_chars_of (list_ascii_of_string s).

(** [s.endswith(suffix)] *)
Definition str_endswith (s suffix : string) : bool :=
  bool_decide (reverse (list_ascii_of_string suffix)
               `prefix_of` reverse (list_ascii_of_string s)).

(** [s.replace(old, new)] for a non-empty [old]: occurrences are replaced
    from left to right and do not overlap; [skip] counts the characters of
    an occurrence that are still to be passed over. *)
Fixpoint str_replace_from (skip : nat) (s old new : string) : string :=
  match s with
  | EmptyString => EmptyString
  | String c s' =>
      match skip with
      | S k => str_replace_from k s' old new
      | O =>
          if String.prefix old s
          then new +:+ str_replace_from (String.length old - 1) s' old new
          else String c (str_replace_from O s' old new)
      end
  end.

Definition str_replace (s old new : string) : string :=
  str_replace_from O s old new.

(** [range(start, stop, step)] for [step >= 1]; it has at most [stop]
    elements, which bounds the recursion. *)
Fixpoint range_from (fuel start stop step : nat) : list nat :=
  match fuel with
  | O => []
  | S fuel' =>
      if (start <? stop)%nat
      then start :: range_from fuel' (start + step) stop step
      else []
  end.

Definition py_range (start stop step : nat) : list nat :=
  range_from stop start stop step.

(** [l[i:j]] for [0 <= i <= j]; a slice never raises, it is cut at the end
    of the list. *)
Definition slice {A} (l : list A) (i j : nat) : list A :=
  take (j - i) (drop i l).

(** [list.sort(key=...)] and [sorted(..., key=...)]: Python guarantees a
    stable sort, so the result is the one of insertion sort with the
    element inserted in front of the elements whose key is not smaller. *)
Fixpoint insert_by_key {A} (key : A → Z) (x : A) (l : list A) : list A :=
  match l with
  | [] => [x]
  | y :: l' =>
      if key x <=? key y then x :: y :: l' else y :: insert_by_key key x l'
  end.

Definition sort_by_key {A} (key : A → Z) (l : list A) : list A :=
  foldr (insert_by_key key) [] l.

(** The order of the keys. *)
Definition key_le {A} (key : A → Z) (x y : A) : Prop := key x ≤ key y.

(** The same with a key function that can raise: [list.sort] first
    computes the key of every element, in order, and the first exception
    is the one of the sort; then it sorts by the keys. *)
Fixpoint keyed {A} (key : A → exn + Z) (l : list A) : exn + list (Z * A) :=
  match l with
  | [] => inr []
  | x :: l' =>
      match key x with
      | inl e => inl e
      | inr k =>
          match keyed key l' with
          | inl e => inl e
          | inr keys => inr ((k, x) :: keys)
          end
      end
  end.

Definition sort_by_raising_key {A} (key : A → exn + Z) (l : list A)
    : exn + list A :=
  match keyed key l with
  | inl e => inl e
  | inr keys => inr (sort_by_key fst keys).*2
  end.

(** [for x in v] over a JSON value, as [list.extend(v)] does it: the
    elements of a list, the keys of a dict, the characters of a string;
    the other values are not iterable. *)
Definition py_iter (v : json) : exn + list json :=
  match v with
  | JArray items => inr items
  | JObject members => inr (JString <$> members.*1)
  | JString s => inr (JString <$> str_chars s)
  | JNull => inl "'NoneType' object is not iterable"
  | JBool _ => inl "'bool' object is not iterable"
  | JInt _ => inl "'int' object is not iterable"
  | JFloat _ => inl "'float' object is not iterable"
  end.

(** *** Floating point: [int((a / b) * 30)] *)

(** [float(z)], exact for [|z| < 2^53]. *)
Definition float_of_Z (z : Z) : float :=
  if z <? 0 then PrimFloat.opp (PrimFloat.of_uint63 (Uint63.of_Z (- z)))
  else PrimFloat.of_uint63 (Uint63.of_Z z).

(** [a / b] on two ints (true division).  For operands below [2^53] it is
    the IEEE 754 quotient of the two converted operands. *)
Definition py_true_div (a b : Z) : exn + float :=
  if b =? 0 then inl "division by zero"
  else inr (PrimFloat.div (float_of_Z a) (float_of_Z b)).

(** [int(x)]: truncation towards zero; it raises on infinities and NaN. *)
Definition py_int (x : float) : exn + Z :=
  match Prim2SF x with
  | S754_zero _ => inr 0
  | S754_finite s m e =>
      let v := if 0 <=? e then Z.pos m * 2 ^ e else Z.pos m / 2 ^ (- e) in
      inr (if s then - v else v)
  | S754_infinity _ => inl "cannot convert float infinity to integer"
  | S754_nan => inl "cannot convert float NaN to integer"
  end.

(** An insertion-ordered [dict] with string keys: the list of its items,
    in insertion order, each key at most once. *)
Section odict.
Context {V : Type}.

(** [d.get(k)] *)
Fixpoint odict_get (d : list (string * V)) (k : string) : option V :=
  match d with
  | [] => None
  | (k', v) :: d' => if decide (k' = k) then Some v else odict_get d' k
  end.

(** [d[k] = v]: an existing key keeps its position. *)
Fixpoint odict_set (d : list (string * V)) (k : string) (v : V)
    : list (string * V) :=
  match d with
  | [] => [(k, v)]
  | (k', v') :: d' =>
      if decide (k' = k) then (k, v) :: d' else (k', v') :: odict_set d' k v
  end.

(** [del d[k]] *)
Fixpoint odict_del (d : list (string * V)) (k : string) : list (string * V) :=
  match d with
  | [] => []
  | (k', v') :: d' =>
      if decide (k' = k) then d' else (k', v') :: odict_del d' k
  end.
End odict.

(** ** [models.py] *)

(** [SearchRequest]; the credentials and endpoint overrides play no role
    in what follows and are left out. *)
Record SearchRequest : Type := {
  req_query : string;
  req_languages : list string;
  req_categories : list string;
  req_extra_topics : option string;
  req_size : Z;
  req_max_pages : Z
}.

(** The [Field] constraints and the two validators of [SearchRequest]. *)
Definition SearchRequest_valid (r : SearchRequest) : Prop :=
  (1 ≤ String.length (req_query r))%nat
  ∧ req_languages r ≠ []
  ∧ req_categories r ≠ []
  ∧ 1 ≤ req_size r ≤ 10
  ∧ 1 ≤ req_max_pages r ≤ 50.

(** [JobStatus]; the two [datetime]s are timestamps. *)
Record JobStatus : Type := {
  job_id : string;
  status : string;
  progress : Z;
  created_at : Z;
  updated_at : Z;
  query : string;
  total_articles : option Z;
  error : option string;
  results : option (list json)
}.

(** ** The pipeline's effects

    The background coroutine talks to the job manager only through
    [job_manager.update_job(job_id, ...)] and never looks at what it
    returns, so a run of it is the sequence of the calls it makes.
    [M A] is a computation that makes such calls and then returns an [A]
    or raises. *)
Record update_call : Type := {
  u_status : option string;
  u_progress : option Z;
  u_total_articles : option Z;
  u_error : option string;
  u_results : option (list json)
}.

Definition M (A : Type) : Type := list update_call * (exn + A).

#[global] Instance M_ret : MRet M := λ A x, ([], inr x).

#[global] Instance M_bind : MBind M := λ A B k m,
  match m with
  | (calls, inl e) => (calls, inl e)
  | (calls, inr x) => let '(calls', r) := k x in (calls ++ calls', r)
  end.

Definition raise {A} (e : exn) : M A := ([], inl e).

(** A pure computation that may raise, run inside [M]. *)
Definition lift {A} (r : exn + A) : M A := ([], r).

(** [job_manager.update_job(job_id, ...)] *)
Definition call_update_job (c : update_call) : M unit := ([c], inr tt).

Module NewsFetcher.

(** What a request to the news API comes to. *)
Inductive fetch_response : Type :=
  | TransportError (msg : string)
      (** [client.get] or [response.json()] raises; [msg] is [str(e)] *)
  | HttpStatusError (status_code : Z)
      (** [raise_for_status()] raises [HTTPStatusError] *)
  | ApiError (message : option string)
      (** [data["status"] == "error"], with [data["results"].get("message")] *)
  | Page (results : list article) (nextPage : value).

(** The API as the fetcher sees it: the answer to the request number
    [page_count] sent with the cursor [next_page]. *)
Definition news_api : Type := nat → value → fetch_response.

(** [link = article.get("link", "")] *)
Definition get_link (a : article) : value := dict_get a "link" (VStr "").

(** [_remove_duplicates]: the loop over [articles], with its two
    accumulators [seen_links] and [unique]. *)
Fixpoint remove_duplicates_loop (articles : list article)
    (seen_links : gset value) (unique : list article) : list article :=
  match articles with
  | [] => unique
  | a :: rest =>
      let link := get_link a in
      if truthy link && bool_decide (link ∉ seen_links)
      then remove_duplicates_loop rest (seen_links ∪ {[ link ]}) (unique ++ [a])
      else remove_duplicates_loop rest seen_links unique
  end.

Definition remove_duplicates (articles : list article) : list article :=
  remove_duplicates_loop articles ∅ [].

(** The [while page_count < max_pages] loop of [fetch_articles];
    [remaining] is [max_pages - page_count].  Every exception raised in
    the body is re-raised by the [except] clauses. *)
Fixpoint fetch_loop (api : news_api) (progress_callback : Z → M unit)
    (remaining page_count : nat) (next_page : value)
    (all_articles : list article) : M (list article) :=
  match remaining with
  | O => mret all_articles
  | S remaining' =>
      match api page_count next_page with
      | TransportError msg => raise msg
      | HttpStatusError code => raise ("HTTP " +:+ pretty code)
      | ApiError message =>
          raise ("API error: " +:+ default "Unknown error" message)
      | Page [] _ => mret all_articles
      | Page results nextPage =>
          let all_articles := all_articles ++ results in
          progress_callback (Z.of_nat (length all_articles)) ;;
          if truthy nextPage
          then fetch_loop api progress_callback remaining' (S page_count)
                 nextPage all_articles
          else mret all_articles
      end
  end.

Definition fetch_articles (api : news_api) (size max_pages : Z)
    (progress_callback : Z → M unit) : M (list article) :=
  all_articles ← fetch_loop api progress_callback (Z.to_nat max_pages) 0 VNull [];
  mret (remove_duplicates all_articles).

(** The distinct non-empty links of a list, and its articles without a
    (non-empty) link. *)
Definition distinct_links (articles : list article) : gset value :=
  list_to_set (filter (λ v, truthy v) (get_link <$> articles)).

Definition linkless (articles : list article) : list article :=
  filter (λ a, ¬ truthy (get_link a)) articles.

End NewsFetcher.

Module AIAnalyzer.

(** What a chat completion request comes to. *)
Inductive completion : Type :=
  | CompletionError (msg : string)
      (** the [try] block of [_analyze_chunk] raises; [msg] is [str(e)] *)
  | Completion (content : option string)
      (** [response.choices[0].message.content] *).

(** The model as the analyzer sees it: the answer to its n-th request. *)
Definition chat_api : Type := nat → completion.

(** [relevance_order] *)
Definition relevance_order : gmap string Z :=
  {[ "Very Relevant" := 0; "Relevant" := 1; "Not Relevant" := 2 ]}.

(** The key of the final sort,
    [relevance_order.get(x.get("relevance", ""), 3)]: only a dict has a
    [get], and the label is looked up in [relevance_order], for which it
    has to be hashable; a label that is not a string equals no key. *)
Definition relevance_key (x : json) : exn + Z :=
  match x with
  | JObject members =>
      match default (JString "") (odict_get members "relevance") with
      | JString label => inr (default 3 (relevance_order !! label))
      | JNull | JBool _ | JInt _ | JFloat _ => inr 3
      | JArray _ => inl "unhashable type: 'list'"
      | JObject _ => inl "unhashable type: 'dict'"
      end
  | JArray _ => inl "'list' object has no attribute 'get'"
  | JString _ => inl "'str' object has no attribute 'get'"
  | JNull => inl "'NoneType' object has no attribute 'get'"
  | JBool _ => inl "'bool' object has no attribute 'get'"
  | JInt _ => inl "'int' object has no attribute 'get'"
  | JFloat _ => inl "'float' object has no attribute 'get'"
  end.

(** [all_classified.sort(key=lambda x: ...)] *)
Definition sort_by_relevance (all_classified : list json) : exn + list json :=
  sort_by_raising_key relevance_key all_classified.

(** [re.search(r'\[.*\]', response_text, re.DOTALL)]: the match starts at
    the first opening bracket and, the star being greedy and the dot
    matching every character, ends at the last closing bracket. *)
Definition search_json_array (response_text : string) : option string :=
  let from_open :=
    drop_while (λ c, negb (Ascii.eqb c "[")) (list_ascii_of_string response_text) in
  match drop_while_end (λ c, negb (Ascii.eqb c "]")) from_open with
  | [] => None
  | json_match => Some (string_of_list_ascii json_match)
  end.

Section with_json.
(** [json.loads]: the value of a JSON text, or [None] for
    [JSONDecodeError]. *)
Variable json_loads : string → option json.

(** [_extract_json]: whatever [json.loads] returns, and the empty list
    when it raises [JSONDecodeError]. *)
Definition extract_json (response_text : string) : json :=
  match search_json_array response_text with
  | Some json_str => default (JArray []) (json_loads json_str)
  | None => default (JArray []) (json_loads response_text)
  end.

(** [_analyze_chunk]; [calls] records the chunks sent so far. *)
Definition analyze_chunk (llm : chat_api) (calls : list (list article))
    (chunk : list article) : list (list article) * (exn + json) :=
  (calls ++ [chunk],
   match llm (length calls) with
   | CompletionError msg => inl msg
   | Completion None => inr (JArray [])
   | Completion (Some response_text) =>
       if String.eqb response_text "" then inr (JArray [])
       else inr (extract_json (str_strip response_text))
   end).

(** The [for i in range(0, len(articles), chunk_size)] loop.  Its [try]
    holds the call of [_analyze_chunk] and
    [all_classified.extend(classified)], which raises when [classified]
    is not iterable; after an exception the loop goes on with the next
    chunk. *)
Fixpoint analyze_loop (llm : chat_api) (articles : list article)
    (chunk_size : nat) (indices : list nat) (calls : list (list article))
    (all_classified : list json)
    : list (list article) * list json :=
  match indices with
  | [] => (calls, all_classified)
  | i :: indices' =>
      let chunk := slice articles i (i + chunk_size) in
      match analyze_chunk llm calls chunk with
      | (calls', inr classified) =>
          match py_iter classified with
          | inr items =>
              analyze_loop llm articles chunk_size indices' calls'
                (all_classified ++ items)
          | inl _ =>
              analyze_loop llm articles chunk_size indices' calls'
                all_classified
          end
      | (calls', inl _) =>
          analyze_loop llm articles chunk_size indices' calls' all_classified
      end
  end.

(** [analyze_articles]: the chunks sent, and the result.  The final sort
    is outside every [try]: an exception of its key function is an
    exception of [analyze_articles]. *)
Definition analyze_articles (llm : chat_api) (articles : list article)
    (chunk_size : nat) : list (list article) * (exn + list json) :=
  match chunk_size with
  | O => ([], inl "range() arg 3 must not be zero")
  | _ =>
      let '(calls, all_classified) :=
        analyze_loop llm articles chunk_size
          (py_range 0 (length articles) chunk_size) [] [] in
      (calls, sort_by_relevance all_classified)
  end.

(** The text [_extract_json] hands to [json.loads]. *)
Definition json_text (response_text : string) : string :=
  default response_text (search_json_array response_text).

(** What the request answered by [c] adds to [all_classified]: nothing
    when the request raises, when the content is empty, when
    [json.loads] rejects the text or returns a value that is not
    iterable, and else the elements that the iteration over the value
    yields. *)
Definition chunk_contribution (c : completion) : list json :=
  match c with
  | CompletionError _ => []
  | Completion None => []
  | Completion (Some response_text) =>
      if String.eqb response_text "" then []
      else
        match json_loads (json_text (str_strip response_text)) with
        | None => []
        | Some v =>
            match py_iter v with
            | inr items => items
            | inl _ => []
            end
        end
  end.

(** The list the final sort is applied to. *)
Definition collected (llm : chat_api) (articles : list article)
    (chunk_size : nat) : list json :=
  concat ((λ k, chunk_contribution (llm k))
            <$> seq 0 (length (py_range 0 (length articles) chunk_size))).
End with_json.

(** The chunks [articles[i:i + chunk_size]] of the loop, in order. *)
Definition chunks (articles : list article) (chunk_size : nat)
    : list (list article) :=
  (λ i, slice articles i (i + chunk_size))
    <$> py_range 0 (length articles) chunk_size.

(** The default of the [chunk_size] argument. *)
Definition default_chunk_size : nat := 15.

(** The elements the final sort accepts: the JSON objects whose
    [relevance] is missing or a scalar; and the rank of such an
    element. *)
Definition sortable (x : json) : Prop := ∃ k, relevance_key x = inr k.

Definition relevance_rank (x : json) : Z :=
  match relevance_key x with
  | inr k => k
  | inl _ => 3
  end.

(** What the body of the loop adds to [all_classified] when
    [_analyze_chunk] comes to [r]. *)
Definition extension (r : exn + json) : list json :=
  match r with
  | inr classified =>
      match py_iter classified with
      | inr items => items
      | inl _ => []
      end
  | inl _ => []
  end.

(** The two outcomes of a chunk that the statements below tell apart.
    The chunk fails: the request raises, the content is empty,
    [json.loads] rejects the text, or returns a value that is not
    iterable.  The chunk yields [items]: [json.loads] takes the text for
    the array [items], of elements that the sort accepts. *)
Definition chunk_fails (json_loads : string → option json)
    (c : completion) : Prop :=
  match c with
  | CompletionError _ => True
  | Completion None => True
  | Completion (Some text) =>
      text = ""
      ∨ json_loads (json_text (str_strip text)) = None
      ∨ ∃ v e, json_loads (json_text (str_strip text)) = Some v
               ∧ py_iter v = inl e
  end.

Definition chunk_yields (json_loads : string → option json)
    (c : completion) (items : list json) : Prop :=
  ∃ text, c = Completion (Some text)
          ∧ text ≠ ""
          ∧ json_loads (json_text (str_strip text)) = Some (JArray items)
          ∧ Forall sortable items.

Definition chunk_outcome (json_loads : string → option json)
    (c : completion) (parsed : option (list json)) : Prop :=
  match parsed with
  | Some items => chunk_yields json_loads c items
  | None => chunk_fails json_loads c
  end.

End AIAnalyzer.

Module JobManager.

(** The JSON object of a result file, with the fields [_save_results]
    writes; the three that [_load_existing_results] reads with a default
    may be missing from a file found on disk. *)
Record snapshot : Type := {
  snap_job_id : string;
  snap_query : option string;
  snap_timestamp : Z;
  snap_total_articles : option Z;
  snap_articles : option (list json)
}.

Inductive file_content : Type :=
  | JsonObject (data : snapshot)
  | Unreadable
      (** a CSV or XLSX export, or a file that [json.load] or the
          [JobStatus] constructor rejects *).

Record file : Type := { mtime : Z; content : file_content }.

(** The manager object together with the [results/] directory it owns,
    a map from file names to files.  File operations succeed. *)
Record manager : Type := {
  jobs : list (string * JobStatus);
  max_jobs : nat;
  results_dir : gmap string file
}.

(** [f"results/{job_id}.{ext}"], relative to [results/] *)
Definition result_file (job_id ext : string) : string :=
  job_id +:+ "." +:+ ext.

(** [get_job] *)
Definition get_job (jm : manager) (job_id : string) : option JobStatus :=
  odict_get (jobs jm) job_id.

(** [delete_job] *)
Definition delete_job (jm : manager) (job_id : string) : manager * bool :=
  match odict_get (jobs jm) job_id with
  | Some _ =>
      ({| jobs := odict_del (jobs jm) job_id;
          max_jobs := max_jobs jm;
          results_dir :=
            foldl (λ files ext, delete (result_file job_id ext) files)
              (results_dir jm) ["json"; "csv"; "xlsx"] |},
       true)
  | None => (jm, false)
  end.

(** [_cleanup_old_jobs] *)
Definition cleanup_old_jobs (jm : manager) : manager :=
  if (length (jobs jm) <=? max_jobs jm)%nat then jm
  else
    let sorted_jobs := sort_by_key (λ item, created_at item.2) (jobs jm) in
    let jobs_to_remove := (length (jobs jm) - max_jobs jm)%nat in
    foldl (λ jm item, (delete_job jm item.1).1) jm
      (take jobs_to_remove sorted_jobs).

(** The [JobStatus(...)] that [create_job] builds; [now] is the reading
    of the clock. *)
Definition new_job (id : string) (request : SearchRequest) (now : Z)
    : JobStatus :=
  {| job_id := id; status := "created"; progress := 0;
     created_at := now; updated_at := now; query := req_query request;
     total_articles := None; error := None; results := None |}.

(** [create_job] *)
Definition create_job (jm : manager) (id : string) (request : SearchRequest)
    (now : Z) : manager :=
  let job := new_job id request now in
  let jm :=
    {| jobs := odict_set (jobs jm) id job;
       max_jobs := max_jobs jm;
       results_dir := results_dir jm |} in
  if (max_jobs jm <? length (jobs jm))%nat then cleanup_old_jobs jm else jm.

(** [_save_results] *)
Definition save_results (jm : manager) (id : string)
    (results : list json) (query : string) (now : Z) : manager :=
  let data :=
    {| snap_job_id := id;
       snap_query := Some query;
       snap_timestamp := now;
       snap_total_articles := Some (Z.of_nat (length results));
       snap_articles := Some results |} in
  {| jobs := jobs jm;
     max_jobs := max_jobs jm;
     results_dir :=
       <[ result_file id "json" := {| mtime := now; content := JsonObject data |} ]>
         (results_dir jm) |}.

(** [if s:] for an [Optional[str]] *)
Definition str_given (s : option string) : bool :=
  match s with
  | Some s => negb (String.eqb s "")
  | None => false
  end.

(** [if results:] for an [Optional[List]] *)
Definition list_given {A} (l : option (list A)) : bool :=
  match l with
  | Some (_ :: _) => true
  | _ => false
  end.

(** The fields of [job] after the assignments of [update_job]. *)
Definition updated_job (job : JobStatus)
    (status' : option string) (progress' total_articles' : option Z)
    (error' : option string) (results' : option (list json)) (now : Z)
    : JobStatus :=
  {| job_id := job_id job;
     status := if str_given status' then default "" status' else status job;
     progress := default (progress job) progress';
     created_at := created_at job;
     updated_at := now;
     query := query job;
     total_articles :=
       match total_articles' with
       | Some n => Some n
       | None => total_articles job
       end;
     error := if str_given error' then error' else error job;
     results :=
       match results' with
       | Some l => Some l
       | None => results job
       end |}.

(** [update_job] *)
Definition update_job (jm : manager) (id : string)
    (status' : option string) (progress' total_articles' : option Z)
    (error' : option string) (results' : option (list json)) (now : Z)
    : manager * option JobStatus :=
  match odict_get (jobs jm) id with
  | None => (jm, None)
  | Some job =>
      let job :=
        updated_job job status' progress' total_articles' error' results' now in
      let jm :=
        {| jobs := odict_set (jobs jm) id job;
           max_jobs := max_jobs jm;
           results_dir := results_dir jm |} in
      let jm :=
        if bool_decide (status' = Some "completed") && list_given results'
        then save_results jm id (default [] results') (query job) now
        else jm in
      (jm, Some job)
  end.

(** [results: Optional[List[Dict[str, Any]]]]: the [JobStatus]
    constructor validates its arguments, and raises for a results list
    with an element that is not a dictionary. *)
Definition is_dict (x : json) : bool :=
  match x with
  | JObject _ => true
  | _ => false
  end.

Definition valid_results (results : list json) : bool :=
  forallb is_dict results.

(** The [JobStatus(...)] that [_load_existing_results] builds from the
    file [f] whose JSON object is [data]. *)
Definition loaded_job (id : string) (f : file) (data : snapshot) : JobStatus :=
  let articles := default [] (snap_articles data) in
  {| job_id := id; status := "completed"; progress := 100;
     created_at := mtime f; updated_at := mtime f;
     query := default "Unknown" (snap_query data);
     total_articles :=
       Some (default (Z.of_nat (length articles)) (snap_total_articles data));
     error := None;
     results := Some articles |}.

(** One file of the [for filename in os.listdir("results")] loop of
    [_load_existing_results]; a file for which the inner [try] raises
    is logged and left out. *)
Definition load_result_file (jobs : list (string * JobStatus))
    (entry : string * file) : list (string * JobStatus) :=
  let '(filename, f) := entry in
  if str_endswith filename ".json" then
    let id := str_replace filename ".json" "" in
    match content f with
    | JsonObject data =>
        if valid_results (default [] (snap_articles data))
        then odict_set jobs id (loaded_job id f data)
        else jobs
    | Unreadable => jobs
    end
  else jobs.

(** [os.listdir("results")]: the directory's entries, in an order the
    caller does not choose. *)
Definition listdir (dir : gmap string file) : list (string * file) :=
  map_to_list dir.

(** The job, if any, that the loop makes of a directory entry. *)
Definition loaded_entry (entry : string * file) : option (string * JobStatus) :=
  if str_endswith entry.1 ".json" then
    match content entry.2 with
    | JsonObject data =>
        let id := str_replace entry.1 ".json" "" in
        if valid_results (default [] (snap_articles data))
        then Some (id, loaded_job id entry.2 data)
        else None
    | Unreadable => None
    end
  else None.

(** [_load_existing_results] *)
Definition load_existing_results (jm : manager) : manager :=
  {| jobs := foldl load_result_file (jobs jm) (listdir (results_dir jm));
     max_jobs := max_jobs jm;
     results_dir := results_dir jm |}.

(** [JobManager(max_jobs)], started on the directory [dir]. *)
Definition init (max_jobs : nat) (dir : gmap string file) : manager :=
  load_existing_results {| jobs := []; max_jobs := max_jobs; results_dir := dir |}.

(** The well-formedness of the job table: it is a dictionary. *)
Definition wf (jm : manager) : Prop := NoDup (jobs jm).*1.

End JobManager.

Module Main.
Import NewsFetcher AIAnalyzer JobManager.

(** The [progress] argument of the call in [update_fetch_progress]:
    [10 + int((article_count / (request.size * request.max_pages)) * 30)] *)
Definition fetch_progress (article_count size max_pages : Z) : exn + Z :=
  match py_true_div article_count (size * max_pages) with
  | inl e => inl e
  | inr ratio =>
      match py_int (PrimFloat.mul ratio (float_of_Z 30)) with
      | inl e => inl e
      | inr n => inr (10 + n)
      end
  end.

(** The four shapes of the calls [job_manager.update_job(job_id, ...)] in
    [main.py], by their keyword arguments. *)
Definition fetching_call (progress : Z) (total_articles : option Z)
    : update_call :=
  {| u_status := Some "fetching"; u_progress := Some progress;
     u_total_articles := total_articles; u_error := None; u_results := None |}.

Definition failed_call (error : string) : update_call :=
  {| u_status := Some "failed"; u_progress := Some 100;
     u_total_articles := None; u_error := Some error; u_results := None |}.

Definition analyzing_call (total_articles : Z) : update_call :=
  {| u_status := Some "analyzing"; u_progress := Some 50;
     u_total_articles := Some total_articles;
     u_error := None; u_results := None |}.

Definition completed_call (classified_articles : list json) : update_call :=
  {| u_status := Some "completed"; u_progress := Some 100;
     u_total_articles := Some (Z.of_nat (length classified_articles));
     u_error := None; u_results := Some classified_articles |}.

Definition is_fetching_call (c : update_call) : Prop :=
  ∃ p count, c = fetching_call p count.

(** [update_fetch_progress] *)
Definition update_fetch_progress (request : SearchRequest)
    (article_count : Z) : M unit :=
  p ← lift (fetch_progress article_count (req_size request) (req_max_pages request));
  call_update_job (fetching_call p (Some article_count)).

(** What [AIAnalyzer(api_key=..., model=..., base_url=...)] comes to:
    the constructor of the client raises, or there is an analyzer, whose
    requests the model answers. *)
Definition analyzer : Type := exn + chat_api.

Section with_json.
Variable json_loads : string → option json.

(** The [try] block of [process_news_search]. *)
Definition process_news_search_body (request : SearchRequest)
    (api : news_api) (llm : analyzer) : M unit :=
  call_update_job (fetching_call 10 None) ;;
  articles ← fetch_articles api (req_size request) (req_max_pages request)
               (update_fetch_progress request);
  match articles with
  | [] => call_update_job (failed_call "No articles found")
  | _ =>
      call_update_job (analyzing_call (Z.of_nat (length articles))) ;;
      client ← lift llm;
      classified_articles ←
        lift (analyze_articles json_loads client articles default_chunk_size).2;
      call_update_job (completed_call classified_articles)
  end.

(** [process_news_search]: the calls of [job_manager.update_job] it
    makes, the one of the [except] clause included. *)
Definition process_news_search (request : SearchRequest)
    (api : news_api) (llm : analyzer) : list update_call :=
  match process_news_search_body request api llm with
  | (calls, inr _) => calls
  | (calls, inl e) => calls ++ [failed_call e]
  end.
End with_json.

(** The job manager carrying out one call of the pipeline for job [id]. *)
Definition apply_update (jm : manager) (id : string) (c : update_call)
    (now : Z) : manager :=
  (update_job jm id (u_status c) (u_progress c) (u_total_articles c)
     (u_error c) (u_results c) now).1.

(** The states of the manager after each call; [clock k] is the time
    of the [k]-th call. *)
Fixpoint run_updates (clock : nat → Z) (k : nat) (jm : manager)
    (id : string) (calls : list update_call) : list manager :=
  match calls with
  | [] => []
  | c :: calls' =>
      let jm' := apply_update jm id c (clock k) in
      jm' :: run_updates clock (S k) jm' id calls'
  end.

(** The state of the manager after the last call. *)
Fixpoint exec_updates (clock : nat → Z) (k : nat) (jm : manager)
    (id : string) (calls : list update_call) : manager :=
  match calls with
  | [] => jm
  | c :: calls' =>
      exec_updates clock (S k) (apply_update jm id c (clock k)) id calls'
  end.

Section with_json.
Variable json_loads : string → option json.

(** The life of a job: [create_search_job] creates it, then the pipeline
    runs.  The result is the state of the manager after the creation
    and after each update. *)
Definition job_states (jm : manager) (id : string) (request : SearchRequest)
    (api : news_api) (llm : analyzer) (clock : nat → Z) : list manager :=
  let jm0 := create_job jm id request (clock O) in
  jm0 :: run_updates clock 1 jm0 id
           (process_news_search json_loads request api llm).

(** The successive values of the job's [progress]. *)
Definition progress_trace (jm : manager) (id : string)
    (request : SearchRequest) (api : news_api) (llm : analyzer)
    (clock : nat → Z) : list Z :=
  omap (λ jm, progress <$> get_job jm id)
    (job_states jm id request api llm clock).

(** The successive values of the job's [status]. *)
Definition status_trace (jm : manager) (id : string)
    (request : SearchRequest) (api : news_api) (llm : analyzer)
    (clock : nat → Z) : list string :=
  omap (λ jm, status <$> get_job jm id)
    (job_states jm id request api llm clock).

(** The manager at the end of the job's life. *)
Definition final_state (jm : manager) (id : string) (request : SearchRequest)
    (api : news_api) (llm : analyzer) (clock : nat → Z) : manager :=
  exec_updates clock 1 (create_job jm id request (clock O)) id
    (process_news_search json_loads request api llm).
End with_json.

(** The record of a job after a sequence of calls, the first at time
    [clock k]. *)
Fixpoint job_after (clock : nat → Z) (k : nat) (job : JobStatus)
    (calls : list update_call) : JobStatus :=
  match calls with
  | [] => job
  | c :: calls' =>
      job_after clock (S k)
        (updated_job job (u_status c) (u_progress c) (u_total_articles c)
           (u_error c) (u_results c) (clock k))
        calls'
  end.

(** [fetch_progress] against the exact quotient. *)
Definition fetch_progress_agrees (article_count size max_pages : Z) : bool :=
  match fetch_progress article_count size max_pages with
  | inr p => p =? 10 + 30 * article_count / (size * max_pages)
  | inl _ => false
  end.

(** The news API honours the page size: no page holds more than
    [request.size] articles. *)
Definition pages_within_size (api : news_api) (request : SearchRequest) : Prop :=
  ∀ page_count next_page results nextPage,
    api page_count next_page = Page results nextPage →
    Z.of_nat (length results) ≤ req_size request.

End Main.

(** ** The requests of [fetch_articles] *)

Module Pagination.
Import NewsFetcher.

(** The loop goes on to a further request after the response [r]: the
    page holds articles and names a next page. *)
Definition continues (r : fetch_response) : bool :=
  match r with
  | Page (_ :: _) nextPage => truthy nextPage
  | _ => false
  end.

(** The value of [next_page] when the request number [page_count] is
    sent, should the loop get that far: [None] at first, then the
    [nextPage] of the response before. *)
Fixpoint cursor_at (api : news_api) (page_count : nat) : value :=
  match page_count with
  | O => VNull
  | S k =>
      match api k (cursor_at api k) with
      | Page _ nextPage => nextPage
      | _ => VNull
      end
  end.

(** The articles of the response to the request number [page_count]. *)
Definition page_at (api : news_api) (page_count : nat) : list article :=
  match api page_count (cursor_at api page_count) with
  | Page results _ => results
  | _ => []
  end.

End Pagination.

(** ** The other operations of [job_manager.py] *)

Module JobManagerOps.
Import JobManager.

(** [l[:limit]]: a negative [limit] counts from the end of the list. *)
Definition slice_to {A} (l : list A) (limit : Z) : list A :=
  if limit <? 0 then take (length l - Z.to_nat (- limit)) l
  else take (Z.to_nat limit) l.

(** An item of the list that [list_jobs] returns; the two times are the
    timestamps that the source renders with [isoformat()]. *)
Record job_summary : Type := {
  s_job_id : string;
  s_status : string;
  s_query : string;
  s_progress : Z;
  s_total_articles : option Z;
  s_created_at : Z;
  s_updated_at : Z
}.

Definition summary (job : JobStatus) : job_summary :=
  {| s_job_id := job_id job; s_status := status job; s_query := query job;
     s_progress := progress job; s_total_articles := total_articles job;
     s_created_at := created_at job; s_updated_at := updated_at job |}.

(** [jobs_list.sort(key=lambda x: x.updated_at, reverse=True)]: a sort
    with [reverse=True] is stable too, so it is the stable sort by the
    opposite key. *)
Definition sort_by_updated_at_desc (jobs_list : list JobStatus)
    : list JobStatus :=
  sort_by_key (λ x, - updated_at x) jobs_list.

(** [list_jobs] *)
Definition list_jobs (jm : manager) (limit : Z) : list job_summary :=
  let jobs_list := sort_by_updated_at_desc (jobs jm).*2 in
  summary <$> slice_to jobs_list limit.

(** The extensions of the files that the manager keeps for a job. *)
Definition extensions : list string := ["json"; "csv"; "xlsx"].

(** [f"results/{job_id}.{ext}"] *)
Definition result_path (id ext : string) : string :=
  "results/" +:+ result_file id ext.

(** What writing an export comes to.  Whether [csv.writer], [pandas]
    and [openpyxl] accept the articles depends on their content (a
    keyword list that holds a number, a character the Excel writer
    refuses): the writer completes, or it raises, and then a file,
    complete or not, may be left at the path. *)
Inductive write_outcome : Type :=
  | Written
  | WriteFailed (e : exn) (file_left : bool).

(** The two writers as the manager sees them: the outcome for a format
    ([csv] or [xlsx]) and the results to write. *)
Definition exporter : Type := string → list json → write_outcome.

(** A file [<id>.<ext>] is written; what it holds is not looked at again
    by the manager. *)
Definition write_export (jm : manager) (id ext : string) (now : Z) : manager :=
  {| jobs := jobs jm;
     max_jobs := max_jobs jm;
     results_dir :=
       <[ result_file id ext := {| mtime := now; content := Unreadable |} ]>
         (results_dir jm) |}.

(** [_export_to_csv] and [_export_to_xlsx], which log what the writer
    raises and raise it again, and the [return] of the path after
    them. *)
Definition export_to (writer : exporter) (jm : manager) (id ext : string)
    (results : list json) (now : Z) : manager * (exn + string) :=
  match writer ext results with
  | Written => (write_export jm id ext now, inr (result_path id ext))
  | WriteFailed e file_left =>
      (if file_left then write_export jm id ext now else jm, inl e)
  end.

(** [export_results] *)
Definition export_results (writer : exporter) (jm : manager)
    (id format : string) (now : Z) : manager * (exn + string) :=
  match odict_get (jobs jm) id with
  | None => (jm, inl "Job not found or no results")
  | Some job =>
      if negb (list_given (results job))
      then (jm, inl "Job not found or no results")
      else if String.eqb format "json" then (jm, inr (result_path id "json"))
      else if String.eqb format "csv"
      then export_to writer jm id "csv" (default [] (results job)) now
      else if String.eqb format "xlsx"
      then export_to writer jm id "xlsx" (default [] (results job)) now
      else (jm, inl ("Unsupported format: " +:+ format))
  end.

(** Every job that has results to export has its JSON snapshot in the
    directory: what [export_results] relies on when it returns the path
    of the snapshot without looking for the file. *)
Definition snapshots_present (jm : manager) : Prop :=
  ∀ id job,
    get_job jm id = Some job → list_given (results job) = true →
    is_Some (results_dir jm !! result_file id "json").

End JobManagerOps.

(** ** The endpoints of [main.py] *)

Module Api.
Import JobManager JobManagerOps.

(** [HTTPException(status_code, detail)] *)
Record http_error : Type := HTTPException {
  status_code : Z;
  detail : string
}.

(** [get_job_status] *)
Definition get_job_status (jm : manager) (id : string)
    : http_error + JobStatus :=
  match get_job jm id with
  | None => inl (HTTPException 404 "Job not found")
  | Some job => inr job
  end.

(** The body that [get_job_results] returns. *)
Record job_results : Type := {
  r_job_id : string;
  r_query : string;
  r_total_articles : option Z;
  r_articles : option (list json)
}.

(** [get_job_results] *)
Definition get_job_results (jm : manager) (id : string)
    : http_error + job_results :=
  match get_job jm id with
  | None => inl (HTTPException 404 "Job not found")
  | Some job =>
      if negb (String.eqb (status job) "completed")
      then inl (HTTPException 400 ("Job not completed. Status: " +:+ status job))
      else inr {| r_job_id := id; r_query := query job;
                  r_total_articles := total_articles job;
                  r_articles := results job |}
  end.

(** [download_results]: the path handed to [FileResponse], or the
    exception raised. *)
Definition download_results (writer : exporter) (jm : manager)
    (id format : string) (now : Z) : manager * (http_error + string) :=
  match get_job jm id with
  | None => (jm, inl (HTTPException 404 "Job not found"))
  | Some job =>
      if negb (String.eqb (status job) "completed")
      then (jm, inl (HTTPException 400 "Job not completed"))
      else
        match export_results writer jm id format now with
        | (jm', inr file_path) => (jm', inr file_path)
        | (jm', inl e) => (jm', inl (HTTPException 500 e))
        end
  end.

(** The [delete_job] endpoint. *)
Definition delete_job_endpoint (jm : manager) (id : string)
    : manager * (http_error + string) :=
  match delete_job jm id with
  | (jm', true) => (jm', inr "Job deleted successfully")
  | (jm', false) => (jm', inl (HTTPException 404 "Job not found"))
  end.

End Api.

(** ** Concrete inputs used in examples *)

Module Examples.
Import NewsFetcher AIAnalyzer JobManager.

Definition linked (link : string) : article :=
  {[ "title" := VStr "Untitled"; "link" := VStr link ]}.

(** An article the API delivered without a link. *)
Definition unlinked : article := {[ "title" := VStr "Untitled" ]}.

Definition request : SearchRequest :=
  {| req_query := "solar power"; req_languages := ["en"];
     req_categories := ["science"]; req_extra_topics := None;
     req_size := 1; req_max_pages := 1 |}.

(** A manager started on an empty [results/] directory. *)
Definition fresh_manager : manager := init 100 ∅.

(** A manager holding one job. *)
Definition one_job : manager := create_job fresh_manager "job-1" request 1000.

(** A classified article, as the model is asked to return it. *)
Definition classified (link : string) : json :=
  JObject [("link", JString link); ("relevance", JString "Relevant")].

Definition stored (id : string) (time : Z) (articles : list json) : file :=
  {| mtime := time;
     content := JsonObject
       {| snap_job_id := id; snap_query := Some "solar power";
          snap_timestamp := time;
          snap_total_articles := Some (Z.of_nat (length articles));
          snap_articles := Some articles |} |}.

Definition export : file := {| mtime := 0; content := Unreadable |}.

(** A table of two jobs at its capacity of two; the job [b] is the older
    one, and it has been exported to CSV. *)
Definition two_jobs : manager :=
  {| jobs :=
       [ ("a", {| job_id := "a"; status := "completed"; progress := 100;
                  created_at := 30; updated_at := 40; query := "wind";
                  total_articles := Some 1; error := None;
                  results := Some [classified "a"] |});
         ("b", {| job_id := "b"; status := "completed"; progress := 100;
                  created_at := 10; updated_at := 20; query := "tide";
                  total_articles := Some 1; error := None;
                  results := Some [classified "b"] |}) ];
     max_jobs := 2;
     results_dir :=
       {[ "a.json" := stored "a" 40 [classified "a"];
          "b.json" := stored "b" 20 [classified "b"];
          "b.csv" := export ]} |}.

(** The news API on four occasions: one page of one article; one page of
    two articles although one per page was asked for; no article at all;
    a request that times out, with the empty message that [httpx] gives
    its timeout exceptions. *)
Definition one_page : news_api :=
  λ _ _, Page [linked "https://news.example/1"] VNull.

Definition oversized_page : news_api :=
  λ _ _, Page [linked "https://news.example/1";
               linked "https://news.example/2"] VNull.

Definition no_results : news_api := λ _ _, Page [] VNull.

Definition timeout : news_api := λ _ _, TransportError "".

(** The model answers in prose, without any JSON; [json.loads] rejects
    the text. *)
Definition prose : chat_api :=
  λ _, Completion (Some "I am unable to classify these articles.").

(** The model returns the chunk's only article, classified; [quoted s] is
    [s] between double quotes. *)
Definition quoted (s : string) : string :=
  String (ascii_of_nat 34) s +:+ String (ascii_of_nat 34) EmptyString.

Definition classified_text : string :=
  "[{" +:+ quoted "link" +:+ ": " +:+ quoted "https://news.example/1" +:+ ", "
  +:+ quoted "relevance" +:+ ": " +:+ quoted "Relevant" +:+ "}]".

Definition classified_one : list json :=
  [ classified "https://news.example/1" ].

Definition classifier : chat_api := λ _, Completion (Some classified_text).

Definition json_classified : list (string * json) :=
  [ (classified_text, JArray classified_one) ].

(** The model returns a single JSON object instead of an array of
    objects. *)
Definition object_text : string :=
  "{" +:+ quoted "relevance" +:+ ": " +:+ quoted "Relevant" +:+ "}".

Definition single_object : chat_api := λ _, Completion (Some object_text).

Definition json_object : list (string * json) :=
  [ (object_text, JObject [("relevance", JString "Relevant")]) ].

(** Two chunks of one article each.  The model classifies the first
    chunk; the request for the second one raises ([second_raises]), or
    is answered with a single object ([second_object]). *)
Definition two_articles : list article :=
  [ linked "https://news.example/1"; linked "https://news.example/2" ].

Definition second_raises : chat_api :=
  λ k, match k with
       | O => Completion (Some classified_text)
       | S _ => CompletionError "Connection error."
       end.

Definition second_object : chat_api :=
  λ k, match k with
       | O => Completion (Some classified_text)
       | S _ => Completion (Some object_text)
       end.

Definition json_mixed : list (string * json) := json_classified ++ json_object.




(** Export writers: one that always completes, and one that refuses
    the articles after it has opened the file. *)
Definition writing : JobManagerOps.exporter := λ _ _, JobManagerOps.Written.

Definition refusing : JobManagerOps.exporter :=
  λ _ _, JobManagerOps.WriteFailed
           "sequence item 0: expected str instance, int found" true.

Definition ticks : nat → Z := λ k, 1000 + Z.of_nat k.

(** A results directory with three stored snapshots and a CSV export. *)
Definition three_snapshots : gmap string file :=
  {[ "a.json" := stored "a" 40 [classified "a"];
     "b.json" := stored "b" 20 [classified "b"];
     "c.json" := stored "c" 60 [];
     "b.csv" := export ]}.

(** A stand-in for [json.loads] that knows the texts of [table] and
    rejects every other text. *)
Definition json_loads_of (table : list (string * json))
    (text : string) : option json :=
  odict_get table text.

(** Thirty-two articles. *)
Definition thirty_two : list article := replicate 32 unlinked.

(** [json.loads] on the two texts used below. *)
Definition json_table : list (string * json) :=
  [ ("[{}, {}]", JArray [JObject []; JObject []]); ("[]", JArray []) ].

(** The manager after a run whose analyzer classifies nothing. *)
Definition prose_run : manager :=
  Main.final_state (json_loads_of json_table) fresh_manager "job-1" request
    one_page (inr prose) ticks.

End Examples.

(** * Properties *)

(** ** Stable sorting by key *)

Section sort_by_key.
Context {A : Type} (key : A → Z).

Lemma insert_by_key_Permutation x l : insert_by_key key x l ≡ₚ x :: l.
Proof.
  induction l as [|y l IH]; simpl; [done|].
  destruct (key x <=? key y); [done|].
  by rewrite IH, Permutation_swap.
Qed.

Lemma sort_by_key_Permutation l : sort_by_key key l ≡ₚ l.
Proof.
  induction l as [|x l IH]; simpl; [done|].
  by rewrite insert_by_key_Permutation, IH.
Qed.

Lemma sort_by_key_length l : length (sort_by_key key l) = length l.
Proof. by rewrite sort_by_key_Permutation. Qed.

Lemma insert_by_key_sorted x l :
  StronglySorted (key_le key) l → StronglySorted (key_le key) (insert_by_key key x l).
Proof.
  induction 1 as [|y l Hl IH Hy]; simpl.
  - repeat constructor.
  - destruct (Z.leb_spec (key x) (key y)) as [Hxy|Hxy].
    + constructor; [by constructor|].
      constructor; [done|].
      eapply Forall_impl; [exact Hy|]. unfold key_le. intros; lia.
    + constructor; [done|].
      rewrite insert_by_key_Permutation. constructor; [|done].
      unfold key_le. lia.
Qed.

Lemma sort_by_key_sorted l : StronglySorted (key_le key) (sort_by_key key l).
Proof.
  induction l as [|x l IH]; simpl; [constructor|].
  by apply insert_by_key_sorted.
Qed.

(** Elements with the same key keep their relative order. *)
Lemma insert_by_key_stable k x l :
  filter (λ y, key y = k) (insert_by_key key x l)
  = filter (λ y, key y = k) (x :: l).
Proof.
  induction l as [|y l IH]; simpl; [done|].
  destruct (Z.leb_spec (key x) (key y)) as [Hxy|Hxy]; [done|].
  rewrite filter_cons, IH, !filter_cons.
  repeat case_decide; try done; lia.
Qed.

Lemma sort_by_key_stable k l :
  filter (λ y, key y = k) (sort_by_key key l) = filter (λ y, key y = k) l.
Proof.
  induction l as [|x l IH]; simpl; [done|].
  by rewrite insert_by_key_stable, !filter_cons, IH.
Qed.

Lemma sort_by_key_elem_of x l : x ∈ sort_by_key key l ↔ x ∈ l.
Proof. by rewrite sort_by_key_Permutation. Qed.

(** The head of the sorted list has the least key. *)
Lemma sort_by_key_head l :
  l ≠ [] →
  ∃ x rest, sort_by_key key l = x :: rest
            ∧ x ∈ l ∧ ∀ y, y ∈ l → key x ≤ key y.
Proof.
  intros Hl.
  pose proof (sort_by_key_Permutation l) as Hperm.
  pose proof (sort_by_key_sorted l) as Hsorted.
  destruct (sort_by_key key l) as [|x rest].
  - symmetry in Hperm. by apply Permutation_nil_r in Hperm.
  - exists x, rest. split_and!; [done| |].
    + rewrite <- Hperm. apply elem_of_cons. auto.
    + intros y Hy. rewrite <- Hperm in Hy.
      apply StronglySorted_inv in Hsorted as [_ Hall].
      apply elem_of_cons in Hy as [->|Hy]; [lia|].
      by apply (proj1 (Forall_forall _ _) Hall).
Qed.
End sort_by_key.

(** ** Insertion-ordered dictionaries *)

Section odict_facts.
Context {V : Type}.
Implicit Types (d : list (string * V)) (k : string) (v : V).

Lemma odict_get_set_eq d k v : odict_get (odict_set d k v) k = Some v.
Proof.
  induction d as [|[k' v'] d IH]; simpl; repeat (case_decide; simpl); done.
Qed.

Lemma odict_get_set_ne d k k' v :
  k ≠ k' → odict_get (odict_set d k v) k' = odict_get d k'.
Proof.
  intros Hne.
  induction d as [|[k0 v0] d IH]; simpl; repeat (case_decide; simpl);
    try done; congruence.
Qed.

Lemma odict_set_fresh d k v :
  odict_get d k = None → odict_set d k v = d ++ [(k, v)].
Proof.
  induction d as [|[k' v'] d IH]; simpl; [done|].
  case_decide; [done|]. intros Hg. by rewrite IH.
Qed.

Lemma odict_set_keys_present d k v :
  is_Some (odict_get d k) → (odict_set d k v).*1 = d.*1.
Proof.
  induction d as [|[k' v'] d IH]; simpl; [by intros [? ?]|].
  case_decide; simpl; [by subst|]. intros Hg. f_equal. auto.
Qed.

Lemma odict_get_None d k : odict_get d k = None ↔ k ∉ d.*1.
Proof.
  induction d as [|[k' v'] d IH]; simpl.
  - rewrite elem_of_nil. tauto.
  - rewrite not_elem_of_cons. case_decide; naive_solver.
Qed.

Lemma odict_get_Some d k v : odict_get d k = Some v → (k, v) ∈ d.
Proof.
  induction d as [|[k' v'] d IH]; simpl; [done|].
  case_decide; [intros [= ->]; subst; apply elem_of_cons; auto|].
  intros Hg. apply elem_of_cons. auto.
Qed.

Lemma odict_get_elem_of d k v :
  NoDup d.*1 → (k, v) ∈ d → odict_get d k = Some v.
Proof.
  induction d as [|[k' v'] d IH]; simpl; [by rewrite elem_of_nil|].
  rewrite NoDup_cons, elem_of_cons. intros [Hk Hd] [[= -> ->]|Hin].
  - by rewrite decide_True.
  - rewrite decide_False; [auto|]. intros ->.
    apply Hk. by apply (list_elem_of_fmap_2 fst) in Hin.
Qed.

Lemma odict_del_length d k :
  is_Some (odict_get d k) → S (length (odict_del d k)) = length d.
Proof.
  induction d as [|[k' v'] d IH]; simpl; [by intros [? ?]|].
  case_decide; simpl; [done|]. intros Hg. by rewrite IH.
Qed.

Lemma odict_del_get_ne d k k' :
  k ≠ k' → odict_get (odict_del d k) k' = odict_get d k'.
Proof.
  intros Hne.
  induction d as [|[k0 v0] d IH]; simpl; [done|].
  repeat (case_decide; simpl); try done; congruence.
Qed.

Lemma odict_del_sublist d k : odict_del d k `sublist_of` d.
Proof.
  induction d as [|[k' v'] d IH]; simpl; [done|].
  case_decide; [by apply sublist_cons|by apply sublist_skip].
Qed.

Lemma odict_del_get_eq d k :
  NoDup d.*1 → odict_get (odict_del d k) k = None.
Proof.
  induction d as [|[k' v'] d IH]; simpl; [done|].
  rewrite NoDup_cons. intros [Hk Hd].
  case_decide; simpl.
  - subst. by apply odict_get_None.
  - rewrite decide_False by done. auto.
Qed.

Lemma odict_set_NoDup d k v : NoDup d.*1 → NoDup (odict_set d k v).*1.
Proof.
  intros Hd. destruct (odict_get d k) as [v'|] eqn:Hget.
  - by rewrite odict_set_keys_present.
  - rewrite odict_set_fresh, fmap_app by done. simpl.
    apply NoDup_app. split_and!; [done| |apply NoDup_singleton].
    intros x Hx. rewrite list_elem_of_singleton. intros ->.
    by apply odict_get_None in Hget.
Qed.

Lemma odict_del_NoDup d k : NoDup d.*1 → NoDup (odict_del d k).*1.
Proof.
  intros Hd. apply (sublist_NoDup _ d.*1); [done|].
  apply (fmap_sublist fst), odict_del_sublist.
Qed.
End odict_facts.

Module NewsFetcherFacts.
Import NewsFetcher.

Lemma remove_duplicates_loop_acc articles seen unique :
  remove_duplicates_loop articles seen unique
  = unique ++ remove_duplicates_loop articles seen [].
Proof.
  revert seen unique.
  induction articles as [|a rest IH]; intros seen unique; simpl.
  - by rewrite app_nil_r.
  - destruct (truthy (get_link a) && bool_decide (get_link a ∉ seen)).
    + rewrite (IH _ (unique ++ [a])), (IH _ ([] ++ [a])).
      by rewrite <- app_assoc.
    + apply IH.
Qed.

(** What one more article at the end of the input adds. *)
Lemma remove_duplicates_loop_snoc pre a seen unique :
  remove_duplicates_loop (pre ++ [a]) seen unique
  = remove_duplicates_loop pre seen unique
    ++ (if truthy (get_link a)
           && bool_decide ((get_link a ∉ seen) ∧ (get_link a ∉ (get_link <$> pre)))
        then [a] else []).
Proof.
  revert seen unique.
  induction pre as [|x pre IH]; intros seen unique; simpl.
  - rewrite (bool_decide_ext ((get_link a ∉ seen) ∧ (get_link a ∉ []))
               (get_link a ∉ seen)).
    + destruct (truthy (get_link a) && bool_decide (get_link a ∉ seen));
        [done|by rewrite app_nil_r].
    + rewrite elem_of_nil. tauto.
  - destruct (truthy (get_link x) && bool_decide (get_link x ∉ seen)) eqn:Hx;
      rewrite IH; f_equal;
      destruct (truthy (get_link a)) eqn:Ha; simpl; try done.
    + erewrite bool_decide_ext; [done|].
      rewrite not_elem_of_cons, not_elem_of_union, not_elem_of_singleton. tauto.
    + erewrite bool_decide_ext; [done|].
      rewrite not_elem_of_cons.
      apply andb_false_iff in Hx. split; [|tauto].
      intros [Hs Hp]. repeat split; try done.
      intros E. rewrite <- E, Ha in Hx.
      destruct Hx as [Hx|Hx]; [done|].
      apply bool_decide_eq_false in Hx. tauto.
Qed.

Lemma remove_duplicates_snoc pre a :
  remove_duplicates (pre ++ [a])
  = remove_duplicates pre
    ++ (if truthy (get_link a) && bool_decide (get_link a ∉ (get_link <$> pre))
        then [a] else []).
Proof.
  unfold remove_duplicates. rewrite remove_duplicates_loop_snoc.
  erewrite bool_decide_ext; [done|].
  rewrite elem_of_empty. tauto.
Qed.

Lemma remove_duplicates_loop_app l1 l2 seen unique :
  ∃ seen', remove_duplicates_loop (l1 ++ l2) seen unique
           = remove_duplicates_loop l2 seen' (remove_duplicates_loop l1 seen unique).
Proof.
  revert seen unique.
  induction l1 as [|x l1 IH]; intros seen unique; simpl; [by exists seen|].
  destruct (truthy (get_link x) && bool_decide (get_link x ∉ seen)); apply IH.
Qed.

Lemma remove_duplicates_loop_sublist l seen :
  remove_duplicates_loop l seen [] `sublist_of` l.
Proof.
  revert seen. induction l as [|x l IH]; intros seen; simpl; [done|].
  destruct (truthy (get_link x) && bool_decide (get_link x ∉ seen)).
  - rewrite remove_duplicates_loop_acc. simpl. by apply sublist_skip.
  - by apply sublist_cons.
Qed.

(** The links that survive are the non-empty links of the input. *)
Lemma remove_duplicates_links articles v :
  v ∈ get_link <$> remove_duplicates articles
  ↔ v ∈ get_link <$> articles ∧ truthy v.
Proof.
  induction articles as [|a pre IH] using rev_ind.
  - cbn. rewrite elem_of_nil. tauto.
  - rewrite remove_duplicates_snoc, !fmap_app, !elem_of_app, IH.
    destruct (truthy (get_link a)) eqn:Ha; simpl.
    + apply Is_true_true in Ha.
      case_bool_decide as Hin; simpl; rewrite ?list_elem_of_singleton, ?elem_of_nil.
      * naive_solver.
      * naive_solver.
    + apply Is_true_false in Ha.
      rewrite list_elem_of_singleton, elem_of_nil. naive_solver.
Qed.

Lemma remove_duplicates_NoDup articles :
  NoDup (get_link <$> remove_duplicates articles).
Proof.
  induction articles as [|a pre IH] using rev_ind; [constructor|].
  rewrite remove_duplicates_snoc, fmap_app.
  destruct (truthy (get_link a)); simpl; [|by rewrite app_nil_r].
  case_bool_decide as Hin; simpl; [|by rewrite app_nil_r].
  apply NoDup_app. split_and!; [done| |apply NoDup_singleton].
  intros v Hv. rewrite list_elem_of_singleton. intros ->.
  apply remove_duplicates_links in Hv. tauto.
Qed.

(** C1 (as amended).  [_remove_duplicates] returns a subsequence of its
    input: an article is kept exactly when its link is non-empty and no
    earlier article has the same link (exact match), so every article
    whose link is empty or missing is dropped, the kept links are
    pairwise distinct, and the output has as many articles as the input
    has distinct non-empty links. *)
Theorem remove_duplicates_first_occurrence
    (articles pre : list article) (a : article) (post : list article) :
  remove_duplicates articles `sublist_of` articles
  ∧ Forall (λ x, truthy (get_link x)) (remove_duplicates articles)
  ∧ NoDup (get_link <$> remove_duplicates articles)
  ∧ (∀ v, v ∈ get_link <$> remove_duplicates articles
          ↔ v ∈ get_link <$> articles ∧ truthy v)
  ∧ length (remove_duplicates articles) = size (distinct_links articles)
  ∧ ∃ kept, kept `sublist_of` post
      ∧ remove_duplicates (pre ++ a :: post)
        = remove_duplicates pre
          ++ (if truthy (get_link a)
                 && bool_decide (get_link a ∉ (get_link <$> pre))
              then [a] else [])
          ++ kept.
Proof.
  split_and!.
  - apply remove_duplicates_loop_sublist.
  - apply Forall_forall. intros x Hx.
    apply (list_elem_of_fmap_2 get_link), remove_duplicates_links in Hx. tauto.
  - apply remove_duplicates_NoDup.
  - apply remove_duplicates_links.
  - rewrite <- (length_fmap get_link).
    rewrite <- (size_list_to_set (C := gset value)) by apply remove_duplicates_NoDup.
    f_equal. unfold distinct_links. apply set_eq. intros v.
    rewrite !elem_of_list_to_set, remove_duplicates_links, list_elem_of_filter.
    tauto.
  - unfold remove_duplicates at 1.
    replace (pre ++ a :: post) with ((pre ++ [a]) ++ post)
      by (by rewrite <- app_assoc).
    destruct (remove_duplicates_loop_app (pre ++ [a]) post ∅ []) as [seen' ->].
    rewrite remove_duplicates_loop_acc.
    exists (remove_duplicates_loop post seen' []). split.
    + apply remove_duplicates_loop_sublist.
    + fold (remove_duplicates (pre ++ [a])).
      by rewrite remove_duplicates_snoc, <- app_assoc.
Qed.

(** C1, as the specification words it, fails: an article without a link
    is not kept, so the output is shorter than the number of distinct
    non-empty links plus the number of empty-link entries. *)
Lemma remove_duplicates_drops_unlinked :
  remove_duplicates [Examples.unlinked] = []
  ∧ linkless [Examples.unlinked] = [Examples.unlinked]
  ∧ length (remove_duplicates [Examples.unlinked])
    ≠ (size (distinct_links [Examples.unlinked])
       + length (linkless [Examples.unlinked]))%nat.
Proof. by vm_compute. Qed.

End NewsFetcherFacts.

Module AIAnalyzerFacts.
Import AIAnalyzer.

Lemma relevance_order_lookup label :
  relevance_order !! label
  = if decide (label = "Very Relevant") then Some 0
    else if decide (label = "Relevant") then Some 1
    else if decide (label = "Not Relevant") then Some 2
    else None.
Proof.
  unfold relevance_order.
  rewrite !lookup_insert, lookup_singleton.
  repeat case_decide; congruence.
Qed.

(** The key of an element is decided by its [relevance] label alone:
    the rank of the label, or an exception when the element is not an
    object or the label is a list or an object. *)
Lemma relevance_key_spec (x : json) :
  relevance_key x
  = match x with
    | JObject members =>
        match odict_get members "relevance" with
        | Some (JString label) =>
            inr (if decide (label = "Very Relevant") then 0
                 else if decide (label = "Relevant") then 1
                 else if decide (label = "Not Relevant") then 2
                 else 3)
        | Some (JArray _) => inl "unhashable type: 'list'"
        | Some (JObject _) => inl "unhashable type: 'dict'"
        | _ => inr 3
        end
    | JArray _ => inl "'list' object has no attribute 'get'"
    | JString _ => inl "'str' object has no attribute 'get'"
    | JNull => inl "'NoneType' object has no attribute 'get'"
    | JBool _ => inl "'bool' object has no attribute 'get'"
    | JInt _ => inl "'int' object has no attribute 'get'"
    | JFloat _ => inl "'float' object has no attribute 'get'"
    end.
Proof.
  destruct x as [| | | | | |members]; try done.
  unfold relevance_key.
  destruct (odict_get members "relevance") as [[| | | |label| |]|]; simpl;
    rewrite ?relevance_order_lookup; repeat case_decide; done.
Qed.

Lemma relevance_key_rank x k :
  relevance_key x = inr k → relevance_rank x = k ∧ 0 ≤ k ≤ 3.
Proof.
  unfold relevance_rank. intros Hk. rewrite Hk. split; [done|].
  rewrite relevance_key_spec in Hk.
  destruct x as [| | | | | |members]; try done.
  destruct (odict_get members "relevance") as [[| | | |label| |]|];
    simplify_eq; repeat case_decide; lia.
Qed.

(** *** Sorting with a key that can raise *)

Section raising_key.
Context {A : Type} (key : A → exn + Z).

Lemma keyed_inr l keys :
  keyed key l = inr keys →
  keys.*2 = l ∧ Forall (λ p, key p.2 = inr p.1) keys.
Proof.
  revert keys. induction l as [|x l IH]; intros keys; simpl.
  - intros [= <-]. by split.
  - destruct (key x) as [e|k] eqn:Hx; [done|].
    destruct (keyed key l) as [e|keys'] eqn:Hl; [done|].
    intros [= <-]. destruct (IH keys' eq_refl) as [IH1 IH2].
    split; [simpl; by f_equal|]. by constructor.
Qed.


Lemma keyed_total l :
  Forall (λ y, ∃ k, key y = inr k) l → ∃ keys, keyed key l = inr keys.
Proof.
  induction 1 as [|x l [k Hx] _ [keys IH]]; simpl; [by eexists|].
  rewrite Hx, IH. by eexists.
Qed.

Lemma keyed_fmap keys :
  Forall (λ p, key p.2 = inr p.1) keys → keyed key keys.*2 = inr keys.
Proof.
  induction 1 as [|[k x] keys Hx _ IH]; [done|].
  rewrite fmap_cons. cbn [keyed snd fst] in *. by rewrite Hx, IH.
Qed.

(** A sort that returns: the output is a permutation of the input, its
    keys never decrease, and the elements of one key are in their input
    order. *)
Lemma sort_by_raising_key_inr l out :
  sort_by_raising_key key l = inr out →
  Forall (λ y, ∃ k, key y = inr k) l
  ∧ out ≡ₚ l
  ∧ (∃ keys, keyed key out = inr keys ∧ StronglySorted Z.le keys.*1)
  ∧ (∀ k, filter (λ y, key y = inr k) out = filter (λ y, key y = inr k) l).
Proof.
  unfold sort_by_raising_key.
  destruct (keyed key l) as [e|keys] eqn:Hkeys; [done|]. intros [= <-].
  destruct (keyed_inr _ _ Hkeys) as [Hl Hall].
  assert (Forall (λ p, key p.2 = inr p.1) (sort_by_key fst keys)) as Hsorted.
  { apply Forall_forall. intros p Hp.
    apply sort_by_key_elem_of in Hp.
    by apply (proj1 (Forall_forall _ _) Hall). }
  assert (∀ (k : Z) (ps : list (Z * A)),
            Forall (λ p, key p.2 = inr p.1) ps →
            filter (λ y, key y = inr k) ps.*2
            = (filter (λ p : Z * A, fst p = k) ps).*2) as Hfilter.
  { intros k ps Hps. induction Hps as [|[k' x] ps Hx _ IH]; [done|].
    simpl in Hx. rewrite fmap_cons, !filter_cons. simpl. rewrite Hx.
    destruct (decide (k' = k)) as [->|Hne].
    - rewrite decide_True by done. by rewrite fmap_cons, IH.
    - rewrite decide_False by congruence. done. }
  split_and!.
  - rewrite <- Hl. apply Forall_fmap. eapply Forall_impl; [exact Hall|].
    simpl. intros [k x] Hx. by exists k.
  - rewrite <- Hl. by rewrite sort_by_key_Permutation.
  - exists (sort_by_key fst keys). split; [by apply keyed_fmap|].
    eapply (StronglySorted_fmap fst); [|apply (sort_by_key_sorted fst)].
    by unfold key_le.
  - intros k. rewrite <- Hl, !Hfilter by done.
    by rewrite sort_by_key_stable.
Qed.
End raising_key.

(** *** The chunking loop *)

Section chunking.
Context {A : Type} (l : list A) (cs : nat) (Hcs : (1 ≤ cs)%nat).

Lemma slice_length i :
  length (slice l i (i + cs)) = (cs `min` (length l - i))%nat.
Proof.
  unfold slice. rewrite length_take, length_drop.
  replace (i + cs - i)%nat with cs by lia. done.
Qed.

Lemma range_from_slices fuel start :
  (length l - start ≤ fuel)%nat →
  concat ((λ i, slice l i (i + cs)) <$> range_from fuel start (length l) cs)
  = drop start l.
Proof.
  revert start. induction fuel as [|fuel IH]; intros start Hfuel; simpl.
  - rewrite drop_ge by lia. done.
  - destruct (Nat.ltb_spec start (length l)) as [Hlt|Hge]; simpl.
    + rewrite IH by lia. unfold slice.
      replace (start + cs - start)%nat with cs by lia.
      rewrite <- drop_drop. apply take_drop.
    + rewrite drop_ge by lia. done.
Qed.

Lemma range_from_sizes fuel start :
  (length l - start ≤ fuel)%nat →
  (λ i, length (slice l i (i + cs))) <$> range_from fuel start (length l) cs
  = replicate ((length l - start) / cs) cs
    ++ (if ((length l - start) mod cs =? 0)%nat then []
        else [((length l - start) mod cs)%nat]).
Proof.
  revert start. induction fuel as [|fuel IH]; intros start Hfuel.
  - replace (length l - start)%nat with 0%nat by lia.
    rewrite Nat.Div0.div_0_l, Nat.Div0.mod_0_l. done.
  - simpl. destruct (Nat.ltb_spec start (length l)) as [Hlt|Hge].
    + rewrite fmap_cons, IH, slice_length by lia.
      destruct (le_lt_dec cs (length l - start)) as [Hfull|Hlast].
      * assert (length l - start
                = (length l - (start + cs)) + 1 * cs)%nat as E by lia.
        assert ((length l - start) / cs
                = S ((length l - (start + cs)) / cs))%nat as Hd.
        { rewrite E at 1. rewrite Nat.div_add by lia. lia. }
        assert ((length l - start) mod cs
                = (length l - (start + cs)) mod cs)%nat as Hm.
        { rewrite E at 1. by rewrite Nat.Div0.mod_add. }
        rewrite Hd, Hm, Nat.min_l by lia. done.
      * replace (length l - (start + cs))%nat with 0%nat by lia.
        rewrite Nat.Div0.div_0_l, Nat.Div0.mod_0_l. simpl.
        rewrite Nat.div_small, Nat.mod_small by lia.
        rewrite Nat.min_r by lia. simpl.
        destruct (Nat.eqb_spec (length l - start) 0); [lia|done].
    + replace (length l - start)%nat with 0%nat by lia.
      rewrite Nat.Div0.div_0_l, Nat.Div0.mod_0_l. done.
Qed.
End chunking.

Lemma chunks_concat articles cs :
  (1 ≤ cs)%nat → concat (chunks articles cs) = articles.
Proof.
  intros Hcs. unfold chunks, py_range.
  rewrite range_from_slices by lia. done.
Qed.

Lemma chunks_sizes articles cs :
  (1 ≤ cs)%nat →
  length <$> chunks articles cs
  = replicate (length articles / cs) cs
    ++ (if (length articles mod cs =? 0)%nat then []
        else [(length articles mod cs)%nat]).
Proof.
  intros Hcs. unfold chunks, py_range.
  rewrite <- list_fmap_compose.
  etrans; [apply (range_from_sizes articles cs Hcs); lia|].
  by rewrite Nat.sub_0_r.
Qed.

(** The number of chunks is [ceil(n / cs)]. *)
Lemma chunks_length articles cs :
  (1 ≤ cs)%nat →
  length (chunks articles cs) = ((length articles + cs - 1) / cs)%nat.
Proof.
  intros Hcs.
  rewrite <- (length_fmap length), chunks_sizes by done.
  rewrite length_app, length_replicate.
  set (n := length articles).
  pose proof (Nat.div_mod_eq n cs) as Hn.
  pose proof (Nat.mod_upper_bound n cs ltac:(lia)) as Hr.
  destruct (Nat.eqb_spec (n mod cs) 0) as [H0|H0]; simpl.
  - apply (Nat.div_unique _ _ _ (cs - 1)); [lia|]. nia.
  - apply (Nat.div_unique _ _ _ (n mod cs - 1)); [lia|]. nia.
Qed.

(** *** The analysis loop *)

Section with_json.
Variable json_loads : string → option json.

Lemma analyze_chunk_spec llm calls chunk :
  ∃ r, analyze_chunk json_loads llm calls chunk = (calls ++ [chunk], r)
       ∧ extension r = chunk_contribution json_loads (llm (length calls)).
Proof.
  unfold analyze_chunk, chunk_contribution. eexists. split; [done|].
  destruct (llm (length calls)) as [|[text|]]; try done.
  destruct (String.eqb text ""); [done|].
  unfold extract_json, json_text, extension.
  destruct (search_json_array (str_strip text)); simpl;
    by destruct (json_loads _).
Qed.

(** Whatever a request comes to, the loop goes on with the next chunk:
    every chunk is sent, and what the loop collects is what the
    requests contribute, in order. *)
Lemma analyze_loop_spec llm articles cs indices calls all_classified :
  analyze_loop json_loads llm articles cs indices calls all_classified
  = (calls ++ ((λ i, slice articles i (i + cs)) <$> indices),
     all_classified
     ++ concat ((λ k, chunk_contribution json_loads (llm k))
                  <$> seq (length calls) (length indices))).
Proof.
  revert calls all_classified.
  induction indices as [|i indices IH]; intros calls acc;
    cbn [analyze_loop fmap list_fmap length seq concat].
  - by rewrite !app_nil_r.
  - destruct (analyze_chunk_spec llm calls (slice articles i (i + cs)))
      as (r & -> & <-).
    unfold extension.
    destruct r as [e|classified]; [|destruct (py_iter classified) as [e|items]];
      rewrite IH, length_app; simpl;
      rewrite Nat.add_1_r, <- ?app_assoc, ?app_nil_r; simpl; done.
Qed.

Lemma analyze_articles_spec llm articles cs :
  (1 ≤ cs)%nat →
  analyze_articles json_loads llm articles cs
  = (chunks articles cs,
     sort_by_relevance (collected json_loads llm articles cs)).
Proof.
  intros Hcs. unfold analyze_articles, collected.
  destruct cs as [|cs]; [lia|].
  by rewrite analyze_loop_spec.
Qed.

(** A chunk that fails contributes nothing: a request that raises, an
    empty content, a text that [json.loads] rejects, a value that is not
    iterable. *)
Lemma chunk_contribution_failed :
  (∀ msg, chunk_contribution json_loads (CompletionError msg) = [])
  ∧ chunk_contribution json_loads (Completion None) = []
  ∧ chunk_contribution json_loads (Completion (Some "")) = []
  ∧ (∀ text, json_loads (json_text (str_strip text)) = None →
             chunk_contribution json_loads (Completion (Some text)) = [])
  ∧ (∀ text v e, json_loads (json_text (str_strip text)) = Some v →
                 py_iter v = inl e →
                 chunk_contribution json_loads (Completion (Some text)) = []).
Proof.
  split_and!; try done.
  - intros text Hfail. unfold chunk_contribution.
    destruct (String.eqb text ""); [done|]. by rewrite Hfail.
  - intros text v e Hv He. unfold chunk_contribution.
    destruct (String.eqb text ""); [done|]. by rewrite Hv, He.
Qed.

Lemma chunk_contribution_array text items :
  text ≠ "" →
  json_loads (json_text (str_strip text)) = Some (JArray items) →
  chunk_contribution json_loads (Completion (Some text)) = items.
Proof.
  intros Htext Hitems. unfold chunk_contribution.
  apply String.eqb_neq in Htext. by rewrite Htext, Hitems.
Qed.

Lemma chunk_outcome_contribution c parsed :
  chunk_outcome json_loads c parsed →
  chunk_contribution json_loads c = default [] parsed
  ∧ Forall sortable (default [] parsed).
Proof.
  destruct parsed as [items|]; simpl.
  - intros (text & -> & Htext & Hitems & Hall).
    split; [by apply chunk_contribution_array|done].
  - intros Hfails. split; [|done].
    destruct c as [msg|[text|]]; [done| |done].
    destruct Hfails as [->|[Hnone|(v & e & Hv & He)]]; [done| |].
    + by apply chunk_contribution_failed.
    + by eapply chunk_contribution_failed.
Qed.

(** When every chunk fails or yields an array that the sort accepts, the
    analysis returns: a permutation of the arrays put together. *)
Lemma analyze_articles_returns llm articles c (parsed : nat → option (list json)) :
  (∀ k, (k < length (chunks articles (S c)))%nat →
        chunk_outcome json_loads (llm k) (parsed k)) →
  ∃ out,
    (analyze_articles json_loads llm articles (S c)).2 = inr out
    ∧ out ≡ₚ concat ((λ k, default [] (parsed k))
                       <$> seq 0 (length (chunks articles (S c)))).
Proof.
  intros Hparsed. rewrite analyze_articles_spec by lia. cbn [snd].
  assert (collected json_loads llm articles (S c)
          = concat ((λ k, default [] (parsed k))
                      <$> seq 0 (length (chunks articles (S c)))))
    as Hcollected.
  { unfold collected.
    replace (length (py_range 0 (length articles) (S c)))
      with (length (chunks articles (S c)))
      by (unfold chunks; by rewrite length_fmap).
    f_equal. apply list_fmap_ext. intros i k Hk.
    apply lookup_seq in Hk as [Hi Hk]. simpl in Hi. subst k.
    by apply chunk_outcome_contribution, Hparsed. }
  assert (Forall sortable
            (concat ((λ k, default [] (parsed k))
                       <$> seq 0 (length (chunks articles (S c))))))
    as Hsortable.
  { apply Forall_concat, Forall_fmap, Forall_forall. intros k Hk.
    apply elem_of_seq in Hk.
    apply (chunk_outcome_contribution (llm k)), Hparsed. lia. }
  rewrite Hcollected.
  unfold sort_by_relevance, sort_by_raising_key.
  destruct (keyed_total _ _ Hsortable) as [keys Hkeys].
  rewrite Hkeys. eexists. split; [done|].
  destruct (keyed_inr _ _ _ Hkeys) as [Hl _].
  rewrite <- Hl. by rewrite sort_by_key_Permutation.
Qed.
End with_json.

Lemma concat_length_le {A B} (xs : list (list A)) (ys : list (list B)) :
  Forall2 (λ x y, (length x ≤ length y)%nat) xs ys →
  (length (concat xs) ≤ length (concat ys))%nat.
Proof.
  induction 1 as [|x y xs ys Hxy _ IH]; simpl; [done|].
  rewrite !length_app. lia.
Qed.

Lemma concat_length_eq {A B} (xs : list (list A)) (ys : list (list B)) :
  Forall2 (λ x y, length x = length y) xs ys →
  length (concat xs) = length (concat ys).
Proof.
  induction 1 as [|x y xs ys Hxy _ IH]; simpl; [done|].
  rewrite !length_app. lia.
Qed.

Lemma sort_by_relevance_ranks l out :
  sort_by_relevance l = inr out →
  Forall sortable out ∧ StronglySorted (key_le relevance_rank) out.
Proof.
  intros Hsort.
  destruct (sort_by_raising_key_inr _ _ _ Hsort)
    as (_ & _ & (keys & Hkeys & Hsorted) & _).
  destruct (keyed_inr _ _ _ Hkeys) as [<- Hall]. split.
  - apply Forall_fmap. eapply Forall_impl; [exact Hall|].
    simpl. intros [k x] Hx. by exists k.
  - clear Hkeys Hsort. induction Hall as [|[k x] keys Hx Hall IH]; [constructor|].
    rewrite !fmap_cons in *. cbn [fst snd] in *.
    apply StronglySorted_inv in Hsorted as [Hrest Hle].
    constructor; [by apply IH|].
    apply Forall_forall. intros x' Hin.
    apply list_elem_of_fmap in Hin as ([k' y] & -> & Hin).
    pose proof (proj1 (Forall_forall _ _) Hall _ Hin) as Hy. simpl in Hy.
    assert (k ≤ k') as Hkk.
    { apply (proj1 (Forall_forall _ _) Hle).
      by apply (list_elem_of_fmap_2 fst _ (k', y)). }
    unfold key_le. simpl.
    by rewrite (proj1 (relevance_key_rank _ _ Hx)),
      (proj1 (relevance_key_rank _ _ Hy)).
Qed.



(** C6 (as amended).  With the chunk size 15, [analyze_articles] sends
    [ceil(n / 15)] requests, one after the other, for chunks of 15
    articles followed, when [n mod 15] is not zero, by one of
    [n mod 15]; the chunks put together are the input.  When the
    analysis returns, its output has as many elements as the chunks
    contributed.  When every chunk fails (it contributes nothing) or
    is answered by a text that [json.loads] takes for an array of
    objects with a missing or scalar label, the analysis returns and
    the output has as many elements as these arrays together: at most
    [n] when no array is longer than its chunk, and exactly [n] when
    every chunk is answered by an array as long as the chunk. *)
Theorem analyze_articles_chunking (json_loads : string → option json)
    (llm : chat_api) (articles : list article)
    (parsed : nat → option (list json)) :
  let n := length articles in
  let r := analyze_articles json_loads llm articles 15 in
  let arrays := (λ k, default [] (parsed k)) <$> seq 0 (length r.1) in
  length r.1 = ((n + 14) / 15)%nat
  ∧ length <$> r.1
    = replicate (n / 15) 15%nat
      ++ (if (n mod 15 =? 0)%nat then [] else [(n mod 15)%nat])
  ∧ concat r.1 = articles
  ∧ (∀ out, r.2 = inr out →
            length out = length (collected json_loads llm articles 15))
  ∧ ((∀ k, (k < length r.1)%nat →
           chunk_outcome json_loads (llm k) (parsed k)) →
     ∃ out, r.2 = inr out
       ∧ out ≡ₚ concat arrays
       ∧ length out = length (concat arrays)
       ∧ (Forall2 (λ o chunk, (length o ≤ length chunk)%nat) arrays r.1 →
          (length out ≤ n)%nat)
       ∧ (Forall2 (λ o chunk, length o = length chunk) arrays r.1 →
          length out = n)).
Proof.
  cbv zeta. split_and!.
  - rewrite analyze_articles_spec by lia. cbn [fst].
    rewrite chunks_length by lia. f_equal. lia.
  - rewrite analyze_articles_spec by lia. apply chunks_sizes. lia.
  - rewrite analyze_articles_spec by lia. apply chunks_concat. lia.
  - rewrite analyze_articles_spec by lia. cbn [snd]. intros out Hout.
    destruct (sort_by_raising_key_inr _ _ _ Hout) as (_ & Hperm & _).
    by rewrite Hperm.
  - intros Hparsed.
    assert ((analyze_articles json_loads llm articles 15).1
            = chunks articles 15) as Hcalls
      by (by rewrite analyze_articles_spec by lia).
    rewrite Hcalls in *.
    destruct (analyze_articles_returns json_loads llm articles 14 parsed Hparsed)
      as (out & Hout & Hperm).
    exists out. split_and!; [done|done|by rewrite Hperm| |].
    + intros H. apply concat_length_le in H.
      rewrite chunks_concat in H by lia. by rewrite Hperm.
    + intros H. apply concat_length_eq in H.
      rewrite chunks_concat in H by lia. by rewrite Hperm.
Qed.

(** The scenario of the specification: 32 articles go out as three
    chunks of 15, 15 and 2 articles. *)
Corollary analyze_articles_32 json_loads llm articles :
  length articles = 32%nat →
  length <$> (analyze_articles json_loads llm articles 15).1
  = [15; 15; 2]%nat.
Proof.
  intros Hn. rewrite analyze_articles_spec by lia. cbn [fst].
  rewrite chunks_sizes by lia. by rewrite Hn.
Qed.

(** One article, and a completion that holds one object: one article
    comes out. *)
Example analyze_one_classified :
  analyze_articles (Examples.json_loads_of Examples.json_classified)
    Examples.classifier [Examples.linked "https://news.example/1"] 15
  = ([[Examples.linked "https://news.example/1"]], inr Examples.classified_one).
Proof. reflexivity. Qed.

Example analyze_thirty_two :
  length <$> (analyze_articles (λ _, None) (λ _, Completion None)
                Examples.thirty_two 15).1
  = [15; 15; 2]%nat.
Proof. reflexivity. Qed.

(** C6, as the specification words it, fails: nothing ties the length of
    a parsed completion to the length of its chunk.  One article whose
    completion holds two objects gives an output of two articles; one
    whose completion is an empty array gives an empty output although
    every chunk was parsed. *)
Lemma analyze_articles_length_unbounded :
  analyze_articles (Examples.json_loads_of Examples.json_table)
    (λ _, Completion (Some "[{}, {}]")) [Examples.linked "a"] 15
  = ([[Examples.linked "a"]], inr [JObject []; JObject []])
  ∧ analyze_articles (Examples.json_loads_of Examples.json_table)
      (λ _, Completion (Some "[]")) [Examples.linked "a"] 15
    = ([[Examples.linked "a"]], inr [])
  ∧ Examples.json_loads_of Examples.json_table "[]" = Some (JArray []).
Proof. repeat split; reflexivity. Qed.

End AIAnalyzerFacts.

Module JobManagerFacts.
Import JobManager.

(** *** [update_job] *)

Lemma update_job_found jm id st pr tot err res now job :
  get_job jm id = Some job →
  update_job jm id st pr tot err res now
  = (let jm' := {| jobs := odict_set (jobs jm) id
                             (updated_job job st pr tot err res now);
                   max_jobs := max_jobs jm;
                   results_dir := results_dir jm |} in
     if bool_decide (st = Some "completed") && list_given res
     then save_results jm' id (default [] res) (query job) now
     else jm',
     Some (updated_job job st pr tot err res now)).
Proof. unfold get_job, update_job. by intros ->. Qed.

Lemma update_job_missing jm id st pr tot err res now :
  get_job jm id = None → update_job jm id st pr tot err res now = (jm, None).
Proof. unfold get_job, update_job. by intros ->. Qed.

Lemma update_job_jobs jm id st pr tot err res now :
  jobs (update_job jm id st pr tot err res now).1
  = match get_job jm id with
    | Some job =>
        odict_set (jobs jm) id (updated_job job st pr tot err res now)
    | None => jobs jm
    end.
Proof.
  destruct (get_job jm id) as [job|] eqn:Hget.
  - rewrite (update_job_found _ _ _ _ _ _ _ _ job) by done. simpl.
    by destruct (bool_decide (st = Some "completed") && list_given res).
  - by rewrite update_job_missing.
Qed.

Lemma update_job_max_jobs jm id st pr tot err res now :
  max_jobs (update_job jm id st pr tot err res now).1 = max_jobs jm.
Proof.
  destruct (get_job jm id) as [job|] eqn:Hget.
  - rewrite (update_job_found _ _ _ _ _ _ _ _ job) by done. simpl.
    by destruct (bool_decide (st = Some "completed") && list_given res).
  - by rewrite update_job_missing.
Qed.

Lemma update_job_results_dir jm id st pr tot err res now :
  results_dir (update_job jm id st pr tot err res now).1
  = match get_job jm id with
    | Some job =>
        if bool_decide (st = Some "completed") && list_given res
        then <[ result_file id "json" :=
                  {| mtime := now;
                     content := JsonObject
                       {| snap_job_id := id;
                          snap_query := Some (query job);
                          snap_timestamp := now;
                          snap_total_articles :=
                            Some (Z.of_nat (length (default [] res)));
                          snap_articles := Some (default [] res) |} |} ]>
               (results_dir jm)
        else results_dir jm
    | None => results_dir jm
    end.
Proof.
  destruct (get_job jm id) as [job|] eqn:Hget.
  - rewrite (update_job_found _ _ _ _ _ _ _ _ job) by done. simpl.
    by destruct (bool_decide (st = Some "completed") && list_given res).
  - by rewrite update_job_missing.
Qed.

Lemma update_job_get jm id st pr tot err res now id' :
  get_job (update_job jm id st pr tot err res now).1 id'
  = if decide (id = id')
    then (λ job, updated_job job st pr tot err res now) <$> get_job jm id
    else get_job jm id'.
Proof.
  unfold get_job at 1. rewrite update_job_jobs.
  case_decide as Hid.
  - subst id'. destruct (get_job jm id) as [job|] eqn:Hget; simpl.
    + apply odict_get_set_eq.
    + done.
  - destruct (get_job jm id) as [job|]; [|done].
    by apply odict_get_set_ne.
Qed.

Lemma update_job_keys jm id st pr tot err res now :
  (jobs (update_job jm id st pr tot err res now).1).*1 = (jobs jm).*1.
Proof.
  rewrite update_job_jobs.
  destruct (get_job jm id) as [job|] eqn:Hget; [|done].
  apply odict_set_keys_present. unfold get_job in Hget. by rewrite Hget.
Qed.

(** C9.  For a job that exists, [update_job] leaves alone every field
    whose argument is [None]; an empty string for [status] or [error]
    counts as no argument.  So no empty status or error is ever stored, a
    field that is set is never cleared, and [updated_at] is refreshed by
    every call, also by one that changes nothing else.  The identifier, the
    creation time, the query and the other jobs are never touched. *)
Theorem update_job_frame (jm : manager) (id : string)
    (st : option string) (pr tot : option Z) (err : option string)
    (res : option (list json)) (now : Z) (job : JobStatus) :
  get_job jm id = Some job →
  ∃ job',
    (update_job jm id st pr tot err res now).2 = Some job'
    ∧ get_job (update_job jm id st pr tot err res now).1 id = Some job'
    ∧ (st = None ∨ st = Some "" → status job' = status job)
    ∧ (pr = None → progress job' = progress job)
    ∧ (tot = None → total_articles job' = total_articles job)
    ∧ (err = None ∨ err = Some "" → error job' = error job)
    ∧ (res = None → results job' = results job)
    ∧ (∀ s, st = Some s → s ≠ "" → status job' = s)
    ∧ (∀ p, pr = Some p → progress job' = p)
    ∧ (∀ n, tot = Some n → total_articles job' = Some n)
    ∧ (∀ e, err = Some e → e ≠ "" → error job' = Some e)
    ∧ (∀ l, res = Some l → results job' = Some l)
    ∧ (status job' = "" → status job = "")
    ∧ (error job' = Some "" → error job = Some "")
    ∧ (is_Some (total_articles job) → is_Some (total_articles job'))
    ∧ (is_Some (error job) → is_Some (error job'))
    ∧ (is_Some (results job) → is_Some (results job'))
    ∧ updated_at job' = now
    ∧ job_id job' = job_id job
    ∧ created_at job' = created_at job
    ∧ query job' = query job
    ∧ (∀ id', id ≠ id' →
         get_job (update_job jm id st pr tot err res now).1 id' = get_job jm id').
Proof.
  intros Hget. exists (updated_job job st pr tot err res now).
  assert (∀ s : string, s ≠ "" → String.eqb s "" = false) as Hne
    by (intros s Hs; by apply String.eqb_neq).
  split_and!; try done.
  - by rewrite (update_job_found _ _ _ _ _ _ _ _ job).
  - rewrite update_job_get, decide_True, Hget by done. done.
  - by intros [->| ->].
  - by intros ->.
  - by intros ->.
  - by intros [->| ->].
  - by intros ->.
  - intros s -> Hs. simpl. by rewrite Hne.
  - by intros p ->.
  - by intros n ->.
  - intros e -> He. simpl. by rewrite Hne.
  - by intros l ->.
  - simpl. destruct st as [s|]; simpl; [|done].
    destruct (String.eqb_spec s ""); simpl; [done|]. by intros.
  - simpl. destruct err as [e|]; simpl; [|done].
    destruct (String.eqb_spec e ""); simpl; [done|]. by intros [= ?].
  - simpl. by destruct tot.
  - simpl. destruct (str_given err) eqn:E; [|done].
    destruct err; [by eexists|done].
  - simpl. by destruct res.
  - intros id' Hid. by rewrite update_job_get, decide_False.
Qed.

(** The empty string as [error], sent to the job of [Examples.one_job]:
    only [updated_at] moves. *)
Lemma update_job_frame_witness :
  get_job Examples.one_job "job-1"
  = Some (new_job "job-1" Examples.request 1000)
  ∧ ∃ job', get_job (update_job Examples.one_job "job-1" None None None
                       (Some "") None 2000).1 "job-1" = Some job'
            ∧ error job' = None
            ∧ status job' = "created"
            ∧ updated_at job' = 2000.
Proof.
  split; [reflexivity|].
  destruct (update_job_frame Examples.one_job "job-1" None None None (Some "")
              None 2000 (new_job "job-1" Examples.request 1000) eq_refl)
    as (job' & _ & Hget & Hst & _ & _ & Herr & _ & _ & _ & _ & _ & _ & _ & _
        & _ & _ & _ & Hupd & _).
  exists job'. split_and!; [done| | |done].
  - by rewrite Herr by auto.
  - by rewrite Hst by auto.
Defined.

(** *** [create_job], [delete_job] and the eviction *)

Lemma delete_job_found jm id job :
  get_job jm id = Some job →
  delete_job jm id
  = ({| jobs := odict_del (jobs jm) id;
        max_jobs := max_jobs jm;
        results_dir :=
          delete (result_file id "xlsx")
            (delete (result_file id "csv")
               (delete (result_file id "json") (results_dir jm))) |},
     true).
Proof. unfold get_job, delete_job. by intros ->. Qed.

Lemma create_job_wf jm id request now : wf jm → wf (create_job jm id request now).
Proof.
  unfold wf, create_job. intros Hwf. cbn [jobs max_jobs].
  assert (NoDup (odict_set (jobs jm) id (new_job id request now)).*1) as Hset
    by by apply odict_set_NoDup.
  destruct (_ <? _)%nat; [|done].
  unfold cleanup_old_jobs. cbn [jobs max_jobs].
  destruct (_ <=? _)%nat; [done|].
  set (victims := take _ _). clearbody victims.
  set (jm1 := {| jobs := _ |}) in *.
  assert (NoDup (jobs jm1).*1) as Hjm1 by done.
  clearbody jm1. clear Hset Hwf.
  revert jm1 Hjm1. induction victims as [|v victims IH]; intros jm1 Hjm1; simpl; [done|].
  apply IH. unfold delete_job.
  destruct (odict_get (jobs jm1) v.1); [|done].
  cbn [fst jobs]. by apply odict_del_NoDup.
Qed.

(** C8.  [create_job] on a table that holds [max_jobs] jobs leaves a
    table of [max_jobs] jobs.  When the identifier is new, exactly one job
    leaves the table: one whose creation time is the least of the table
    (the new job included), and the files [<id>.json], [<id>.csv] and
    [<id>.xlsx] of that job leave the results directory while every other
    job and file stays.  When the identifier is in use, its record is
    replaced and nothing is evicted. *)
Theorem create_job_at_capacity (jm : manager) (id : string)
    (request : SearchRequest) (now : Z) :
  wf jm →
  length (jobs jm) = max_jobs jm →
  let jm' := create_job jm id request now in
  let table := jobs jm ++ [(id, new_job id request now)] in
  wf jm'
  ∧ length (jobs jm') = max_jobs jm
  ∧ max_jobs jm' = max_jobs jm
  ∧ match get_job jm id with
    | Some _ =>
        jobs jm' = odict_set (jobs jm) id (new_job id request now)
        ∧ (jobs jm').*1 = (jobs jm).*1
        ∧ results_dir jm' = results_dir jm
    | None =>
        ∃ victim_id victim,
          (victim_id, victim) ∈ table
          ∧ (∀ k j, (k, j) ∈ table → created_at victim ≤ created_at j)
          ∧ jobs jm' = odict_del table victim_id
          ∧ get_job jm' victim_id = None
          ∧ (∀ k, k ≠ victim_id → get_job jm' k = odict_get table k)
          ∧ (∀ ext, ext ∈ ["json"; "csv"; "xlsx"] →
                    results_dir jm' !! result_file victim_id ext = None)
          ∧ (∀ f, f ∉ result_file victim_id <$> ["json"; "csv"; "xlsx"] →
                  results_dir jm' !! f = results_dir jm !! f)
    end.
Proof.
  intros Hwf Hlen. cbv zeta.
  split; [by apply create_job_wf|].
  unfold create_job. cbn [jobs max_jobs].
  destruct (get_job jm id) as [old|] eqn:Hget; unfold get_job in Hget.
  - (* the identifier is in use: the record is replaced in place *)
    assert (length (odict_set (jobs jm) id (new_job id request now))
            = length (jobs jm)) as Hsame.
    { rewrite <- !(length_fmap fst), odict_set_keys_present; [done|].
      by rewrite Hget. }
    rewrite Hsame, Hlen, Nat.ltb_irrefl. cbn [jobs max_jobs results_dir].
    split_and!; try done; [congruence|].
    apply odict_set_keys_present. by rewrite Hget.
  - (* a new identifier: the table grows by one, and one job is evicted *)
    rewrite odict_set_fresh by done.
    set (table := jobs jm ++ [(id, new_job id request now)]).
    assert (length table = S (max_jobs jm)) as Htable
      by (unfold table; rewrite length_app; simpl; lia).
    assert (NoDup table.*1) as Hnodup.
    { unfold table. rewrite <- (odict_set_fresh _ _ _ Hget).
      by apply odict_set_NoDup. }
    rewrite Htable.
    replace (max_jobs jm <? S (max_jobs jm))%nat with true
      by (symmetry; apply Nat.ltb_lt; lia).
    unfold cleanup_old_jobs. cbn [jobs max_jobs].
    rewrite Htable.
    replace (S (max_jobs jm) <=? max_jobs jm)%nat with false
      by (symmetry; apply Nat.leb_gt; lia).
    replace (S (max_jobs jm) - max_jobs jm)%nat with 1%nat by lia.
    destruct (sort_by_key_head (λ item : string * JobStatus, created_at item.2) table)
      as ([victim_id victim] & rest & -> & Hin & Hleast).
    { intros E. by rewrite E in Htable. }
    cbn [take foldl fst snd]. rewrite take_0. cbn [foldl].
    erewrite delete_job_found; [|by apply odict_get_elem_of].
    cbn [fst jobs max_jobs results_dir].
    split_and!.
    + pose proof (odict_del_length table victim_id) as Hdel.
      rewrite (odict_get_elem_of _ _ _ Hnodup Hin) in Hdel.
      specialize (Hdel (mk_is_Some _ _ eq_refl)). lia.
    + done.
    + exists victim_id, victim. split_and!.
      * done.
      * intros k j Hkj. apply (Hleast (k, j) Hkj).
      * done.
      * unfold get_job. cbn [jobs]. by apply odict_del_get_eq.
      * intros k Hk. unfold get_job. cbn [jobs]. by apply odict_del_get_ne.
      * intros ext Hext. rewrite !lookup_delete.
        repeat case_decide; try done.
        set_solver.
      * intros f Hf. rewrite !lookup_delete.
        repeat case_decide; try done; subst f; exfalso; apply Hf; set_solver.
Qed.

(** Creating a third job in [Examples.two_jobs] evicts [b], the older of
    the two, with its two files. *)
Lemma create_job_at_capacity_witness :
  wf Examples.two_jobs
  ∧ length (jobs Examples.two_jobs) = max_jobs Examples.two_jobs
  ∧ length (jobs (create_job Examples.two_jobs "c" Examples.request 50)) = 2%nat
  ∧ (jobs (create_job Examples.two_jobs "c" Examples.request 50)).*1 = ["a"; "c"]
  ∧ results_dir (create_job Examples.two_jobs "c" Examples.request 50) !! "b.json"
    = None
  ∧ results_dir (create_job Examples.two_jobs "c" Examples.request 50) !! "b.csv"
    = None
  ∧ results_dir (create_job Examples.two_jobs "c" Examples.request 50) !! "a.json"
    = Some (Examples.stored "a" 40 [Examples.classified "a"]).
Proof.
  assert (wf Examples.two_jobs) as Hwf.
  { unfold wf. simpl. repeat constructor; set_solver. }
  split_and!; [exact Hwf|reflexivity| |reflexivity..].
  exact (proj1 (proj2 (create_job_at_capacity Examples.two_jobs "c"
                         Examples.request 50 Hwf eq_refl))).
Defined.

(** Whatever the size of the table, [create_job] leaves at most
    [max_jobs] jobs: the cleanup deletes as many of the oldest jobs as the
    table has too many. *)
Lemma foldl_delete_job_length victims jm :
  NoDup victims.*1 →
  (∀ v : string * JobStatus, v ∈ victims → is_Some (get_job jm v.1)) →
  (length (jobs (foldl (λ jm item, (delete_job jm item.1).1) jm victims))
   + length victims)%nat
  = length (jobs jm).
Proof.
  revert jm. induction victims as [|v victims IH]; intros jm Hnodup Hpresent;
    simpl; [lia|].
  apply NoDup_cons in Hnodup as [Hv Hnodup].
  destruct (Hpresent v) as [job Hjob]; [apply elem_of_cons; auto|].
  assert (S (length (jobs (delete_job jm v.1).1)) = length (jobs jm)) as Hdel.
  { rewrite (delete_job_found _ _ _ Hjob). cbn [fst jobs].
    apply odict_del_length. unfold get_job in Hjob. by rewrite Hjob. }
  rewrite <- Hdel, <- (IH (delete_job jm v.1).1 Hnodup); [lia|].
  intros w Hw. rewrite (delete_job_found _ _ _ Hjob).
  unfold get_job. cbn [fst jobs]. rewrite odict_del_get_ne.
  - apply Hpresent, elem_of_cons. auto.
  - intros E. apply Hv. rewrite E. by apply (list_elem_of_fmap_2 fst).
Qed.

Lemma cleanup_old_jobs_length jm :
  wf jm →
  length (jobs (cleanup_old_jobs jm))
  = (length (jobs jm) `min` max_jobs jm)%nat.
Proof.
  intros Hwf. unfold cleanup_old_jobs.
  destruct (Nat.leb_spec (length (jobs jm)) (max_jobs jm)) as [Hle|Hgt]; [lia|].
  set (sorted := sort_by_key (λ item : string * JobStatus, created_at item.2)
                   (jobs jm)).
  assert (sorted ≡ₚ jobs jm) as Hperm by apply sort_by_key_Permutation.
  assert (length sorted = length (jobs jm)) as Hsame
    by by apply Permutation_length.
  set (n := (length (jobs jm) - max_jobs jm)%nat).
  assert (length (take n sorted) = n) as Htake
    by (rewrite length_take; unfold n; lia).
  pose proof (foldl_delete_job_length (take n sorted) jm) as Hlen.
  rewrite Htake in Hlen.
  assert (take n sorted `sublist_of` sorted) as Hsub by apply sublist_take.
  rewrite Nat.min_r by lia.
  enough ((length (jobs (foldl (λ jm item, (delete_job jm item.1).1) jm
                           (take n sorted))) + n)%nat
          = length (jobs jm)) by (unfold n in *; lia).
  apply Hlen.
  - apply (sublist_NoDup _ sorted.*1); [|by apply (fmap_sublist fst)].
    unfold wf in Hwf. by rewrite Hperm.
  - intros [k job] Hin. exists job. unfold get_job. simpl.
    apply odict_get_elem_of; [done|].
    rewrite <- Hperm. by eapply elem_of_sublist.
Qed.

Lemma create_job_capacity jm id request now :
  wf jm → (length (jobs (create_job jm id request now)) ≤ max_jobs jm)%nat.
Proof.
  intros Hwf. unfold create_job. cbv zeta.
  set (jm1 := {| jobs := _ |}).
  assert (wf jm1) as Hwf1 by (by apply odict_set_NoDup).
  change (max_jobs jm) with (max_jobs jm1).
  destruct (Nat.ltb_spec (max_jobs jm1) (length (jobs jm1))) as [Hgt|Hle].
  - rewrite cleanup_old_jobs_length by done. lia.
  - done.
Qed.

(** *** Startup *)

Lemma load_result_file_entry table entry :
  load_result_file table entry
  = match loaded_entry entry with
    | Some (id, job) => odict_set table id job
    | None => table
    end.
Proof.
  destruct entry as [filename f]. unfold load_result_file, loaded_entry. simpl.
  destruct (str_endswith filename ".json"); [|done].
  destruct (content f) as [data|]; [|done].
  by destruct (valid_results _).
Qed.

Lemma foldl_load_result_file table entries :
  NoDup (table.*1 ++ (omap loaded_entry entries).*1) →
  foldl load_result_file table entries = table ++ omap loaded_entry entries.
Proof.
  revert table. induction entries as [|entry entries IH]; intros table Hnodup;
    cbn [foldl omap list_omap].
  - by rewrite app_nil_r.
  - rewrite load_result_file_entry.
    cbn [omap list_omap] in Hnodup.
    destruct (loaded_entry entry) as [[id job]|].
    + cbn [fmap list_fmap fst] in Hnodup.
      assert (odict_get table id = None) as Hfresh.
      { apply odict_get_None. apply NoDup_app in Hnodup as (_ & Hdisj & _).
        intros Hin. apply (Hdisj _ Hin). apply elem_of_cons. auto. }
      rewrite odict_set_fresh by done.
      rewrite IH; [by rewrite <- app_assoc|].
      rewrite fmap_app, <- app_assoc. done.
    + by apply IH.
Qed.

(** C10.  The startup scan makes one [completed] job of every snapshot
    found in the results directory and evicts nothing: when the snapshots
    give different job identifiers, the table holds as many jobs as there
    are snapshots, whatever [max_jobs] is.  [update_job] does not change
    the size of the table either; only [create_job] compares it with
    [max_jobs], and the first [create_job] after the startup brings the
    table back to at most [max_jobs] jobs. *)
Theorem startup_ignores_capacity (capacity : nat) (dir : gmap string file) :
  NoDup (omap loaded_entry (listdir dir)).*1 →
  let jm := init capacity dir in
  jobs jm = omap loaded_entry (listdir dir)
  ∧ length (jobs jm) = length (omap loaded_entry (listdir dir))
  ∧ Forall (λ item, status item.2 = "completed" ∧ progress item.2 = 100
                    ∧ error item.2 = None ∧ is_Some (results item.2))
      (jobs jm)
  ∧ max_jobs jm = capacity
  ∧ results_dir jm = dir
  ∧ (∀ id st pr tot err res now,
       length (jobs (update_job jm id st pr tot err res now).1)
       = length (jobs jm))
  ∧ (∀ id request now,
       (length (jobs (create_job jm id request now)) ≤ capacity)%nat).
Proof.
  intros Hnodup. cbv zeta.
  assert (jobs (init capacity dir) = omap loaded_entry (listdir dir)) as Hjobs.
  { unfold init, load_existing_results. cbn [jobs max_jobs results_dir].
    by rewrite foldl_load_result_file. }
  split; [done|]. split; [by rewrite Hjobs|]. split.
  { rewrite Hjobs. apply Forall_forall. intros [id job] Hin.
    apply list_elem_of_omap in Hin as (entry & _ & Hentry).
    unfold loaded_entry in Hentry.
    destruct (str_endswith entry.1 ".json"); [|done].
    destruct (content entry.2) as [data|]; [|done].
    destruct (valid_results _); [|done].
    injection Hentry as <- <-. simpl. by split_and!. }
  split; [done|]. split; [done|]. split.
  - intros id st pr tot err res now.
    rewrite <- !(length_fmap fst), update_job_keys. done.
  - intros id request now.
    apply (create_job_capacity (init capacity dir)).
    unfold wf. by rewrite Hjobs.
Qed.

(** Three snapshots on disk and a capacity of two: three jobs after the
    startup. *)
Lemma startup_ignores_capacity_witness :
  NoDup (omap loaded_entry (listdir Examples.three_snapshots)).*1
  ∧ max_jobs (init 2 Examples.three_snapshots) = 2%nat
  ∧ length (jobs (init 2 Examples.three_snapshots)) = 3%nat.
Proof.
  assert (NoDup (omap loaded_entry (listdir Examples.three_snapshots)).*1)
    as Hnodup.
  { vm_compute. repeat constructor; set_solver. }
  split_and!; [exact Hnodup|reflexivity|].
  rewrite (proj1 (proj2 (startup_ignores_capacity 2 Examples.three_snapshots
                           Hnodup))).
  by vm_compute.
Defined.

End JobManagerFacts.

Module MainFacts.
Import NewsFetcher AIAnalyzer JobManager Main.
Import JobManagerFacts AIAnalyzerFacts.

(** *** The progress of the fetch phase *)

(** On the validated range of [size] and [max_pages] the floating point
    expression is the integer quotient. *)
Lemma fetch_progress_table :
  forallb
    (λ s, forallb
            (λ m, forallb
                    (λ a, fetch_progress_agrees (Z.of_nat a) (Z.of_nat s)
                            (Z.of_nat m))
                    (seq 0 (S (s * m))))
            (seq 1 50))
    (seq 1 10)
  = true.
Proof. vm_compute. reflexivity. Qed.

Lemma fetch_progress_exact article_count size max_pages :
  1 ≤ size ≤ 10 → 1 ≤ max_pages ≤ 50 →
  0 ≤ article_count ≤ size * max_pages →
  fetch_progress article_count size max_pages
  = inr (10 + 30 * article_count / (size * max_pages)).
Proof.
  intros Hs Hm Ha.
  pose proof (proj1 (forallb_forall _ _) fetch_progress_table
                (Z.to_nat size) ltac:(apply in_seq; lia)) as Hrow.
  pose proof (proj1 (forallb_forall _ _) Hrow
                (Z.to_nat max_pages) ltac:(apply in_seq; lia)) as Hcol.
  pose proof (proj1 (forallb_forall _ _) Hcol
                (Z.to_nat article_count) ltac:(apply in_seq; nia)) as Hagree.
  rewrite !Z2Nat.id in Hagree by lia.
  unfold fetch_progress_agrees in Hagree.
  destruct (fetch_progress article_count size max_pages) as [e|p]; [done|].
  f_equal. by apply Z.eqb_eq.
Qed.

Lemma fetch_progress_mono a a' b :
  1 ≤ b → 0 ≤ a ≤ a' → a' ≤ b →
  10 ≤ 10 + 30 * a / b ≤ 10 + 30 * a' / b ∧ 10 + 30 * a' / b ≤ 40.
Proof.
  intros Hb Ha Ha'.
  assert (0 ≤ 30 * a / b) by (apply Z.div_pos; lia).
  assert (30 * a / b ≤ 30 * a' / b) by (apply Z.div_le_mono; lia).
  assert (30 * a' / b ≤ 30) by (apply Z.div_le_upper_bound; nia).
  lia.
Qed.

(** *** The calls of the pipeline *)

Lemma update_fetch_progress_cases request n :
  (∃ e, update_fetch_progress request n = ([], inl e))
  ∨ (∃ p, fetch_progress n (req_size request) (req_max_pages request) = inr p
          ∧ update_fetch_progress request n
            = ([fetching_call p (Some n)], inr tt)).
Proof.
  unfold update_fetch_progress, lift, call_update_job, mbind, M_bind.
  destruct (fetch_progress n (req_size request) (req_max_pages request));
    [left|right]; eauto.
Qed.

Lemma fetch_loop_shape api request remaining page_count next_page all_articles :
  Forall is_fetching_call
    (fetch_loop api (update_fetch_progress request) remaining page_count
       next_page all_articles).1.
Proof.
  revert page_count next_page all_articles.
  induction remaining as [|remaining IH]; intros pc next all; simpl; [done|].
  destruct (api pc next) as [msg|code|message|results nextPage]; try done.
  destruct results as [|a results]; [done|].
  unfold mbind, M_bind.
  destruct (update_fetch_progress_cases request
              (Z.of_nat (length (all ++ a :: results))))
    as [[e ->]|(p & _ & ->)]; [done|].
  destruct (truthy nextPage).
  - specialize (IH (S pc) nextPage (all ++ a :: results)).
    destruct (fetch_loop _ _ _ _ _ _) as [calls r]. simpl in *.
    constructor; [by exists p, (Some (Z.of_nat (length (all ++ a :: results))))|done].
  - simpl. constructor; [|done].
    by exists p, (Some (Z.of_nat (length (all ++ a :: results)))).
Qed.

(** When the pages respect the page size, the fetch phase reports
    progress values that never decrease and stay between 10 and 40. *)
Lemma fetch_loop_progress api request remaining page_count next_page all_articles :
  1 ≤ req_size request ≤ 10 → 1 ≤ req_max_pages request ≤ 50 →
  pages_within_size api request →
  Z.of_nat (length all_articles) ≤ Z.of_nat page_count * req_size request →
  (Z.of_nat page_count + Z.of_nat remaining ≤ req_max_pages request) →
  let ps := omap u_progress
              (fetch_loop api (update_fetch_progress request) remaining
                 page_count next_page all_articles).1 in
  StronglySorted Z.le ps
  ∧ Forall (λ p, 10 + 30 * Z.of_nat (length all_articles)
                      / (req_size request * req_max_pages request) ≤ p ≤ 40) ps.
Proof.
  intros Hs Hm Hpages. cbv zeta.
  revert page_count next_page all_articles.
  induction remaining as [|remaining IH]; intros pc next all Hall Hpc; simpl;
    [by split; constructor|].
  destruct (api pc next) as [msg|code|message|results nextPage] eqn:Hapi;
    try (by split; constructor).
  destruct results as [|a results]; [by split; constructor|].
  apply Hpages in Hapi.
  set (all' := all ++ a :: results) in *.
  assert (Z.of_nat (length all) ≤ Z.of_nat (length all')) as Hgrow
    by (unfold all'; rewrite length_app; lia).
  assert (Z.of_nat (length all') ≤ Z.of_nat (S pc) * req_size request) as Hall'
    by (unfold all'; rewrite length_app; lia).
  assert (Z.of_nat (length all') ≤ req_size request * req_max_pages request)
    as Hbound by nia.
  unfold mbind, M_bind, update_fetch_progress, lift, call_update_job.
  rewrite fetch_progress_exact by lia.
  pose proof (fetch_progress_mono (Z.of_nat (length all)) (Z.of_nat (length all'))
                (req_size request * req_max_pages request)
                ltac:(nia) ltac:(lia) Hbound) as Hmono.
  destruct (truthy nextPage).
  - specialize (IH (S pc) nextPage all' Hall' ltac:(lia)).
    destruct (fetch_loop _ _ _ _ _ _) as [calls r]. simpl in *.
    destruct IH as [Hsorted Hrange]. split.
    + constructor; [done|]. eapply Forall_impl; [exact Hrange|].
      simpl. intros; lia.
    + constructor; [lia|]. eapply Forall_impl; [exact Hrange|].
      simpl. intros; lia.
  - simpl. split; repeat constructor; lia.
Qed.

(** The calls of a run: the seed of the fetch phase, the calls of the
    progress callback, and then one [failed] call, or the [analyzing]
    call followed by a [failed] call (the analyzer cannot be built, or
    the analysis raises), or the [analyzing] call followed by the
    [completed] one. *)
Lemma process_news_search_shape json_loads request api llm :
  ∃ tail,
    process_news_search json_loads request api llm
    = fetching_call 10 None
      :: (fetch_loop api (update_fetch_progress request)
            (Z.to_nat (req_max_pages request)) 0 VNull []).1
      ++ tail
    ∧ ((∃ e, tail = [failed_call e])
       ∨ (∃ n e, tail = [analyzing_call n; failed_call e])
       ∨ (∃ n classified, tail = [analyzing_call n; completed_call classified])).
Proof.
  unfold process_news_search, process_news_search_body, fetch_articles.
  unfold mbind, M_bind, mret, M_ret, call_update_job, lift.
  destruct (fetch_loop _ _ _ _ _ _) as [cb [e|all]]; cbn [fst].
  - exists [failed_call e]. split; [done|]. left. eauto.
  - destruct (remove_duplicates all) as [|a articles] eqn:Hdedup.
    + exists [failed_call "No articles found"]. split; [|left; eauto].
      simpl. by rewrite app_nil_r.
    + destruct llm as [e|client].
      { eexists. split; [|right; left; eauto].
        simpl. by rewrite app_nil_r, <- app_assoc. }
      destruct (analyze_articles json_loads client (a :: articles)
                  default_chunk_size).2 as [e|classified].
      * eexists. split; [|right; left; eauto].
        simpl. by rewrite app_nil_r, <- app_assoc.
      * eexists. split; [|right; right; eauto]. simpl. by rewrite app_nil_r.
Qed.

(** A run that makes the [completed] call has built its analyzer, and
    the results of the call are what the analysis returned. *)
Lemma process_news_search_completed json_loads request api llm pre n classified :
  process_news_search json_loads request api llm
  = pre ++ [analyzing_call n; completed_call classified] →
  ∃ client articles,
    llm = inr client
    ∧ (analyze_articles json_loads client articles default_chunk_size).2
      = inr classified.
Proof.
  unfold process_news_search, process_news_search_body, fetch_articles.
  unfold mbind, M_bind, mret, M_ret, call_update_job, lift.
  change (pre ++ [analyzing_call n; completed_call classified])
    with (pre ++ [analyzing_call n] ++ [completed_call classified]).
  rewrite (app_assoc pre).
  destruct (fetch_loop _ _ _ _ _ _) as [cb [e|all]]; cbn [fst].
  - simpl. rewrite app_comm_cons. intros [_ [=]]%app_inj_tail.
  - destruct (remove_duplicates all) as [|a articles].
    + simpl. rewrite app_nil_r, app_comm_cons.
      intros [_ [=]]%app_inj_tail.
    + destruct llm as [e|client].
      { simpl. rewrite app_nil_r.
        change (fetching_call 10 None :: (cb ++ [?c]) ++ [?d])
          with ((fetching_call 10 None :: cb ++ [c]) ++ [d]).
        intros [_ [=]]%app_inj_tail. }
      destruct (analyze_articles json_loads client (a :: articles)
                  default_chunk_size).2 as [e|out] eqn:Hout.
      * simpl. rewrite app_nil_r.
        change (fetching_call 10 None :: (cb ++ [?c]) ++ [?d])
          with ((fetching_call 10 None :: cb ++ [c]) ++ [d]).
        intros [_ [=]]%app_inj_tail.
      * cbn [app]. rewrite app_nil_r.
        change (fetching_call 10 None :: cb ++ [?c; ?d])
          with (fetching_call 10 None :: cb ++ [c] ++ [d]).
        rewrite (app_assoc cb), app_comm_cons.
        intros [_ E]%app_inj_tail. injection E as E. subst out.
        by exists client, (a :: articles).
Qed.

(** *** Running the calls *)

Lemma apply_update_get jm id c now id' :
  get_job (apply_update jm id c now) id'
  = if decide (id = id')
    then (λ job, updated_job job (u_status c) (u_progress c)
                   (u_total_articles c) (u_error c) (u_results c) now)
           <$> get_job jm id
    else get_job jm id'.
Proof. apply update_job_get. Qed.

Lemma exec_updates_app clock k jm id calls1 calls2 :
  exec_updates clock k jm id (calls1 ++ calls2)
  = exec_updates clock (k + length calls1)
      (exec_updates clock k jm id calls1) id calls2.
Proof.
  revert k jm. induction calls1 as [|c calls1 IH]; intros k jm; simpl.
  - by rewrite Nat.add_0_r.
  - rewrite IH. f_equal. lia.
Qed.

Lemma job_after_app clock k job calls1 calls2 :
  job_after clock k job (calls1 ++ calls2)
  = job_after clock (k + length calls1) (job_after clock k job calls1) calls2.
Proof.
  revert k job. induction calls1 as [|c calls1 IH]; intros k job; simpl.
  - by rewrite Nat.add_0_r.
  - rewrite IH. f_equal. lia.
Qed.

Lemma exec_updates_get clock k jm id calls :
  get_job (exec_updates clock k jm id calls) id
  = (λ job, job_after clock k job calls) <$> get_job jm id.
Proof.
  revert k jm. induction calls as [|c calls IH]; intros k jm; simpl.
  - by destruct (get_job jm id).
  - rewrite IH, apply_update_get, decide_True by done.
    by destruct (get_job jm id).
Qed.

Lemma exec_updates_max_jobs clock k jm id calls :
  max_jobs (exec_updates clock k jm id calls) = max_jobs jm.
Proof.
  revert k jm. induction calls as [|c calls IH]; intros k jm; simpl; [done|].
  rewrite IH. apply update_job_max_jobs.
Qed.

(** Only a [completed] call writes to the results directory. *)
Lemma exec_updates_results_dir clock k jm id calls :
  Forall (λ c, u_status c ≠ Some "completed") calls →
  results_dir (exec_updates clock k jm id calls) = results_dir jm.
Proof.
  intros Hcalls. revert k jm.
  induction Hcalls as [|c calls Hc _ IH]; intros k jm; simpl; [done|].
  rewrite IH. unfold apply_update. rewrite update_job_results_dir.
  destruct (get_job jm id); [|done].
  by rewrite bool_decide_eq_false_2.
Qed.

Lemma run_updates_progress clock k jm id calls job :
  get_job jm id = Some job →
  Forall (λ c, is_Some (u_progress c)) calls →
  omap (λ jm, progress <$> get_job jm id) (run_updates clock k jm id calls)
  = omap u_progress calls.
Proof.
  intros Hget Hcalls. revert k jm job Hget.
  induction Hcalls as [|c calls [p Hp] _ IH]; intros k jm job Hget; [done|].
  cbn [run_updates omap list_omap].
  rewrite apply_update_get, decide_True, Hget, Hp by done. cbn.
  f_equal. eapply IH. by rewrite apply_update_get, decide_True, Hget.
Qed.

Lemma run_updates_missing clock k jm id calls (f : JobStatus → Z) :
  get_job jm id = None →
  omap (λ jm, f <$> get_job jm id) (run_updates clock k jm id calls) = [].
Proof.
  intros Hget. revert k jm Hget.
  induction calls as [|c calls IH]; intros k jm Hget; [done|].
  cbn [run_updates omap list_omap].
  assert (get_job (apply_update jm id c (clock k)) id = None) as Hnext
    by by rewrite apply_update_get, decide_True, Hget.
  rewrite Hnext. cbn. by apply IH.
Qed.

(** *** The job right after its creation *)

Lemma delete_job_get jm k id job :
  wf jm →
  get_job (delete_job jm k).1 id = Some job → get_job jm id = Some job.
Proof.
  unfold wf, get_job, delete_job. intros Hwf.
  destruct (odict_get (jobs jm) k) as [old|] eqn:Hk; [|done].
  cbn [fst jobs]. destruct (decide (k = id)) as [->|Hne].
  - by rewrite odict_del_get_eq.
  - by rewrite odict_del_get_ne.
Qed.

Lemma delete_job_wf jm k : wf jm → wf (delete_job jm k).1.
Proof.
  unfold wf, delete_job. intros Hwf.
  destruct (odict_get (jobs jm) k); [|done].
  cbn [fst jobs]. by apply odict_del_NoDup.
Qed.

Lemma create_job_get jm id request now job :
  wf jm →
  get_job (create_job jm id request now) id = Some job →
  job = new_job id request now.
Proof.
  intros Hwf. unfold create_job. cbn [jobs max_jobs].
  set (jm1 := {| jobs := _ |}).
  assert (wf jm1) as Hwf1 by (by apply odict_set_NoDup).
  assert (get_job jm1 id = Some (new_job id request now)) as Hget1
    by apply odict_get_set_eq.
  destruct (_ <? _)%nat; [|congruence].
  unfold cleanup_old_jobs. destruct (_ <=? _)%nat; [congruence|].
  generalize (take (length (jobs jm1) - max_jobs jm1)
                (sort_by_key (λ item : string * JobStatus, created_at item.2)
                   (jobs jm1))).
  intros victims. clearbody jm1. revert jm1 Hwf1 Hget1.
  induction victims as [|v victims IH]; intros jm1 Hwf1 Hget1; simpl;
    [intros; congruence|].
  intros Hfinal.
  destruct (get_job (delete_job jm1 v.1).1 id) as [job1|] eqn:Hdel.
  - apply (IH (delete_job jm1 v.1).1); [by apply delete_job_wf| |done].
    pose proof (delete_job_get _ _ _ _ Hwf1 Hdel). congruence.
  - exfalso. clear IH Hget1.
    assert (∀ jm2, get_job jm2 id = None →
              get_job (foldl (λ jm item, (delete_job jm item.1).1) jm2 victims) id
              = None) as Hgone.
    { clear. induction victims as [|w victims IH]; intros jm2 Hnone; simpl; [done|].
      apply IH. unfold get_job, delete_job in *.
      destruct (odict_get (jobs jm2) w.1) eqn:Hw; [|done].
      cbn [fst jobs]. destruct (decide (w.1 = id)) as [E|Hne].
      - rewrite E in Hw. congruence.
      - by rewrite odict_del_get_ne. }
    rewrite (Hgone _ Hdel) in Hfinal. done.
Qed.

(** *** The progress of a job *)

Lemma is_fetching_call_progress calls :
  Forall is_fetching_call calls → Forall (λ c, is_Some (u_progress c)) calls.
Proof.
  intros Hcalls. eapply Forall_impl; [exact Hcalls|].
  intros c (p & count & ->). by eexists.
Qed.

Lemma progress_values_sorted (ps ts : list Z) :
  StronglySorted Z.le ps →
  Forall (λ p, 10 ≤ p ≤ 40) ps →
  ts = [100] ∨ ts = [50; 100] →
  StronglySorted Z.le (0 :: 10 :: ps ++ ts).
Proof.
  intros Hps Hrange Hts.
  assert (StronglySorted Z.le ts ∧ Forall (λ t, 50 ≤ t ≤ 100) ts) as [Hts1 Hts2].
  { destruct Hts as [->| ->]; split; repeat constructor; lia. }
  assert (StronglySorted Z.le (ps ++ ts)) as Hsorted.
  { apply StronglySorted_app. split_and!; [|done..].
    intros x1 x2 Hx1 Hx2.
    apply (proj1 (Forall_forall _ _) Hrange) in Hx1.
    apply (proj1 (Forall_forall _ _) Hts2) in Hx2. lia. }
  assert (Forall (λ x, 10 ≤ x ≤ 100) (ps ++ ts)) as Hall.
  { apply Forall_app. split; (eapply Forall_impl; [eassumption|]); simpl;
      intros; lia. }
  constructor; [constructor; [done|]|].
  - eapply Forall_impl; [exact Hall|]. simpl. intros; lia.
  - constructor; [lia|]. eapply Forall_impl; [exact Hall|]. simpl. intros; lia.
Qed.

(** C3 (as amended).  When no page of the news API holds more than
    [request.size] articles, the progress of a job never decreases from
    its creation to its terminal state: it is 0 at the creation, 10 when
    the fetch starts, between 10 and 40 and non-decreasing while pages
    come in, 50 when the analysis starts and 100 at the end. *)
Theorem progress_never_decreases (json_loads : string → option json)
    (jm : manager) (id : string) (request : SearchRequest)
    (api : news_api) (llm : analyzer) (clock : nat → Z) :
  wf jm →
  SearchRequest_valid request →
  pages_within_size api request →
  StronglySorted Z.le (progress_trace json_loads jm id request api llm clock)
  ∧ (is_Some (get_job (create_job jm id request (clock O)) id) →
     ∃ fetched tail,
       progress_trace json_loads jm id request api llm clock
       = 0 :: 10 :: fetched ++ tail
       ∧ Forall (λ p, 10 ≤ p ≤ 40) fetched
       ∧ (tail = [100] ∨ tail = [50; 100])).
Proof.
  intros Hwf (_ & _ & _ & Hsize & Hpages) Hapi.
  unfold progress_trace, job_states. cbn [omap list_omap].
  destruct (process_news_search_shape json_loads request api llm)
    as (tail & Hcalls & Htail).
  pose proof (fetch_loop_shape api request (Z.to_nat (req_max_pages request))
                0 VNull []) as Hshape.
  pose proof (fetch_loop_progress api request (Z.to_nat (req_max_pages request))
                0 VNull [] Hsize Hpages Hapi ltac:(simpl; lia) ltac:(lia))
    as [Hsorted Hrange].
  cbv zeta in Hsorted, Hrange.
  set (cb := (fetch_loop api (update_fetch_progress request)
                (Z.to_nat (req_max_pages request)) 0 VNull []).1) in *.
  assert (Forall (λ p, 10 ≤ p ≤ 40) (omap u_progress cb)) as Hrange'.
  { eapply Forall_impl; [exact Hrange|]. simpl. intros p [H1 H2].
    split; [|done]. etrans; [|exact H1].
    assert (0 ≤ 30 * Z.of_nat 0 / (req_size request * req_max_pages request))
      by (apply Z.div_pos; nia).
    lia. }
  assert (omap u_progress tail = [100] ∨ omap u_progress tail = [50; 100])
    as Htail'.
  { destruct Htail as [[e ->]|[(n & e & ->)|(n & cl & ->)]];
      [by left|by right..]. }
  assert (Forall (λ c, is_Some (u_progress c))
            (process_news_search json_loads request api llm)) as Hsome.
  { rewrite Hcalls. constructor; [by eexists|].
    apply Forall_app. split; [by apply is_fetching_call_progress|].
    destruct Htail as [[e ->]|[(n & e & ->)|(n & cl & ->)]];
      repeat constructor; by eexists. }
  destruct (get_job (create_job jm id request (clock O)) id) as [job|] eqn:Hjob;
    cbn [fmap option_fmap option_map].
  - apply create_job_get in Hjob as Hnew; [|done]. subst job.
    rewrite (run_updates_progress _ _ _ _ _ _ Hjob Hsome), Hcalls.
    cbn [omap list_omap u_progress fetching_call new_job progress].
    rewrite omap_app. split.
    + by apply progress_values_sorted.
    + intros _. by exists (omap u_progress cb), (omap u_progress tail).
  - rewrite run_updates_missing by done.
    split; [constructor|]. by intros [? ?].
Qed.

(** A run of the pipeline on a fresh manager, with one page of one article. *)
Lemma progress_never_decreases_witness :
  wf Examples.fresh_manager
  ∧ SearchRequest_valid Examples.request
  ∧ pages_within_size Examples.one_page Examples.request
  ∧ StronglySorted Z.le
      (progress_trace (Examples.json_loads_of Examples.json_classified)
         Examples.fresh_manager "job-1" Examples.request Examples.one_page
         (inr Examples.classifier) Examples.ticks).
Proof.
  assert (wf Examples.fresh_manager) as Hwf by constructor.
  assert (SearchRequest_valid Examples.request) as Hvalid.
  { unfold SearchRequest_valid. simpl. split_and!; (lia || done). }
  assert (pages_within_size Examples.one_page Examples.request) as Hpages.
  { intros k cursor results next [= <- _]. simpl. lia. }
  split_and!; [exact Hwf|exact Hvalid|exact Hpages|].
  exact (proj1 (progress_never_decreases _ _ "job-1" _ _ (inr Examples.classifier)
                  Examples.ticks Hwf Hvalid Hpages)).
Defined.

(** C3, as the specification words it, fails: nothing bounds the number
    of articles of a page.  One page of two articles, with [size] and
    [max_pages] both 1, brings the progress to 70 before the analysis
    sets it back to 50. *)
Lemma progress_decreases_on_oversized_page :
  SearchRequest_valid Examples.request
  ∧ progress_trace (Examples.json_loads_of Examples.json_table)
      Examples.fresh_manager "job-1" Examples.request Examples.oversized_page
      (inr Examples.prose) Examples.ticks
    = [0; 10; 70; 50; 100].
Proof.
  split.
  - unfold SearchRequest_valid. simpl. split_and!; (lia || done).
  - vm_compute. reflexivity.
Qed.

(** *** The terminal states *)

Lemma job_after_fetching clock k job calls :
  Forall is_fetching_call calls →
  error (job_after clock k job calls) = error job
  ∧ results (job_after clock k job calls) = results job.
Proof.
  intros Hcalls. revert k job.
  induction Hcalls as [|c calls (p & count & ->) _ IH]; intros k job; [done|].
  cbn [job_after]. by destruct (IH (S k) (updated_job job
    (u_status (fetching_call p count)) (u_progress (fetching_call p count))
    (u_total_articles (fetching_call p count))
    (u_error (fetching_call p count)) (u_results (fetching_call p count))
    (clock k))) as [-> ->].
Qed.

Lemma is_fetching_call_not_completed calls :
  Forall is_fetching_call calls →
  Forall (λ c, u_status c ≠ Some "completed") calls.
Proof.
  intros Hcalls. eapply Forall_impl; [exact Hcalls|].
  by intros c (p & count & ->).
Qed.

(** The last call decides the final status; the final record and the
    results directory follow from the tail of the run. *)
Lemma final_state_failed clock jm0 id pre e job0 :
  Forall is_fetching_call pre →
  get_job jm0 id = Some job0 →
  let jm' := exec_updates clock 1 jm0 id (pre ++ [failed_call e]) in
  ∃ job, get_job jm' id = Some job
    ∧ status job = "failed"
    ∧ progress job = 100
    ∧ error job = (if String.eqb e "" then error job0 else Some e)
    ∧ results job = results job0
    ∧ results_dir jm' = results_dir jm0.
Proof.
  intros Hpre Hget. cbv zeta. eexists. split_and!.
  - by rewrite exec_updates_get, Hget.
  - by rewrite job_after_app.
  - by rewrite job_after_app.
  - rewrite job_after_app. cbn.
    destruct (job_after_fetching clock 1 job0 pre Hpre) as [-> _].
    by destruct (String.eqb e "").
  - rewrite job_after_app. cbn.
    by destruct (job_after_fetching clock 1 job0 pre Hpre) as [_ ->].
  - apply exec_updates_results_dir, Forall_app. split.
    + by apply is_fetching_call_not_completed.
    + by repeat constructor.
Qed.

Lemma final_state_failed_analysis clock jm0 id pre n e job0 :
  Forall is_fetching_call pre →
  get_job jm0 id = Some job0 →
  let jm' := exec_updates clock 1 jm0 id
               (pre ++ [analyzing_call n; failed_call e]) in
  ∃ job, get_job jm' id = Some job
    ∧ status job = "failed"
    ∧ progress job = 100
    ∧ total_articles job = Some n
    ∧ error job = (if String.eqb e "" then error job0 else Some e)
    ∧ results job = results job0
    ∧ results_dir jm' = results_dir jm0.
Proof.
  intros Hpre Hget. cbv zeta. eexists. split_and!.
  - by rewrite exec_updates_get, Hget.
  - by rewrite job_after_app.
  - by rewrite job_after_app.
  - by rewrite job_after_app.
  - rewrite job_after_app. cbn.
    destruct (job_after_fetching clock 1 job0 pre Hpre) as [-> _].
    by destruct (String.eqb e "").
  - rewrite job_after_app. cbn.
    by destruct (job_after_fetching clock 1 job0 pre Hpre) as [_ ->].
  - apply exec_updates_results_dir, Forall_app. split.
    + by apply is_fetching_call_not_completed.
    + by repeat constructor.
Qed.

Lemma final_state_completed clock jm0 id pre n classified job0 :
  Forall is_fetching_call pre →
  get_job jm0 id = Some job0 →
  let jm' := exec_updates clock 1 jm0 id
               (pre ++ [analyzing_call n; completed_call classified]) in
  let now := clock (S (S (length pre))) in
  ∃ job, get_job jm' id = Some job
    ∧ status job = "completed"
    ∧ progress job = 100
    ∧ results job = Some classified
    ∧ total_articles job = Some (Z.of_nat (length classified))
    ∧ query job = query job0
    ∧ results_dir jm'
      = match classified with
        | [] => results_dir jm0
        | _ :: _ =>
            <[ result_file id "json" :=
                 {| mtime := now;
                    content := JsonObject
                      {| snap_job_id := id;
                         snap_query := Some (query job0);
                         snap_timestamp := now;
                         snap_total_articles :=
                           Some (Z.of_nat (length classified));
                         snap_articles := Some classified |} |} ]>
              (results_dir jm0)
        end.
Proof.
  intros Hpre Hget. cbv zeta. eexists. split_and!.
  - by rewrite exec_updates_get, Hget.
  - by rewrite job_after_app.
  - by rewrite job_after_app.
  - by rewrite job_after_app.
  - by rewrite job_after_app.
  - rewrite job_after_app. cbn. clear.
    revert job0. generalize 1%nat.
    induction pre as [|c pre IH]; intros k job0; [done|].
    cbn [job_after]. by rewrite IH.
  - rewrite exec_updates_app. cbn [exec_updates].
    set (jm1 := exec_updates clock 1 jm0 id pre).
    assert (results_dir jm1 = results_dir jm0) as Hdir
      by by apply exec_updates_results_dir, is_fetching_call_not_completed.
    assert (∃ job1, get_job jm1 id = Some job1 ∧ query job1 = query job0)
      as (job1 & Hget1 & Hquery).
    { eexists. split; [by unfold jm1; rewrite exec_updates_get, Hget|].
      simpl. clear. revert job0. generalize 1%nat.
      induction pre as [|c pre IH]; intros k job0; [done|].
      cbn [job_after]. by rewrite IH. }
    unfold apply_update at 1. rewrite update_job_results_dir.
    rewrite apply_update_get, decide_True, Hget1 by done.
    unfold apply_update. rewrite update_job_results_dir, Hget1.
    cbn [fmap option_fmap option_map u_status u_results completed_call
         analyzing_call updated_job query].
    rewrite Hdir, Hquery.
    replace (1 + length pre)%nat with (S (length pre)) by lia.
    by destruct classified.
Qed.

(** C2 (as amended).  A job that the pipeline brings to [completed] has a
    results sequence, of the length its [total_articles] says.  When that
    sequence is not empty, the results directory holds the snapshot
    [<job id>.json] with the same articles and their number as
    [total_articles]; when the analyzer produced no article, no snapshot
    is written. *)
Theorem completed_job_snapshot (json_loads : string → option json)
    (jm : manager) (id : string) (request : SearchRequest)
    (api : news_api) (llm : analyzer) (clock : nat → Z) (job : JobStatus) :
  let jm0 := create_job jm id request (clock O) in
  let jm' := final_state json_loads jm id request api llm clock in
  get_job jm' id = Some job →
  status job = "completed" →
  ∃ classified,
    results job = Some classified
    ∧ total_articles job = Some (Z.of_nat (length classified))
    ∧ progress job = 100
    ∧ (classified ≠ [] →
       ∃ f data,
         results_dir jm' !! result_file id "json" = Some f
         ∧ content f = JsonObject data
         ∧ snap_job_id data = id
         ∧ snap_total_articles data = Some (Z.of_nat (length classified))
         ∧ snap_articles data = Some classified)
    ∧ (classified = [] → results_dir jm' = results_dir jm0).
Proof.
  cbv zeta. unfold final_state. intros Hjob Hstatus.
  destruct (process_news_search_shape json_loads request api llm)
    as (tail & Hcalls & Htail).
  pose proof (fetch_loop_shape api request (Z.to_nat (req_max_pages request))
                0 VNull []) as Hshape.
  set (cb := (fetch_loop api (update_fetch_progress request)
                (Z.to_nat (req_max_pages request)) 0 VNull []).1) in *.
  assert (Forall is_fetching_call (fetching_call 10 None :: cb)) as Hpre
    by (constructor; [by eexists _, _|done]).
  rewrite Hcalls, app_comm_cons in Hjob |- *.
  destruct (get_job (create_job jm id request (clock O)) id) as [job0|] eqn:Hget0.
  2: { by rewrite exec_updates_get, Hget0 in Hjob. }
  destruct Htail as [[e ->]|[(n & e & ->)|(n & classified & ->)]].
  - destruct (final_state_failed clock _ id _ e job0 Hpre Hget0)
      as (job' & Hjob' & Hfailed & _).
    rewrite Hjob in Hjob'. injection Hjob' as <-. congruence.
  - destruct (final_state_failed_analysis clock _ id _ n e job0 Hpre Hget0)
      as (job' & Hjob' & Hfailed & _).
    rewrite Hjob in Hjob'. injection Hjob' as <-. congruence.
  - destruct (final_state_completed clock _ id _ n classified job0 Hpre Hget0)
      as (job' & Hjob' & _ & Hprogress & Hresults & Htotal & _ & Hdir).
    rewrite Hjob in Hjob'. injection Hjob' as <-.
    exists classified. split_and!; try done.
    + intros Hne. rewrite Hdir. destruct classified as [|a rest]; [done|].
      rewrite lookup_insert_eq. by eexists _, _.
    + intros ->. by rewrite Hdir.
Qed.

(** A run that ends [completed] with one classified article: its
    snapshot is on disk. *)
Lemma completed_job_snapshot_witness :
  get_job
    (final_state (Examples.json_loads_of Examples.json_classified)
       Examples.fresh_manager "job-1" Examples.request Examples.one_page
       (inr Examples.classifier) Examples.ticks) "job-1"
  = Some {| job_id := "job-1"; status := "completed"; progress := 100;
            created_at := 1000; updated_at := 1004; query := "solar power";
            total_articles := Some 1; error := None;
            results := Some Examples.classified_one |}
  ∧ ∃ f data,
      results_dir
        (final_state (Examples.json_loads_of Examples.json_classified)
           Examples.fresh_manager "job-1" Examples.request Examples.one_page
           (inr Examples.classifier) Examples.ticks) !! result_file "job-1" "json"
      = Some f
      ∧ content f = JsonObject data
      ∧ snap_total_articles data = Some 1.
Proof.
  assert (get_job
            (final_state (Examples.json_loads_of Examples.json_classified)
               Examples.fresh_manager "job-1" Examples.request Examples.one_page
               (inr Examples.classifier) Examples.ticks) "job-1"
          = Some {| job_id := "job-1"; status := "completed"; progress := 100;
                    created_at := 1000; updated_at := 1004;
                    query := "solar power"; total_articles := Some 1;
                    error := None;
                    results := Some Examples.classified_one |}) as Hget
    by (vm_compute; reflexivity).
  split; [exact Hget|].
  destruct (completed_job_snapshot _ _ _ _ _ _ _ _ Hget eq_refl)
    as (classified & Hresults & _ & _ & Hfile & _).
  injection Hresults as <-.
  destruct (Hfile ltac:(discriminate)) as (f & data & Hf & Hcontent & _ & Htotal & _).
  by exists f, data.
Defined.

(** C2, as the specification words it, fails: a run in which the
    analyzer classifies nothing ends [completed] with an empty results
    sequence, and no snapshot is written. *)
Lemma completed_job_without_snapshot :
  get_job
    (final_state (Examples.json_loads_of Examples.json_table)
       Examples.fresh_manager "job-1" Examples.request Examples.one_page
       (inr Examples.prose) Examples.ticks) "job-1"
  = Some {| job_id := "job-1"; status := "completed"; progress := 100;
            created_at := 1000; updated_at := 1004; query := "solar power";
            total_articles := Some 0; error := None; results := Some [] |}
  ∧ results_dir
      (final_state (Examples.json_loads_of Examples.json_table)
         Examples.fresh_manager "job-1" Examples.request Examples.one_page
         (inr Examples.prose) Examples.ticks) !! result_file "job-1" "json"
    = None.
Proof. split; vm_compute; reflexivity. Qed.

(** A job that ends [failed] has progress 100 and no results, the run
    wrote no snapshot, and its error is the message of the failure,
    unless that message is empty: then the error stays [None]. *)
Lemma failed_job_state (json_loads : string → option json)
    (jm : manager) (id : string) (request : SearchRequest)
    (api : news_api) (llm : analyzer) (clock : nat → Z) (job : JobStatus) :
  wf jm →
  get_job (final_state json_loads jm id request api llm clock) id = Some job →
  status job = "failed" →
  progress job = 100
  ∧ results job = None
  ∧ results_dir (final_state json_loads jm id request api llm clock)
    = results_dir (create_job jm id request (clock O))
  ∧ ∃ e, last (process_news_search json_loads request api llm)
         = Some (failed_call e)
         ∧ error job = if String.eqb e "" then None else Some e.
Proof.
  unfold final_state. intros Hwf Hjob Hstatus.
  destruct (process_news_search_shape json_loads request api llm)
    as (tail & Hcalls & Htail).
  pose proof (fetch_loop_shape api request (Z.to_nat (req_max_pages request))
                0 VNull []) as Hshape.
  set (cb := (fetch_loop api (update_fetch_progress request)
                (Z.to_nat (req_max_pages request)) 0 VNull []).1) in *.
  assert (Forall is_fetching_call (fetching_call 10 None :: cb)) as Hpre
    by (constructor; [by eexists _, _|done]).
  rewrite Hcalls, app_comm_cons in Hjob |- *.
  destruct (get_job (create_job jm id request (clock O)) id) as [job0|] eqn:Hget0.
  2: { by rewrite exec_updates_get, Hget0 in Hjob. }
  apply create_job_get in Hget0 as Hnew; [|done]. subst job0.
  destruct Htail as [[e ->]|[(n & e & ->)|(n & classified & ->)]].
  - destruct (final_state_failed clock _ id _ e _ Hpre Hget0)
      as (job' & Hjob' & _ & Hprogress & Herror & Hresults & Hdir).
    rewrite Hjob in Hjob'. injection Hjob' as <-.
    split_and!; try done.
    exists e. split; [by rewrite last_snoc|done].
  - destruct (final_state_failed_analysis clock _ id _ n e _ Hpre Hget0)
      as (job' & Hjob' & _ & Hprogress & _ & Herror & Hresults & Hdir).
    rewrite Hjob in Hjob'. injection Hjob' as <-.
    split_and!; try done.
    exists e. split; [|done].
    change [analyzing_call n; failed_call e]
      with ([analyzing_call n] ++ [failed_call e]).
    by rewrite app_assoc, last_snoc.
  - destruct (final_state_completed clock _ id _ n classified _ Hpre Hget0)
      as (job' & Hjob' & Hcompleted & _).
    rewrite Hjob in Hjob'. injection Hjob' as <-. congruence.
Qed.

(** When the fetcher returns no article, the pipeline makes the [failed] call
    with the message "No articles found" right after the fetch phase. *)
Lemma no_articles_found json_loads request api llm :
  (fetch_articles api (req_size request) (req_max_pages request)
     (update_fetch_progress request)).2 = inr [] →
  process_news_search json_loads request api llm
  = fetching_call 10 None
    :: (fetch_articles api (req_size request) (req_max_pages request)
          (update_fetch_progress request)).1
    ++ [failed_call "No articles found"].
Proof.
  unfold process_news_search, process_news_search_body.
  unfold mbind at 1 2, M_bind at 1 2, call_update_job.
  destruct (fetch_articles _ _ _ _) as [calls [e|articles]]; cbn [fst snd];
    [done|].
  by intros [= ->].
Qed.

Example no_articles_found_trace :
  status_trace (Examples.json_loads_of Examples.json_table)
    Examples.fresh_manager "job-1" Examples.request Examples.no_results
    (inr Examples.prose) Examples.ticks
  = ["created"; "fetching"; "failed"]
  ∧ get_job
      (final_state (Examples.json_loads_of Examples.json_table)
         Examples.fresh_manager "job-1" Examples.request Examples.no_results
         (inr Examples.prose) Examples.ticks) "job-1"
    = Some {| job_id := "job-1"; status := "failed"; progress := 100;
              created_at := 1000; updated_at := 1002; query := "solar power";
              total_articles := None; error := Some "No articles found";
              results := None |}.
Proof. split; vm_compute; reflexivity. Qed.

(** C7 fails on the code.  A request to the news API that times out
    raises an exception whose message is empty; the pipeline passes it as
    [error] to [update_job], which takes the empty string for no argument:
    the job ends [failed], at progress 100, with no error message. *)
Theorem failed_job_without_error :
  status_trace (Examples.json_loads_of Examples.json_table)
    Examples.fresh_manager "job-1" Examples.request Examples.timeout
    (inr Examples.prose) Examples.ticks
  = ["created"; "fetching"; "failed"]
  ∧ get_job
      (final_state (Examples.json_loads_of Examples.json_table)
         Examples.fresh_manager "job-1" Examples.request Examples.timeout
         (inr Examples.prose) Examples.ticks) "job-1"
    = Some {| job_id := "job-1"; status := "failed"; progress := 100;
              created_at := 1000; updated_at := 1002; query := "solar power";
              total_articles := None; error := None; results := None |}.
Proof. split; vm_compute; reflexivity. Qed.

(** C5 fails on the code.  The loop of [analyze_articles] contains the
    failure of a chunk: when the request for the second of two chunks
    raises, the analysis returns the article classified from the first
    chunk.  But when the completion for the second chunk is a single
    JSON object instead of an array, [_extract_json] returns the parsed
    object, the loop extends the collected list by its key, and the
    sort that follows the loop, outside every [try], raises on it: the
    whole analysis is aborted, the article classified from the first
    chunk is lost, and a job whose only chunk is answered that way ends
    [failed]. *)
Theorem chunk_failure_aborts_analysis :
  analyze_articles (Examples.json_loads_of Examples.json_mixed)
    Examples.second_raises Examples.two_articles 1
  = ([[Examples.linked "https://news.example/1"];
      [Examples.linked "https://news.example/2"]],
     inr Examples.classified_one)
  ∧ analyze_articles (Examples.json_loads_of Examples.json_mixed)
      Examples.second_object Examples.two_articles 1
    = ([[Examples.linked "https://news.example/1"];
        [Examples.linked "https://news.example/2"]],
       inl "'str' object has no attribute 'get'")
  ∧ collected (Examples.json_loads_of Examples.json_mixed)
      Examples.second_object Examples.two_articles 1
    = Examples.classified_one ++ [JString "relevance"]
  ∧ status_trace (Examples.json_loads_of Examples.json_object)
      Examples.fresh_manager "job-1" Examples.request Examples.one_page
      (inr Examples.single_object) Examples.ticks
    = ["created"; "fetching"; "fetching"; "analyzing"; "failed"]
  ∧ get_job
      (final_state (Examples.json_loads_of Examples.json_object)
         Examples.fresh_manager "job-1" Examples.request Examples.one_page
         (inr Examples.single_object) Examples.ticks) "job-1"
    = Some {| job_id := "job-1"; status := "failed"; progress := 100;
              created_at := 1000; updated_at := 1004; query := "solar power";
              total_articles := Some 1;
              error := Some "'str' object has no attribute 'get'";
              results := None |}.
Proof. split_and!; vm_compute; reflexivity. Qed.

End MainFacts.

(** * Further properties *)

(** ** [_extract_json]: what the regular expression matches *)

Section drop_while_facts.
Context {A : Type} (p : A → bool).

Lemma drop_while_split (l : list A) :
  ∃ pre, l = pre ++ drop_while p l
         ∧ Forall (λ x, p x = true) pre
         ∧ (∀ x, head (drop_while p l) = Some x → p x = false).
Proof.
  induction l as [|x l (pre & Hl & Hpre & Hhead)]; simpl.
  - exists []. by split_and!.
  - destruct (p x) eqn:Hx.
    + exists (x :: pre). split_and!; [by rewrite <- app_comm_cons, <- Hl| |done].
      by constructor.
    + exists []. split_and!; [done|done|]. simpl. by intros ? [= <-].
Qed.

Lemma drop_while_end_split (l : list A) :
  ∃ post, l = drop_while_end p l ++ post
          ∧ Forall (λ x, p x = true) post
          ∧ (∀ x, last (drop_while_end p l) = Some x → p x = false).
Proof.
  unfold drop_while_end.
  destruct (drop_while_split (reverse l)) as (pre & Hl & Hpre & Hhead).
  exists (reverse pre). split_and!.
  - rewrite <- reverse_app, <- Hl. by rewrite reverse_involutive.
  - by apply Forall_reverse.
  - intros x. rewrite last_reverse. apply Hhead.
Qed.
End drop_while_facts.

Module ExtractJsonFacts.
Import AIAnalyzer.

Lemma not_open_bracket (c : ascii) :
  negb (Ascii.eqb c "[") = true ↔ c ≠ "["%char.
Proof. rewrite negb_true_iff. apply Ascii.eqb_neq. Qed.

Lemma not_close_bracket (c : ascii) :
  negb (Ascii.eqb c "]") = true ↔ c ≠ "]"%char.
Proof. rewrite negb_true_iff. apply Ascii.eqb_neq. Qed.

(** X1.  The text [_extract_json] parses when the completion holds an
    opening bracket with a closing bracket after it runs from the first
    opening bracket of the completion to its last closing bracket (the
    star of the pattern is greedy and its dot matches line ends);
    without such a pair there is no match and the whole completion is
    parsed. *)
Theorem search_json_array_first_to_last (text : string) :
  match search_json_array text with
  | Some json_str =>
      ∃ pre body post,
        list_ascii_of_string text
        = pre ++ "["%char :: body ++ "]"%char :: post
        ∧ ("["%char ∉ pre)
        ∧ ("]"%char ∉ post)
        ∧ json_str = string_of_list_ascii ("["%char :: body ++ ["]"%char])
  | None =>
      (∀ pre body post,
         list_ascii_of_string text
         ≠ pre ++ "["%char :: body ++ "]"%char :: post)
      ∧ json_text text = text
  end.
Proof.
  unfold json_text, search_json_array.
  destruct (drop_while_split (λ c, negb (Ascii.eqb c "["))
              (list_ascii_of_string text)) as (pre & Hpre & Hnone & Hopen).
  set (from_open := drop_while _ (list_ascii_of_string text)) in *.
  destruct (drop_while_end_split (λ c, negb (Ascii.eqb c "]")) from_open)
    as (post & Hpost & Hnoclose & Hclose).
  set (upto := drop_while_end _ from_open) in *.
  assert ("["%char ∉ pre) as Hpre_open.
  { intros Hin. apply (proj1 (Forall_forall _ _) Hnone) in Hin.
    by apply not_open_bracket in Hin. }
  assert ("]"%char ∉ post) as Hpost_close.
  { intros Hin. apply (proj1 (Forall_forall _ _) Hnoclose) in Hin.
    by apply not_close_bracket in Hin. }
  destruct upto as [|c upto'] eqn:Hupto.
  - split; [|done]. simpl in Hpost. intros pre' body post' Heq.
    rewrite Hpre, Hpost in Heq.
    apply Hpost_close.
    apply app_eq_inv in Heq as [(k & Hp & Hk)|(k & Hp & Hk)].
    + destruct k as [|c k]; simpl in Hk.
      * rewrite <- Hk. apply elem_of_cons. right. apply elem_of_app. right.
        apply elem_of_cons. by left.
      * injection Hk as <- Hk. exfalso. apply Hpre_open. rewrite Hp.
        apply elem_of_app. right. apply elem_of_cons. by left.
    + rewrite Hk. apply elem_of_app. right.
      apply elem_of_cons. right. apply elem_of_app. right.
      apply elem_of_cons. by left.
  - assert (c = "["%char) as ->.
    { specialize (Hopen c). rewrite Hpost in Hopen.
      specialize (Hopen eq_refl).
      apply negb_false_iff, Ascii.eqb_eq in Hopen. done. }
    assert (∃ body, upto' = body ++ ["]"%char]) as [body ->].
    { destruct (last ("["%char :: upto')) as [y|] eqn:Hlast;
        [|by apply last_None in Hlast].
      pose proof (Hclose y eq_refl) as Hy.
      apply negb_false_iff, Ascii.eqb_eq in Hy. subst y.
      destruct upto' as [|c' upto'']; [by injection Hlast|].
      rewrite last_cons_cons in Hlast.
      apply last_Some in Hlast as [body ->]. by exists body. }
    exists pre, body, post. split_and!; try done.
    rewrite Hpre, Hpost. simpl. by rewrite <- app_assoc.
Qed.

End ExtractJsonFacts.


(** ** [fetch_articles]: the requests it sends *)

Module FetchFacts.
Import NewsFetcher Pagination.

Lemma fetch_loop_requests api api' cb remaining page_count all_articles :
  (∀ j, (j < page_count)%nat → continues (api j (cursor_at api j)) = true) →
  (∀ k, (k < page_count + remaining)%nat →
        (∀ j, (j < k)%nat → continues (api j (cursor_at api j)) = true) →
        api' k (cursor_at api k) = api k (cursor_at api k)) →
  fetch_loop api cb remaining page_count (cursor_at api page_count) all_articles
  = fetch_loop api' cb remaining page_count (cursor_at api page_count)
      all_articles.
Proof.
  revert page_count all_articles.
  induction remaining as [|remaining IH]; intros pc all Hreached Hagree;
    [done|].
  cbn [fetch_loop]. rewrite (Hagree pc) by (lia || done).
  destruct (api pc (cursor_at api pc))
    as [msg|code|message|[|a results] nextPage] eqn:Hresponse; try done.
  destruct (truthy nextPage) eqn:Hnext; [|done].
  unfold mbind, M_bind. destruct (cb _) as [calls [e|[]]]; [done|].
  assert (cursor_at api (S pc) = nextPage) as Hcursor
    by (simpl; by rewrite Hresponse).
  rewrite <- Hcursor. rewrite IH; [done| |].
  - intros j Hj. destruct (decide (j = pc)) as [->|Hne].
    + by rewrite Hresponse.
    + apply Hreached. lia.
  - intros k Hk. apply Hagree. lia.
Qed.

(** X2.  The requests [fetch_articles] sends: the request number [k] is
    sent only when [k < max_pages] and every response before it held
    articles and named a next page, and it is sent with the [nextPage] of
    the response before it (with none for the first).  What the news API
    would answer to any other request has no bearing on the outcome, be
    it the articles returned, the exception raised or the progress
    reported. *)
Theorem fetch_articles_requests (api api' : news_api) (size max_pages : Z)
    (progress_callback : Z → M unit) :
  (∀ k, (k < Z.to_nat max_pages)%nat →
        (∀ j, (j < k)%nat → continues (api j (cursor_at api j)) = true) →
        api' k (cursor_at api k) = api k (cursor_at api k)) →
  fetch_articles api size max_pages progress_callback
  = fetch_articles api' size max_pages progress_callback.
Proof.
  intros Hagree. unfold fetch_articles.
  change VNull with (cursor_at api 0).
  rewrite (fetch_loop_requests api api'); [done| |done].
  intros j Hj. lia.
Qed.

(** The first page names no next page: the second request, which would
    time out, is never sent. *)
Lemma fetch_articles_requests_witness :
  fetch_articles Examples.one_page 1 3 (λ _, mret tt)
  = fetch_articles
      (λ k v, match k with
              | O => Examples.one_page k v
              | S _ => Examples.timeout k v
              end)
      1 3 (λ _, mret tt).
Proof.
  apply fetch_articles_requests.
  intros k Hk Hreached. destruct k; [reflexivity|].
  specialize (Hreached O ltac:(lia)). discriminate Hreached.
Defined.

Lemma fetch_loop_outcome api cb remaining page_count all_articles k :
  (∀ n, (cb n).2 = inr tt) →
  (∀ j, (page_count ≤ j < k)%nat →
        continues (api j (cursor_at api j)) = true) →
  (page_count ≤ k < page_count + remaining)%nat →
  continues (api k (cursor_at api k)) = false →
  (fetch_loop api cb remaining page_count (cursor_at api page_count)
     all_articles).2
  = match api k (cursor_at api k) with
    | TransportError msg => inl msg
    | HttpStatusError code => inl ("HTTP " +:+ pretty code)
    | ApiError message =>
        inl ("API error: " +:+ default "Unknown error" message)
    | Page _ _ =>
        inr (all_articles
             ++ concat (page_at api <$> seq page_count (S k - page_count)))
    end.
Proof.
  intros Hcb. revert page_count all_articles.
  induction remaining as [|remaining IH]; intros pc all Hbefore Hk Hstop;
    [lia|].
  cbn [fetch_loop].
  destruct (decide (pc = k)) as [->|Hne].
  - replace (S k - k)%nat with 1%nat by lia.
    cbn [seq fmap list_fmap concat]. unfold page_at.
    destruct (api k (cursor_at api k))
      as [msg|code|message|[|a results] nextPage]; try done.
    + by rewrite !app_nil_r.
    + simpl in Hstop. rewrite Hstop. unfold mbind, M_bind.
      specialize (Hcb (Z.of_nat (length (all ++ a :: results)))).
      destruct (cb _) as [calls [e|[]]]; [done|].
      simpl. by rewrite app_nil_r.
  - pose proof (Hbefore pc ltac:(lia)) as Hgo.
    destruct (api pc (cursor_at api pc))
      as [msg|code|message|[|a results] nextPage] eqn:Hresponse; try done.
    simpl in Hgo. rewrite Hgo. unfold mbind, M_bind.
    specialize (Hcb (Z.of_nat (length (all ++ a :: results)))).
    destruct (cb _) as [calls [e|[]]]; [done|].
    assert (cursor_at api (S pc) = nextPage) as Hcursor
      by (simpl; by rewrite Hresponse).
    rewrite <- Hcursor.
    specialize (IH (S pc) (all ++ a :: results)
                  ltac:(intros; apply Hbefore; lia) ltac:(lia) Hstop).
    destruct (fetch_loop _ _ _ _ _ _) as [calls' r]. simpl in *.
    rewrite IH. destruct (api k (cursor_at api k)); try done.
    replace (S k - pc)%nat with (S (k - pc)) by lia.
    cbn [seq fmap list_fmap concat].
    unfold page_at at 2. rewrite Hresponse.
    by rewrite <- !app_assoc.
Qed.

Lemma fetch_loop_exhausted api cb remaining page_count all_articles :
  (∀ n, (cb n).2 = inr tt) →
  (∀ j, (page_count ≤ j < page_count + remaining)%nat →
        continues (api j (cursor_at api j)) = true) →
  (fetch_loop api cb remaining page_count (cursor_at api page_count)
     all_articles).2
  = inr (all_articles ++ concat (page_at api <$> seq page_count remaining)).
Proof.
  intros Hcb. revert page_count all_articles.
  induction remaining as [|remaining IH]; intros pc all Hall.
  { simpl. by rewrite app_nil_r. }
  cbn [fetch_loop].
  pose proof (Hall pc ltac:(lia)) as Hgo.
  destruct (api pc (cursor_at api pc))
    as [msg|code|message|[|a results] nextPage] eqn:Hresponse; try done.
  simpl in Hgo. rewrite Hgo. unfold mbind, M_bind.
  specialize (Hcb (Z.of_nat (length (all ++ a :: results)))).
  destruct (cb _) as [calls [e|[]]]; [done|].
  assert (cursor_at api (S pc) = nextPage) as Hcursor
    by (simpl; by rewrite Hresponse).
  rewrite <- Hcursor.
  specialize (IH (S pc) (all ++ a :: results)
                ltac:(intros; apply Hall; lia)).
  destruct (fetch_loop _ _ _ _ _ _) as [calls' r]. simpl in *.
  rewrite IH. cbn [seq fmap list_fmap concat].
  unfold page_at at 2. rewrite Hresponse.
  by rewrite <- !app_assoc.
Qed.

(** X3.  What [fetch_articles] comes to, with a callback that does
    not raise.  The first response that does not hold articles together
    with a next page decides, if it is among the first [max_pages]: a
    transport error is raised again with its message, an HTTP status
    error as [HTTP <code>], an error reported in the body as
    [API error: <message>] (or [Unknown error]), and all articles
    fetched before are lost; a page, empty or without a next page, ends
    the loop and the articles of all the pages up to it are returned,
    deduplicated.  When all of the first [max_pages] responses hold
    articles and a next page, the articles of these pages are
    returned. *)
Theorem fetch_articles_outcome (api : news_api) (size max_pages : Z)
    (progress_callback : Z → M unit) :
  (∀ n, (progress_callback n).2 = inr tt) →
  let outcome := (fetch_articles api size max_pages progress_callback).2 in
  let fetched n := remove_duplicates (concat (page_at api <$> seq 0 n)) in
  (∀ k, (k < Z.to_nat max_pages)%nat →
        (∀ j, (j < k)%nat → continues (api j (cursor_at api j)) = true) →
        continues (api k (cursor_at api k)) = false →
        outcome
        = match api k (cursor_at api k) with
          | TransportError msg => inl msg
          | HttpStatusError code => inl ("HTTP " +:+ pretty code)
          | ApiError message =>
              inl ("API error: " +:+ default "Unknown error" message)
          | Page _ _ => inr (fetched (S k))
          end)
  ∧ ((∀ j, (j < Z.to_nat max_pages)%nat →
           continues (api j (cursor_at api j)) = true) →
     outcome = inr (fetched (Z.to_nat max_pages))).
Proof.
  intros Hcb. cbv zeta. unfold fetch_articles.
  change VNull with (cursor_at api 0). split.
  - intros k Hk Hbefore Hstop.
    pose proof (fetch_loop_outcome api progress_callback
                  (Z.to_nat max_pages) 0 [] k Hcb
                  ltac:(intros; apply Hbefore; lia) ltac:(lia) Hstop)
      as Houtcome.
    unfold mbind, M_bind.
    destruct (fetch_loop _ _ _ _ _ _) as [calls r]. simpl in *. subst r.
    by destruct (api k (cursor_at api k)).
  - intros Hall.
    pose proof (fetch_loop_exhausted api progress_callback
                  (Z.to_nat max_pages) 0 [] Hcb
                  ltac:(intros; apply Hall; lia)) as Houtcome.
    unfold mbind, M_bind.
    destruct (fetch_loop _ _ _ _ _ _) as [calls r]. simpl in *. by subst r.
Qed.

Lemma fetch_articles_outcome_witness :
  (fetch_articles Examples.one_page 1 3 (λ _, mret tt)).2
  = inr (remove_duplicates (concat (page_at Examples.one_page <$> seq 0 1))).
Proof.
  assert (∀ n : Z, ((λ _ : Z, mret tt : M unit) n).2 = inr tt) as Hcb
    by reflexivity.
  apply (proj1 (fetch_articles_outcome Examples.one_page 1 3 _ Hcb) O).
  - simpl. lia.
  - intros j Hj. lia.
  - reflexivity.
Defined.

End FetchFacts.

(** ** [process_news_search]: the calls it makes *)

Module PipelineFacts.
Import NewsFetcher AIAnalyzer JobManager Main.
Import NewsFetcherFacts AIAnalyzerFacts JobManagerFacts MainFacts.

Lemma fetch_loop_counts api request remaining page_count next_page all_articles :
  let calls := (fetch_loop api (update_fetch_progress request) remaining
                  page_count next_page all_articles).1 in
  (length calls ≤ remaining)%nat
  ∧ length (omap u_total_articles calls) = length calls
  ∧ StronglySorted Z.lt
      (Z.of_nat (length all_articles) :: omap u_total_articles calls).
Proof.
  cbv zeta. revert page_count next_page all_articles.
  induction remaining as [|remaining IH]; intros pc next all; simpl.
  { split_and!; [done|done|]. by repeat constructor. }
  destruct (api pc next) as [msg|code|message|[|a results] nextPage];
    try (simpl; split_and!; [lia|done|by repeat constructor]).
  unfold mbind, M_bind.
  set (all' := all ++ a :: results).
  assert (Z.of_nat (length all) < Z.of_nat (length all')) as Hgrow
    by (unfold all'; rewrite length_app; simpl; lia).
  destruct (update_fetch_progress_cases request (Z.of_nat (length all')))
    as [[e ->]|(p & _ & ->)].
  { simpl; split_and!; [lia|done|by repeat constructor]. }
  destruct (truthy nextPage).
  - specialize (IH (S pc) nextPage all').
    destruct (fetch_loop _ _ _ _ _ _) as [calls r]. simpl in *.
    destruct IH as (Hlen & Hsome & Hsorted). split_and!; [lia|by f_equal|].
    constructor; [done|]. constructor; [done|].
    apply StronglySorted_inv in Hsorted as [_ Hall].
    eapply Forall_impl; [exact Hall|]. simpl. intros; lia.
  - simpl. split_and!; [lia|done|]. repeat constructor. done.
Qed.

(** X4.  While the fetcher runs, every progress update carries the
    number of articles fetched so far; these numbers are positive and
    strictly increasing, and there are at most [max_pages] such updates
    (one for each page that holds articles). *)
Theorem fetch_counts_increase (api : news_api) (request : SearchRequest) :
  let calls := (fetch_articles api (req_size request) (req_max_pages request)
                  (update_fetch_progress request)).1 in
  (length calls ≤ Z.to_nat (req_max_pages request))%nat
  ∧ length (omap u_total_articles calls) = length calls
  ∧ StronglySorted Z.lt (0 :: omap u_total_articles calls).
Proof.
  cbv zeta. unfold fetch_articles.
  pose proof (fetch_loop_counts api request (Z.to_nat (req_max_pages request))
                0 VNull []) as Hcounts.
  cbv zeta in Hcounts. unfold mbind, M_bind.
  destruct (fetch_loop _ _ _ _ _ _) as [calls [e|all]]; simpl in *;
    [done|by rewrite app_nil_r].
Qed.

Lemma fetch_loop_last api request remaining page_count next_page all_articles
    calls articles :
  fetch_loop api (update_fetch_progress request) remaining page_count
    next_page all_articles = (calls, inr articles) →
  (calls = [] ∧ articles = all_articles)
  ∨ (∃ calls' p,
       calls = calls' ++ [fetching_call p (Some (Z.of_nat (length articles)))]).
Proof.
  revert page_count next_page all_articles calls.
  induction remaining as [|remaining IH]; intros pc next all calls; simpl.
  { intros [= <- <-]. by left. }
  destruct (api pc next) as [msg|code|message|[|a results] nextPage];
    try done.
  { intros [= <- <-]. by left. }
  unfold mbind, M_bind.
  set (all' := all ++ a :: results).
  destruct (update_fetch_progress_cases request (Z.of_nat (length all')))
    as [[e ->]|(p & _ & ->)]; [done|].
  destruct (truthy nextPage).
  - specialize (IH (S pc) nextPage all').
    destruct (fetch_loop _ _ _ _ _ _) as [calls' [e|arts]]; [done|].
    intros [= <- <-].
    destruct (IH calls' eq_refl) as [[-> ->]|(calls'' & p' & ->)]; right.
    + by exists [], p.
    + by exists (fetching_call p (Some (Z.of_nat (length all'))) :: calls''), p'.
  - intros [= <- <-]. right. by exists [], p.
Qed.

Lemma remove_duplicates_length articles :
  (length (remove_duplicates articles) ≤ length articles)%nat.
Proof. apply sublist_length, remove_duplicates_loop_sublist. Qed.

(** The [analyzing] call of a run comes right after the calls of the
    fetch phase. *)
Lemma analyzing_call_position (l1 pre rest : list update_call)
    (n n' : Z) (z : update_call) :
  Forall is_fetching_call l1 →
  u_status z ≠ Some "analyzing" →
  pre ++ analyzing_call n :: rest = l1 ++ [analyzing_call n'; z] →
  pre = l1 ∧ n = n'.
Proof.
  intros Hl1 Hz. revert pre.
  induction Hl1 as [|a l1 (p & count & ->) _ IH]; intros pre E.
  - destruct pre as [|c pre]; [by injection E as ->|].
    injection E as -> E.
    destruct pre as [|c pre]; [by injection E as <-|].
    injection E as _ E. by destruct pre.
  - destruct pre as [|c pre]; [done|].
    injection E as -> E. destruct (IH pre E) as [-> ->]. done.
Qed.

(** X5.  When the pipeline goes on to the analysis, the number of
    articles it announces is the number left after deduplication: it is
    at least one and at most the count of the last fetching update, which
    exists. *)
Theorem analysis_total_bounded (json_loads : string → option json)
    (request : SearchRequest) (api : news_api) (llm : analyzer)
    (pre rest : list update_call) (n : Z) :
  process_news_search json_loads request api llm
  = pre ++ analyzing_call n :: rest →
  ∃ pre' p m, pre = pre' ++ [fetching_call p (Some m)] ∧ 1 ≤ n ≤ m.
Proof.
  pose proof (fetch_loop_shape api request (Z.to_nat (req_max_pages request))
                0 VNull []) as Hshape.
  unfold process_news_search, process_news_search_body, fetch_articles.
  unfold mbind, M_bind, mret, M_ret, call_update_job, lift.
  destruct (fetch_loop _ _ _ _ _ _) as [cb [e|all]] eqn:Hloop;
    cbn [fst] in Hshape |- *.
  - intros E. exfalso.
    assert (analyzing_call n ∈ fetching_call 10 None :: cb ++ [failed_call e])
      as Hin by (simpl in E; rewrite E; set_solver).
    apply elem_of_cons in Hin as [[=]|Hin].
    apply elem_of_app in Hin as [Hin|[=]%list_elem_of_singleton].
    by apply (proj1 (Forall_forall _ _) Hshape) in Hin as (p & count & [=]).
  - destruct (remove_duplicates all) as [|a articles] eqn:Hdedup.
    + intros E. exfalso.
      assert (analyzing_call n
              ∈ fetching_call 10 None :: cb
                ++ [failed_call "No articles found"])
        as Hin by (simpl in E; rewrite app_nil_r in E; rewrite E; set_solver).
      apply elem_of_cons in Hin as [[=]|Hin].
      apply elem_of_app in Hin as [Hin|[=]%list_elem_of_singleton].
      by apply (proj1 (Forall_forall _ _) Hshape) in Hin as (p & count & [=]).
    + intros E.
      assert (∃ z, u_status z ≠ Some "analyzing"
                ∧ pre ++ analyzing_call n :: rest
                  = (fetching_call 10 None :: cb)
                    ++ [analyzing_call (Z.of_nat (length (a :: articles))); z])
        as (z & Hz & E').
      { destruct llm as [e|client].
        { exists (failed_call e). split; [done|]. rewrite <- E.
          simpl. by rewrite app_nil_r, <- app_assoc. }
        destruct (analyze_articles json_loads client (a :: articles)
                    default_chunk_size).2 as [e|classified].
        - exists (failed_call e). split; [done|]. rewrite <- E.
          simpl. by rewrite app_nil_r, <- app_assoc.
        - exists (completed_call classified). split; [done|]. rewrite <- E.
          simpl. by rewrite app_nil_r. }
      apply analyzing_call_position in E' as [Hpre Hn]; [|by constructor;
        [eexists _, _|]|done].
      pose proof (remove_duplicates_length all) as Hlen.
      rewrite Hdedup in Hlen. simpl in Hlen, Hn.
      apply fetch_loop_last in Hloop as [[-> ->]|(calls' & p & ->)].
      * simpl in Hlen. lia.
      * exists (fetching_call 10 None :: calls'), p, (Z.of_nat (length all)).
        split; [by rewrite Hpre|]. lia.
Qed.

Lemma analysis_total_bounded_witness :
  ∃ pre' p m,
    [fetching_call 10 None; fetching_call 40 (Some 1)]
    = pre' ++ [fetching_call p (Some m)] ∧ 1 ≤ 1 ≤ m.
Proof.
  apply (analysis_total_bounded
           (Examples.json_loads_of Examples.json_classified)
           Examples.request Examples.one_page (inr Examples.classifier)
           _ [completed_call Examples.classified_one] 1).
  vm_compute. reflexivity.
Defined.

Lemma run_updates_status clock k jm id calls job :
  get_job jm id = Some job →
  Forall (λ c, str_given (u_status c) = true) calls →
  omap (λ jm, status <$> get_job jm id) (run_updates clock k jm id calls)
  = omap u_status calls.
Proof.
  intros Hget Hcalls. revert k jm job Hget.
  induction Hcalls as [|c calls Hc _ IH]; intros k jm job Hget; [done|].
  cbn [run_updates omap list_omap].
  rewrite apply_update_get, decide_True, Hget by done. cbn.
  rewrite Hc. destruct (u_status c) as [s|] eqn:Hs; [|done]. cbn.
  f_equal. eapply IH. by rewrite apply_update_get, decide_True, Hget.
Qed.

Lemma fetching_calls_status calls :
  Forall is_fetching_call calls →
  omap u_status calls = replicate (length calls) "fetching"
  ∧ Forall (λ c, str_given (u_status c) = true) calls.
Proof.
  induction 1 as [|c calls (p & count & ->) _ [IH1 IH2]]; [done|].
  split; [simpl; by f_equal|]. by constructor.
Qed.

(** X6.  The status of a job goes through [created], then [fetching]
    (set once when the pipeline starts and once more with every page
    fetched, at most [max_pages] times), and ends in [failed], or in
    [analyzing] followed by [failed] (the analyzer cannot be built or
    the analysis raises), or in [analyzing] followed by [completed]; no
    run ends otherwise, and nothing follows the terminal status. *)
Theorem status_trace_shape (json_loads : string → option json)
    (jm : manager) (id : string) (request : SearchRequest)
    (api : news_api) (llm : analyzer) (clock : nat → Z) :
  wf jm →
  is_Some (get_job (create_job jm id request (clock O)) id) →
  ∃ pages terminal,
    status_trace json_loads jm id request api llm clock
    = "created" :: replicate (S pages) "fetching" ++ terminal
    ∧ (pages ≤ Z.to_nat (req_max_pages request))%nat
    ∧ (terminal = ["failed"]
       ∨ terminal = ["analyzing"; "failed"]
       ∨ terminal = ["analyzing"; "completed"]).
Proof.
  intros Hwf [job Hjob].
  unfold status_trace, job_states. cbn [omap list_omap].
  destruct (process_news_search_shape json_loads request api llm)
    as (tail & Hcalls & Htail).
  pose proof (fetch_loop_shape api request (Z.to_nat (req_max_pages request))
                0 VNull []) as Hshape.
  pose proof (fetch_loop_counts api request (Z.to_nat (req_max_pages request))
                0 VNull []) as (Hlen & _ & _).
  cbv zeta in Hlen.
  set (cb := (fetch_loop api (update_fetch_progress request)
                (Z.to_nat (req_max_pages request)) 0 VNull []).1) in *.
  apply fetching_calls_status in Hshape as [Hstatus Hgiven].
  assert (Forall (λ c, str_given (u_status c) = true)
            (process_news_search json_loads request api llm)) as Hsome.
  { rewrite Hcalls. constructor; [done|].
    apply Forall_app. split; [done|].
    destruct Htail as [[e ->]|[(n & e & ->)|(n & cl & ->)]];
      by repeat constructor. }
  rewrite Hjob. cbn [fmap option_fmap option_map].
  apply create_job_get in Hjob as Hnew; [|done]. subst job.
  rewrite (run_updates_status _ _ _ _ _ _ Hjob Hsome), Hcalls.
  cbn [omap list_omap u_status fetching_call new_job status].
  rewrite omap_app, Hstatus.
  exists (length cb), (omap u_status tail). split_and!; [done|done|].
  destruct Htail as [[e ->]|[(n & e & ->)|(n & cl & ->)]]; auto.
Qed.

Lemma status_trace_shape_witness :
  ∃ pages terminal,
    status_trace (Examples.json_loads_of Examples.json_classified)
      Examples.fresh_manager "job-1" Examples.request Examples.one_page
      (inr Examples.classifier) Examples.ticks
    = "created" :: replicate (S pages) "fetching" ++ terminal
    ∧ (pages ≤ Z.to_nat (req_max_pages Examples.request))%nat
    ∧ (terminal = ["failed"]
       ∨ terminal = ["analyzing"; "failed"]
       ∨ terminal = ["analyzing"; "completed"]).
Proof.
  apply status_trace_shape; [constructor|].
  eexists. reflexivity.
Defined.

Lemma exec_updates_missing clock k jm id calls :
  get_job jm id = None → exec_updates clock k jm id calls = jm.
Proof.
  intros Hget. revert k.
  induction calls as [|c calls IH]; intros k; [done|].
  cbn [exec_updates]. unfold apply_update.
  rewrite update_job_missing by done. apply IH.
Qed.

(** X7.  A job that is deleted while its pipeline is still running is
    not brought back: every later update of the pipeline, the final one
    with the results included, leaves the job table and the result files
    as the deletion left them. *)
Theorem deleted_job_is_not_updated (jm : manager) (id : string)
    (clock : nat → Z) (k : nat) (calls : list update_call) :
  wf jm →
  exec_updates clock k (delete_job jm id).1 id calls = (delete_job jm id).1.
Proof.
  intros Hwf. apply exec_updates_missing.
  unfold get_job, delete_job.
  destruct (odict_get (jobs jm) id) eqn:Hget; [|done].
  simpl. by apply odict_del_get_eq.
Qed.

Lemma deleted_job_is_not_updated_witness :
  exec_updates Examples.ticks 2 (delete_job Examples.one_job "job-1").1 "job-1"
    [analyzing_call 1; completed_call Examples.classified_one]
  = (delete_job Examples.one_job "job-1").1.
Proof.
  apply deleted_job_is_not_updated.
  unfold wf. simpl. apply NoDup_singleton.
Defined.

(** X8.  The updates of a pipeline touch nothing but its own job
    and its own snapshot: whatever calls it makes, the table keeps its
    ids in their order and its capacity, every other job is as it was,
    and so is every file but the JSON snapshot of the job. *)
Theorem updates_touch_one_job (clock : nat → Z) (k : nat) (jm : manager)
    (id : string) (calls : list update_call) :
  let jm' := exec_updates clock k jm id calls in
  (jobs jm').*1 = (jobs jm).*1
  ∧ max_jobs jm' = max_jobs jm
  ∧ (∀ id', id' ≠ id → get_job jm' id' = get_job jm id')
  ∧ (∀ f, f ≠ result_file id "json" →
       results_dir jm' !! f = results_dir jm !! f).
Proof.
  cbv zeta. revert k jm.
  induction calls as [|c calls IH]; intros k jm; [done|].
  cbn [exec_updates].
  destruct (IH (S k) (apply_update jm id c (clock k)))
    as (Hkeys & Hmax & Hothers & Hfiles).
  split_and!.
  - rewrite Hkeys. apply update_job_keys.
  - rewrite Hmax. apply update_job_max_jobs.
  - intros id' Hne. rewrite Hothers by done.
    by rewrite apply_update_get, decide_False.
  - intros f Hf. rewrite Hfiles by done.
    unfold apply_update. rewrite update_job_results_dir.
    destruct (get_job jm id); [|done].
    destruct (_ && _); [|done]. by rewrite lookup_insert_ne.
Qed.

End PipelineFacts.

(** ** [job_manager.py]: deleting, creating, evicting and listing jobs *)

Section sort_by_key_more.
Context {A : Type} (key : A → Z).

Lemma insert_by_key_snoc y l x :
  key y ≤ key x →
  insert_by_key key y (l ++ [x]) = insert_by_key key y l ++ [x].
Proof.
  intros Hy. induction l as [|z l IH]; simpl.
  - by rewrite (proj2 (Z.leb_le _ _) Hy).
  - destruct (key y <=? key z); [done|]. by rewrite IH.
Qed.

Lemma sort_by_key_snoc l x :
  (∀ y, y ∈ l → key y ≤ key x) →
  sort_by_key key (l ++ [x]) = sort_by_key key l ++ [x].
Proof.
  unfold sort_by_key. induction l as [|y l IH]; intros Hl; [done|].
  simpl. rewrite IH by (intros z Hz; apply Hl, elem_of_cons; auto).
  apply insert_by_key_snoc, Hl, elem_of_cons. auto.
Qed.
End sort_by_key_more.

Module JobTableFacts.
Import JobManager JobManagerOps.
Import JobManagerFacts MainFacts.

Lemma list_ascii_of_string_app (s t : string) :
  list_ascii_of_string (s +:+ t)
  = list_ascii_of_string s ++ list_ascii_of_string t.
Proof. induction s as [|c s IH]; simpl; [done|]. by rewrite IH. Qed.

Lemma result_file_chars id ext :
  reverse (list_ascii_of_string (result_file id ext))
  = reverse (list_ascii_of_string ext)
    ++ "."%char :: reverse (list_ascii_of_string id).
Proof.
  unfold result_file. rewrite !list_ascii_of_string_app, !reverse_app.
  simpl. by rewrite <- app_assoc.
Qed.

Lemma list_ascii_of_string_inj (s t : string) :
  list_ascii_of_string s = list_ascii_of_string t → s = t.
Proof.
  intros E. rewrite <- (string_of_list_ascii_of_string s),
    <- (string_of_list_ascii_of_string t). by rewrite E.
Qed.

(** The files of two jobs are different files. *)
Lemma result_file_inj id ext id' ext' :
  ext ∈ extensions → ext' ∈ extensions →
  result_file id ext = result_file id' ext' → id = id' ∧ ext = ext'.
Proof.
  intros Hext Hext' E.
  apply (f_equal (λ s, reverse (list_ascii_of_string s))) in E.
  rewrite !result_file_chars in E.
  unfold extensions in *.
  repeat (apply elem_of_cons in Hext as [->|Hext]);
    try (by apply elem_of_nil in Hext);
    repeat (apply elem_of_cons in Hext' as [->|Hext']);
    try (by apply elem_of_nil in Hext');
    cbn in E; simplify_eq;
    (split; [|done]); by apply list_ascii_of_string_inj.
Qed.

Lemma delete_job_get_eq jm k id :
  wf jm →
  get_job (delete_job jm k).1 id
  = if decide (k = id) then None else get_job jm id.
Proof.
  unfold wf, get_job, delete_job. intros Hwf.
  destruct (odict_get (jobs jm) k) as [old|] eqn:Hk; cbn [fst jobs].
  - destruct (decide (k = id)) as [->|Hne].
    + by rewrite odict_del_get_eq.
    + by rewrite odict_del_get_ne.
  - destruct (decide (k = id)) as [<-|Hne]; done.
Qed.

Lemma delete_job_files jm k f :
  results_dir (delete_job jm k).1 !! f
  = if bool_decide (is_Some (get_job jm k) ∧ f ∈ result_file k <$> extensions)
    then None else results_dir jm !! f.
Proof.
  unfold get_job, delete_job.
  destruct (odict_get (jobs jm) k) as [old|] eqn:Hk; cbn [fst results_dir].
  - simpl. rewrite !lookup_delete.
    case_bool_decide as Hin.
    + destruct Hin as [_ Hin]. repeat case_decide; try done.
      exfalso. set_solver.
    + repeat case_decide; try done;
        exfalso; apply Hin; (split; [done|]); set_solver.
  - case_bool_decide as Hin; [|done]. by destruct Hin as [[? ?] _].
Qed.

(** X9.  [delete_job] on a well-formed table: it reports whether the
    job was there; afterwards the job is unknown and its three files are
    gone, every other job and every other file is as before; a job the
    table does not hold leaves the manager and the directory untouched,
    so that deleting twice reports failure the second time. *)
Theorem delete_job_removes_job_and_files (jm : manager) (id : string) :
  wf jm →
  let jm' := (delete_job jm id).1 in
  (delete_job jm id).2 = bool_decide (is_Some (get_job jm id))
  ∧ wf jm'
  ∧ get_job jm' id = None
  ∧ (∀ id', id' ≠ id → get_job jm' id' = get_job jm id')
  ∧ max_jobs jm' = max_jobs jm
  ∧ (if (delete_job jm id).2
     then S (length (jobs jm')) = length (jobs jm)
          ∧ (∀ ext, ext ∈ extensions →
               results_dir jm' !! result_file id ext = None)
          ∧ (∀ f, f ∉ result_file id <$> extensions →
               results_dir jm' !! f = results_dir jm !! f)
     else jm' = jm)
  ∧ delete_job jm' id = (jm', false).
Proof.
  intros Hwf jm'.
  assert (get_job jm' id = None) as Hgone.
  { unfold jm'. by rewrite delete_job_get_eq, decide_True. }
  split_and!.
  - unfold get_job, delete_job.
    by destruct (odict_get (jobs jm) id).
  - by apply delete_job_wf.
  - done.
  - intros id' Hne. unfold jm'. by rewrite delete_job_get_eq, decide_False.
  - unfold jm', delete_job. by destruct (odict_get (jobs jm) id).
  - destruct (get_job jm id) as [job|] eqn:Hjob.
    + unfold jm'. rewrite (delete_job_found _ _ _ Hjob). cbn [fst snd jobs].
      split_and!.
      * apply odict_del_length. unfold get_job in Hjob. by rewrite Hjob.
      * intros ext Hext.
        pose proof (delete_job_files jm id (result_file id ext)) as Hfiles.
        rewrite (delete_job_found _ _ _ Hjob) in Hfiles. cbn [fst] in Hfiles.
        rewrite Hfiles, bool_decide_true; [done|].
        split; [by rewrite Hjob|]. by apply list_elem_of_fmap_2.
      * intros f Hf.
        pose proof (delete_job_files jm id f) as Hfiles.
        rewrite (delete_job_found _ _ _ Hjob) in Hfiles. cbn [fst] in Hfiles.
        rewrite Hfiles, bool_decide_false; [done|]. by intros [_ ?].
    + unfold jm', delete_job, get_job in *. by rewrite Hjob.
  - unfold delete_job at 1. unfold get_job in Hgone. by rewrite Hgone.
Qed.

Lemma delete_job_removes_job_and_files_witness :
  (delete_job Examples.two_jobs "b").2 = true
  ∧ get_job (delete_job Examples.two_jobs "b").1 "b" = None
  ∧ delete_job (delete_job Examples.two_jobs "b").1 "b"
    = ((delete_job Examples.two_jobs "b").1, false).
Proof.
  assert (wf Examples.two_jobs) as Hwf.
  { unfold wf. simpl. apply NoDup_cons. split; [set_solver|].
    apply NoDup_singleton. }
  destruct (delete_job_removes_job_and_files Examples.two_jobs "b" Hwf)
    as (Hret & _ & Hgone & _ & _ & _ & Htwice).
  split_and!; [by rewrite Hret|exact Hgone|exact Htwice].
Defined.

Lemma foldl_delete_job_get (victims : list (string * JobStatus)) jm id :
  wf jm →
  get_job (foldl (λ jm item, (delete_job jm item.1).1) jm victims) id
  = if decide (id ∈ victims.*1) then None else get_job jm id.
Proof.
  revert jm. induction victims as [|v victims IH]; intros jm Hwf;
    cbn [foldl].
  { case_decide as Hin; [by apply elem_of_nil in Hin|done]. }
  rewrite IH by by apply delete_job_wf.
  rewrite delete_job_get_eq by done.
  rewrite fmap_cons.
  repeat case_decide; try done; set_solver.
Qed.

Lemma foldl_delete_job_wf (victims : list (string * JobStatus)) jm :
  wf jm → wf (foldl (λ jm item, (delete_job jm item.1).1) jm victims).
Proof.
  revert jm. induction victims as [|v victims IH]; intros jm Hwf; simpl; [done|].
  by apply IH, delete_job_wf.
Qed.

Lemma foldl_delete_job_max_jobs (victims : list (string * JobStatus)) jm :
  max_jobs (foldl (λ jm item, (delete_job jm item.1).1) jm victims)
  = max_jobs jm.
Proof.
  revert jm. induction victims as [|v victims IH]; intros jm; simpl; [done|].
  rewrite IH. unfold delete_job. by destruct (odict_get _ _).
Qed.

Lemma foldl_delete_job_sublist (victims : list (string * JobStatus)) jm :
  jobs (foldl (λ jm item, (delete_job jm item.1).1) jm victims)
  `sublist_of` jobs jm.
Proof.
  revert jm. induction victims as [|v victims IH]; intros jm; simpl; [done|].
  etrans; [apply IH|]. unfold delete_job.
  destruct (odict_get _ _); [|done]. apply odict_del_sublist.
Qed.

Lemma foldl_delete_job_files (victims : list (string * JobStatus)) jm f :
  results_dir (foldl (λ jm item, (delete_job jm item.1).1) jm victims) !! f
  = None
  ∨ results_dir (foldl (λ jm item, (delete_job jm item.1).1) jm victims) !! f
    = results_dir jm !! f.
Proof.
  revert jm. induction victims as [|v victims IH]; intros jm; simpl; [by right|].
  destruct (IH (delete_job jm v.1).1) as [->| ->]; [by left|].
  rewrite delete_job_files. case_bool_decide; [by left|by right].
Qed.

Lemma foldl_delete_job_files_kept (victims : list (string * JobStatus)) jm f :
  (∀ v, v ∈ victims → f ∉ result_file v.1 <$> extensions) →
  results_dir (foldl (λ jm item, (delete_job jm item.1).1) jm victims) !! f
  = results_dir jm !! f.
Proof.
  revert jm. induction victims as [|v victims IH]; intros jm Hf; simpl; [done|].
  rewrite IH by (intros w Hw; apply Hf, elem_of_cons; auto).
  rewrite delete_job_files, bool_decide_false; [done|].
  intros [_ Hin]. by apply (Hf v); [apply elem_of_cons; auto|].
Qed.

Lemma foldl_delete_job_files_gone (victims : list (string * JobStatus)) jm k ext :
  wf jm →
  k ∈ victims.*1 → is_Some (get_job jm k) → ext ∈ extensions →
  results_dir (foldl (λ jm item, (delete_job jm item.1).1) jm victims)
    !! result_file k ext = None.
Proof.
  revert jm. induction victims as [|v victims IH]; intros jm Hwf Hk Hjob Hext.
  { by apply elem_of_nil in Hk. }
  simpl.
  destruct (decide (v.1 = k)) as [E|Hne].
  - destruct (foldl_delete_job_files victims (delete_job jm v.1).1
                (result_file k ext)) as [->| ->]; [done|].
    rewrite delete_job_files, bool_decide_true; [done|].
    rewrite E. split; [done|]. by apply list_elem_of_fmap_2.
  - apply IH; [by apply delete_job_wf| |by rewrite delete_job_get_eq, decide_False|done].
    simpl in Hk. apply elem_of_cons in Hk as [?|?]; [congruence|done].
Qed.

(** X10.  [_cleanup_old_jobs] on a well-formed table that is over
    capacity by any number of jobs (as it may be after a start): the
    table is cut down to [max_jobs] jobs, the jobs kept stay in their
    order, none of them is older than a job evicted, the files of the
    evicted jobs are gone and the files of the jobs kept are
    untouched. *)
Theorem cleanup_evicts_oldest (jm : manager) :
  wf jm →
  let jm' := cleanup_old_jobs jm in
  wf jm'
  ∧ jobs jm' `sublist_of` jobs jm
  ∧ length (jobs jm') = (length (jobs jm) `min` max_jobs jm)%nat
  ∧ (∀ k j, (k, j) ∈ jobs jm' → get_job jm k = Some j)
  ∧ (∀ k j k' j',
       (k, j) ∈ jobs jm' → (k', j') ∈ jobs jm → get_job jm' k' = None →
       created_at j' ≤ created_at j)
  ∧ (∀ k' ext,
       is_Some (get_job jm k') → get_job jm' k' = None → ext ∈ extensions →
       results_dir jm' !! result_file k' ext = None)
  ∧ (∀ k ext,
       is_Some (get_job jm' k) → ext ∈ extensions →
       results_dir jm' !! result_file k ext
       = results_dir jm !! result_file k ext).
Proof.
  intros Hwf jm'.
  pose proof (cleanup_old_jobs_length jm Hwf) as Hlen.
  unfold jm' in *. unfold cleanup_old_jobs in *.
  destruct (Nat.leb_spec (length (jobs jm)) (max_jobs jm)) as [Hle|Hgt].
  { split_and!; try done.
    - intros k j Hin. by apply odict_get_elem_of.
    - intros k j k' j' _ Hin Hnone.
      apply odict_get_None in Hnone. exfalso. apply Hnone.
      by apply (list_elem_of_fmap_2 fst _ (k', j')).
    - intros k' ext [j Hj] Hnone. congruence. }
  set (sorted := sort_by_key (λ item : string * JobStatus, created_at item.2)
                   (jobs jm)) in *.
  set (n := (length (jobs jm) - max_jobs jm)%nat) in *.
  assert (sorted ≡ₚ jobs jm) as Hperm by apply sort_by_key_Permutation.
  pose proof (sort_by_key_sorted (λ item : string * JobStatus, created_at item.2)
                (jobs jm)) as Hsorted.
  fold sorted in Hsorted. rewrite <- (take_drop n sorted) in Hsorted.
  apply StronglySorted_app in Hsorted as (Hcross & _ & _).
  set (victims := take n sorted) in *.
  pose proof (foldl_delete_job_get victims jm) as Hget.
  assert (∀ v, v ∈ victims → v ∈ jobs jm) as Hvictims.
  { intros v Hv. rewrite <- Hperm. eapply elem_of_sublist; [exact Hv|].
    apply sublist_take. }
  assert (∀ k j, (k, j) ∈ jobs jm → k ∈ victims.*1 → (k, j) ∈ victims)
    as Hvictim.
  { intros k j Hin Hk. apply list_elem_of_fmap in Hk as ([k' j'] & -> & Hv).
    simpl. pose proof (Hvictims _ Hv) as Hin'.
    apply (odict_get_elem_of _ _ _ Hwf) in Hin, Hin'. simpl in Hin, Hin'.
    by replace j with j' by congruence. }
  set (jm1 := foldl _ jm victims) in *.
  assert (wf jm1) as Hwf1 by by apply foldl_delete_job_wf.
  assert (∀ k j, (k, j) ∈ jobs jm1 → (k ∉ victims.*1) ∧ get_job jm k = Some j)
    as Hkept.
  { intros k j Hin. apply (odict_get_elem_of _ _ _ Hwf1) in Hin.
    fold (get_job jm1 k) in Hin. rewrite Hget in Hin by done.
    by case_decide. }
  split_and!.
  - done.
  - apply foldl_delete_job_sublist.
  - done.
  - intros k j Hin. by apply Hkept.
  - intros k j k' j' Hin Hin' Hnone.
    apply Hkept in Hin as [Hk Hj].
    rewrite Hget in Hnone by done.
    assert (k' ∈ victims.*1) as Hk'.
    { case_decide; [done|]. apply odict_get_None in Hnone. exfalso.
      apply Hnone. by apply (list_elem_of_fmap_2 fst _ (k', j')). }
    apply (Hcross (k', j') (k, j)); [by apply Hvictim|].
    apply odict_get_Some in Hj.
    rewrite <- Hperm, <- (take_drop n sorted) in Hj.
    apply elem_of_app in Hj as [Hj|Hj]; [|done].
    exfalso. apply Hk. by apply (list_elem_of_fmap_2 fst _ (k, j)).
  - intros k' ext Hjob Hnone Hext.
    apply foldl_delete_job_files_gone; [done| |done|done].
    rewrite Hget in Hnone by done. case_decide; [done|].
    destruct Hjob as [? ?]; congruence.
  - intros k ext [j Hj] Hext.
    apply foldl_delete_job_files_kept. intros v Hv Hin.
    apply list_elem_of_fmap in Hin as (ext' & E & Hext').
    apply result_file_inj in E as [-> _]; [|done|done].
    rewrite Hget in Hj by done. case_decide as Hk; [done|].
    apply Hk. by apply list_elem_of_fmap_2.
Qed.

Lemma cleanup_evicts_oldest_witness :
  wf (init 1 Examples.three_snapshots)
  ∧ length (jobs (cleanup_old_jobs (init 1 Examples.three_snapshots)))
    = (length (jobs (init 1 Examples.three_snapshots)) `min` 1)%nat.
Proof.
  assert (wf (init 1 Examples.three_snapshots)) as Hwf.
  { unfold wf. vm_compute. repeat (apply NoDup_cons; split; [set_solver|]).
    apply NoDup_nil_2. }
  split; [exact Hwf|].
  exact (proj1 (proj2 (proj2 (cleanup_evicts_oldest _ Hwf)))).
Defined.

Lemma foldl_delete_job_get_ne (victims : list (string * JobStatus)) jm id :
  id ∉ victims.*1 →
  get_job (foldl (λ jm item, (delete_job jm item.1).1) jm victims) id
  = get_job jm id.
Proof.
  revert jm. induction victims as [|v victims IH]; intros jm Hid; simpl; [done|].
  simpl in Hid. apply not_elem_of_cons in Hid as [Hne Hid].
  rewrite IH by done. unfold get_job, delete_job.
  destruct (odict_get (jobs jm) v.1); [|done].
  cbn [fst jobs]. by apply odict_del_get_ne.
Qed.

(** X11.  [create_job] followed by [get_job]: on a table that does not
    hold the id yet and whose jobs were created no later than now, the
    job just created is found, as [create_job] built it, unless the
    capacity is zero: then the new job is evicted at once and
    [get_job] does not know the id that [create_job] returned. *)
Theorem create_job_then_get (jm : manager) (id : string)
    (request : SearchRequest) (now : Z) :
  wf jm →
  get_job jm id = None →
  (∀ k j, (k, j) ∈ jobs jm → created_at j ≤ now) →
  get_job (create_job jm id request now) id
  = if decide (max_jobs jm = 0%nat) then None
    else Some (new_job id request now).
Proof.
  intros Hwf Hfresh Hclock. unfold create_job. cbn [jobs max_jobs].
  unfold get_job in Hfresh. rewrite (odict_set_fresh _ _ _ Hfresh).
  set (job := new_job id request now).
  set (jm1 := {| jobs := jobs jm ++ [(id, job)]; max_jobs := max_jobs jm;
                 results_dir := results_dir jm |}).
  assert (get_job jm1 id = Some job) as Hget1.
  { unfold get_job, jm1. cbn [jobs].
    rewrite <- (odict_set_fresh _ _ _ Hfresh). apply odict_get_set_eq. }
  assert (wf jm1) as Hwf1.
  { unfold wf, jm1. cbn [jobs].
    rewrite <- (odict_set_fresh _ _ _ Hfresh). by apply odict_set_NoDup. }
  destruct (Nat.ltb_spec (max_jobs jm) (length (jobs jm ++ [(id, job)])))
    as [Hover|Hfits].
  - destruct (decide (max_jobs jm = 0%nat)) as [Hzero|Hpos].
    + pose proof (cleanup_old_jobs_length jm1 Hwf1) as Hlen.
      change (max_jobs jm1) with (max_jobs jm) in Hlen.
      rewrite Hzero, Nat.min_0_r in Hlen.
      apply length_zero_iff_nil in Hlen.
      unfold get_job. by rewrite Hlen.
    + unfold cleanup_old_jobs.
      change (max_jobs jm1) with (max_jobs jm).
      change (jobs jm1) with (jobs jm ++ [(id, job)]).
      destruct (Nat.leb_spec (length (jobs jm ++ [(id, job)])) (max_jobs jm))
        as [?|_]; [lia|].
      rewrite sort_by_key_snoc.
      2:{ intros [k j] Hin. simpl. by apply (Hclock k). }
      rewrite length_app in *. simpl in *.
      rewrite take_app_le.
      2:{ rewrite sort_by_key_length. lia. }
      rewrite foldl_delete_job_get_ne; [done|].
      intros Hin. apply odict_get_None in Hfresh. apply Hfresh.
      apply list_elem_of_fmap in Hin as (v & -> & Hv).
      apply list_elem_of_fmap_2.
      apply (sort_by_key_elem_of
               (λ item : string * JobStatus, created_at item.2)).
      eapply elem_of_sublist; [exact Hv|]. apply sublist_take.
  - rewrite decide_False; [done|].
    rewrite length_app in Hfits. simpl in Hfits. lia.
Qed.

Lemma create_job_then_get_witness :
  get_job (create_job Examples.two_jobs "c" Examples.request 50) "c"
  = Some (new_job "c" Examples.request 50).
Proof.
  apply (create_job_then_get Examples.two_jobs "c" Examples.request 50).
  - unfold wf. simpl. apply NoDup_cons. split; [set_solver|].
    apply NoDup_singleton.
  - reflexivity.
  - intros k j Hin. simpl in Hin.
    repeat (apply elem_of_cons in Hin as [[= -> ->]|Hin]); simpl; try lia.
    by apply elem_of_nil in Hin.
Defined.

(** X12.  [list_jobs]: the jobs are listed from the most recently
    updated to the least; with a limit that is not negative at most
    [limit] of them are listed, with a negative limit the last [-limit]
    of the order are left out; and no job left out was updated after a
    job that is listed. *)
Theorem list_jobs_most_recent_first (jm : manager) (limit : Z) :
  let listed := list_jobs jm limit in
  StronglySorted (λ a b, s_updated_at b ≤ s_updated_at a) listed
  ∧ length listed
    = (if (limit <? 0)%Z then length (jobs jm) - Z.to_nat (- limit)%Z
       else Z.to_nat limit `min` length (jobs jm))%nat
  ∧ ∃ rest,
      listed ++ (summary <$> rest) ≡ₚ summary <$> (jobs jm).*2
      ∧ ∀ a b, a ∈ listed → b ∈ rest → updated_at b ≤ s_updated_at a.
Proof.
  cbv zeta. unfold list_jobs, sort_by_updated_at_desc.
  set (key := λ x : JobStatus, - updated_at x).
  set (sorted := sort_by_key key (jobs jm).*2).
  assert (length sorted = length (jobs jm)) as Hlen
    by (unfold sorted; by rewrite sort_by_key_length, length_fmap).
  assert (∃ n, slice_to sorted limit = take n sorted
               ∧ (n `min` length sorted)%nat
                 = (if (limit <? 0)%Z then length (jobs jm) - Z.to_nat (- limit)%Z
                    else Z.to_nat limit `min` length (jobs jm))%nat)
    as (n & -> & Hn).
  { unfold slice_to. destruct (limit <? 0); eexists; (split; [done|]); lia. }
  pose proof (sort_by_key_sorted key (jobs jm).*2) as Hsorted.
  fold sorted in Hsorted. rewrite <- (take_drop n sorted) in Hsorted.
  apply StronglySorted_app in Hsorted as (Hcross & Htake & _).
  split_and!.
  - eapply StronglySorted_fmap; [|exact Htake].
    unfold key_le, key. simpl. intros; lia.
  - by rewrite length_fmap, length_take.
  - exists (drop n sorted). split.
    + rewrite <- fmap_app, take_drop. unfold sorted.
      by rewrite sort_by_key_Permutation.
    + intros a b Ha Hb. apply list_elem_of_fmap in Ha as (x & -> & Hx).
      specialize (Hcross x b Hx Hb). unfold key_le, key in Hcross.
      simpl. lia.
Qed.

End JobTableFacts.

(** ** [job_manager.py]: snapshots and exports *)

Module SnapshotFacts.
Import JobManager JobManagerOps.
Import JobManagerFacts MainFacts JobTableFacts.


Lemma prefix_other_char (c : ascii) (old s : string) :
  "."%char ≠ c → String.prefix (String "." old) (String c s) = false.
Proof.
  intros Hc.
  change (String.prefix (String "." old) (String c s))
    with (if Ascii.ascii_dec "." c then String.prefix old s else false).
  by destruct (Ascii.ascii_dec "." c).
Qed.

Lemma str_replace_result_file id :
  "."%char ∉ list_ascii_of_string id →
  str_replace (result_file id "json") ".json" "" = id.
Proof.
  unfold str_replace, result_file.
  induction id as [|c id IH]; intros Hdot; [done|].
  simpl in Hdot. apply not_elem_of_cons in Hdot as [Hc Hdot].
  change (String c id +:+ "." +:+ "json")
    with (String c (id +:+ "." +:+ "json")).
  cbn [str_replace_from].
  rewrite prefix_other_char by done.
  f_equal. by apply IH.
Qed.





Lemma delete_job_snapshots jm k :
  wf jm → snapshots_present jm → snapshots_present (delete_job jm k).1.
Proof.
  intros Hwf Hinv id job Hjob Hres.
  rewrite delete_job_get_eq in Hjob by done.
  case_decide as Hne; [done|].
  rewrite delete_job_files, bool_decide_false; [by eapply Hinv|].
  intros [_ Hin]. apply list_elem_of_fmap in Hin as (ext & E & Hext).
  apply result_file_inj in E as [-> _]; [done| |done].
  apply elem_of_cons. by left.
Qed.

Lemma foldl_delete_job_snapshots (victims : list (string * JobStatus)) jm :
  wf jm → snapshots_present jm →
  snapshots_present (foldl (λ jm item, (delete_job jm item.1).1) jm victims).
Proof.
  revert jm. induction victims as [|v victims IH]; intros jm Hwf Hinv; [done|].
  simpl. apply IH; [by apply delete_job_wf|by apply delete_job_snapshots].
Qed.

Lemma create_job_snapshots jm id request now :
  wf jm → snapshots_present jm →
  snapshots_present (create_job jm id request now).
Proof.
  intros Hwf Hinv. unfold create_job. cbn [jobs max_jobs].
  set (jm1 := {| jobs := _ |}).
  assert (wf jm1) as Hwf1 by (by apply odict_set_NoDup).
  assert (snapshots_present jm1) as Hinv1.
  { intros id' job Hjob Hres. unfold get_job, jm1 in Hjob. cbn [jobs] in Hjob.
    destruct (decide (id = id')) as [<-|Hne].
    - rewrite odict_get_set_eq in Hjob. by injection Hjob as <-.
    - rewrite odict_get_set_ne in Hjob by done. by eapply Hinv. }
  destruct (_ <? _)%nat; [|done].
  unfold cleanup_old_jobs. destruct (_ <=? _)%nat; [done|].
  by apply foldl_delete_job_snapshots.
Qed.

Lemma update_job_snapshots jm id st pr tot err res now :
  (is_Some res → st = Some "completed") →
  snapshots_present jm →
  snapshots_present (update_job jm id st pr tot err res now).1.
Proof.
  intros Hres Hinv id' job' Hjob' Hgiven.
  rewrite update_job_get in Hjob'.
  rewrite update_job_results_dir.
  destruct (decide (id = id')) as [<-|Hne].
  - destruct (get_job jm id) as [job|] eqn:Hjob; [|done].
    injection Hjob' as <-. cbn [updated_job results] in Hgiven.
    destruct res as [l|].
    + rewrite Hres by done. rewrite bool_decide_true by done.
      cbn [andb]. rewrite Hgiven. by rewrite lookup_insert_eq.
    + rewrite andb_false_r. by eapply Hinv.
  - destruct (get_job jm id) as [job|] eqn:Hjob; [|by eapply Hinv].
    destruct (_ && _); [|by eapply Hinv].
    rewrite lookup_insert. case_decide; [done|by eapply Hinv].
Qed.

Lemma export_results_snapshots writer jm id format now :
  snapshots_present jm →
  snapshots_present (export_results writer jm id format now).1.
Proof.
  intros Hinv. unfold export_results, export_to.
  destruct (odict_get (jobs jm) id) as [job|]; [|done].
  destruct (negb _); [done|].
  repeat (destruct (String.eqb format _); [try done|]); try done;
    (destruct (writer _ _) as [|e [|]]; [| |done]);
    intros id' job' Hjob' Hgiven; cbn [fst write_export results_dir];
    rewrite lookup_insert; case_decide; try done; by eapply Hinv.
Qed.

(** The jobs that the startup scan loads come from the files whose name
    ends in [.json]. *)
Lemma foldl_load_result_file_get table entries id job :
  odict_get (foldl load_result_file table entries) id = Some job →
  is_Some (odict_get table id)
  ∨ ∃ entry, entry ∈ entries ∧ str_endswith entry.1 ".json" = true
             ∧ id = str_replace entry.1 ".json" "".
Proof.
  revert table. induction entries as [|entry entries IH]; intros table Hget.
  { left. by eexists. }
  cbn [foldl] in Hget. apply IH in Hget as [Hget|(e & Hin & Hend & ->)].
  - rewrite load_result_file_entry in Hget.
    destruct (loaded_entry entry) as [[id' job']|] eqn:Hentry; [|by left].
    destruct (decide (id' = id)) as [<-|Hne].
    + right. exists entry. split; [by apply elem_of_cons; left|].
      unfold loaded_entry in Hentry.
      destruct (str_endswith entry.1 ".json"); [|done].
      destruct (content entry.2) as [data|]; [|done].
      destruct (valid_results _); [|done].
      by injection Hentry as <- _.
    + left. by rewrite odict_get_set_ne in Hget.
  - right. exists e. split; [by apply elem_of_cons; right|done].
Qed.

Lemma init_snapshots capacity dir :
  (∀ name, is_Some (dir !! name) → str_endswith name ".json" = true →
     ∃ id, name = result_file id "json" ∧ "."%char ∉ list_ascii_of_string id) →
  snapshots_present (init capacity dir).
Proof.
  intros Hnames id job Hjob _.
  unfold get_job, init, load_existing_results in *. cbn [jobs results_dir] in *.
  apply foldl_load_result_file_get in Hjob as [[? [=]]|(entry & Hin & Hend & ->)].
  destruct entry as [name f]. apply elem_of_map_to_list in Hin.
  destruct (Hnames name) as (id & -> & Hdot); [by eexists|done|].
  cbn [fst]. rewrite str_replace_result_file by done. by eexists.
Qed.

Lemma two_jobs_snapshots : snapshots_present Examples.two_jobs.
Proof.
  intros id job Hjob _. unfold get_job in Hjob. simpl in Hjob.
  repeat case_decide; simplify_eq; by eexists.
Qed.

(** X14.  The snapshot of every job that has results stays in the
    directory.  It is there after a startup on a directory whose
    snapshot files are named after the job ids (an id, which holds no
    dot, followed by [.json]); and creating a job (with the evictions
    it causes), deleting a job, exporting (whether the writer completes
    or not), and every update that passes results only together with
    the status [completed] (the pipeline makes no other) keep it
    there. *)
Theorem snapshots_stay_present (jm : manager) :
  wf jm → snapshots_present jm →
  (∀ id request now, snapshots_present (create_job jm id request now))
  ∧ (∀ id, snapshots_present (delete_job jm id).1)
  ∧ (∀ writer id format now,
       snapshots_present (export_results writer jm id format now).1)
  ∧ (∀ id st pr tot err res now,
       (is_Some res → st = Some "completed") →
       snapshots_present (update_job jm id st pr tot err res now).1)
  ∧ (∀ capacity dir,
       (∀ name, is_Some (dir !! name) → str_endswith name ".json" = true →
          ∃ id, name = result_file id "json"
                ∧ "."%char ∉ list_ascii_of_string id) →
       snapshots_present (init capacity dir)).
Proof.
  intros Hwf Hinv. split_and!.
  - intros. by apply create_job_snapshots.
  - intros. by apply delete_job_snapshots.
  - intros. by apply export_results_snapshots.
  - intros. by apply update_job_snapshots.
  - intros. by apply init_snapshots.
Qed.

(** On the table of two jobs with results: after the job [b] is deleted,
    after a third job evicts it, and after the job [a] is completed
    again with other results, the snapshot of [a] is in the directory;
    and so are the snapshots of the jobs that a startup loads. *)
Lemma snapshots_stay_present_witness :
  wf Examples.two_jobs
  ∧ snapshots_present Examples.two_jobs
  ∧ (list_given <$> (results <$> get_job (delete_job Examples.two_jobs "b").1 "a")
     = Some true
     ∧ is_Some (results_dir (delete_job Examples.two_jobs "b").1
                  !! result_file "a" "json"))
  ∧ (list_given
       <$> (results
              <$> get_job (create_job Examples.two_jobs "c" Examples.request 50)
                    "a")
     = Some true
     ∧ is_Some (results_dir (create_job Examples.two_jobs "c" Examples.request 50)
                  !! result_file "a" "json"))
  ∧ (list_given <$> (results <$> get_job (init 2 Examples.three_snapshots) "b")
     = Some true
     ∧ is_Some (results_dir (init 2 Examples.three_snapshots)
                  !! result_file "b" "json")).
Proof.
  assert (wf Examples.two_jobs) as Hwf.
  { unfold wf. simpl. apply NoDup_cons. split; [set_solver|].
    apply NoDup_singleton. }
  pose proof two_jobs_snapshots as Hinv.
  destruct (snapshots_stay_present _ Hwf Hinv)
    as (Hcreate & Hdelete & _ & _ & Hinit).
  split_and!; [exact Hwf|exact Hinv|reflexivity| |reflexivity| |reflexivity|].
  - by eapply (Hdelete "b" "a").
  - by eapply (Hcreate "c" Examples.request 50 "a").
  - eapply (Hinit 2%nat Examples.three_snapshots); [|reflexivity|reflexivity].
    intros name [f Hf] Hend. unfold Examples.three_snapshots in Hf.
    assert (∀ id, id ∈ ["a"; "b"; "c"] →
              "."%char ∉ list_ascii_of_string id) as Hdot.
    { intros id Hid Hin.
      repeat (apply elem_of_cons in Hid as [->|Hid]);
        try (by apply elem_of_nil in Hid);
        vm_compute in Hin;
        repeat (apply elem_of_cons in Hin as [[=]|Hin]);
        by apply elem_of_nil in Hin. }
    rewrite lookup_insert in Hf. case_decide as Ha.
    { exists "a". split; [done|]. apply Hdot. set_solver. }
    rewrite lookup_insert in Hf. case_decide as Hb.
    { exists "b". split; [done|]. apply Hdot. set_solver. }
    rewrite lookup_insert in Hf. case_decide as Hc.
    { exists "c". split; [done|]. apply Hdot. set_solver. }
    rewrite lookup_singleton in Hf. case_decide as Hcsv; [|done].
    subst name. by vm_compute in Hend.
Defined.

End SnapshotFacts.

(** ** [main.py]: the endpoints *)

Module ApiFacts.
Import JobManager JobManagerOps Api.
Import JobManagerFacts MainFacts JobTableFacts SnapshotFacts.

(** X15.  [download_results] hands a path to the response exactly when
    the job is known, completed, has a non-empty result list, and the
    format is [json], or it is [csv] or [xlsx] and the writer completes;
    the path is then that of the file of the job with the format as its
    extension, that file is in the directory (written by the export, or
    the snapshot that every job with results has), and no other file is
    touched.  The refusals are 404 for an unknown job, 400 for a job
    that is not completed, and 500 for a completed job without results,
    for an unknown format, and for a writer that raises, with the
    message of its exception.  A refusal leaves the manager and the
    directory as they were, except that a writer that raises may leave
    the file it was writing. *)
Theorem download_results_outcome (writer : exporter) (jm : manager)
    (id format : string) (now : Z) :
  snapshots_present jm →
  match download_results writer jm id format now with
  | (jm', inr file_path) =>
      (∃ job, get_job jm id = Some job ∧ status job = "completed"
              ∧ list_given (results job) = true
              ∧ (format = "json"
                 ∨ writer format (default [] (results job)) = Written))
      ∧ format ∈ extensions
      ∧ file_path = result_path id format
      ∧ is_Some (results_dir jm' !! result_file id format)
      ∧ jobs jm' = jobs jm
      ∧ (∀ f, f ≠ result_file id format →
           results_dir jm' !! f = results_dir jm !! f)
  | (jm', inl e) =>
      match get_job jm id with
      | None => jm' = jm ∧ e = HTTPException 404 "Job not found"
      | Some job =>
          if String.eqb (status job) "completed"
          then status_code e = 500
               ∧ ((list_given (results job) = false ∧ jm' = jm
                   ∧ detail e = "Job not found or no results")
                  ∨ (list_given (results job) = true ∧ format ∉ extensions
                     ∧ jm' = jm
                     ∧ detail e = "Unsupported format: " +:+ format)
                  ∨ (list_given (results job) = true
                     ∧ format ∈ ["csv"; "xlsx"]
                     ∧ ∃ file_left,
                         writer format (default [] (results job))
                         = WriteFailed (detail e) file_left
                         ∧ jm' = if file_left
                                 then write_export jm id format now
                                 else jm))
          else jm' = jm ∧ e = HTTPException 400 "Job not completed"
      end
  end.
Proof.
  intros Hinv.
  unfold download_results, export_results, export_to.
  destruct (get_job jm id) as [job|] eqn:Hjob; [|done].
  unfold get_job in Hjob. rewrite Hjob. fold (get_job jm id) in Hjob.
  destruct (String.eqb (status job) "completed") eqn:Hstatus; [|done].
  apply String.eqb_eq in Hstatus. cbn [negb].
  destruct (list_given (results job)) eqn:Hgiven; cbn [negb];
    [|split; [done|]; by left].
  unfold extensions.
  destruct (String.eqb format "json") eqn:Hjson.
  { apply String.eqb_eq in Hjson as ->.
    split_and!; [exists job; by auto|set_solver|done|by eapply Hinv|done|done]. }
  destruct (String.eqb format "csv") eqn:Hcsv.
  { apply String.eqb_eq in Hcsv as ->.
    destruct (writer "csv" _) as [|msg file_left] eqn:Hwriter.
    - split_and!; [exists job; by auto|set_solver|done| |done|].
      + cbn [write_export results_dir]. by rewrite lookup_insert_eq.
      + intros f Hf. cbn [write_export results_dir].
        by rewrite lookup_insert_ne.
    - split; [done|]. right. right.
      split_and!; [done|set_solver|by exists file_left]. }
  destruct (String.eqb format "xlsx") eqn:Hxlsx.
  { apply String.eqb_eq in Hxlsx as ->.
    destruct (writer "xlsx" _) as [|msg file_left] eqn:Hwriter.
    - split_and!; [exists job; by auto|set_solver|done| |done|].
      + cbn [write_export results_dir]. by rewrite lookup_insert_eq.
      + intros f Hf. cbn [write_export results_dir].
        by rewrite lookup_insert_ne.
    - split; [done|]. right. right.
      split_and!; [done|set_solver|by exists file_left]. }
  apply String.eqb_neq in Hjson, Hcsv, Hxlsx.
  split; [done|]. right. left. split_and!; [done|set_solver|done|done].
Qed.

(** On the table of two jobs: the snapshot of the job [a] is handed out,
    and an export to CSV whose writer raises is answered with 500 and
    leaves the file [a.csv]. *)
Lemma download_results_outcome_witness :
  snapshots_present Examples.two_jobs
  ∧ download_results Examples.writing Examples.two_jobs "a" "json" 70
    = (Examples.two_jobs, inr "results/a.json")
  ∧ is_Some (results_dir Examples.two_jobs !! result_file "a" "json")
  ∧ download_results Examples.refusing Examples.two_jobs "a" "csv" 70
    = (write_export Examples.two_jobs "a" "csv" 70,
       inl (HTTPException 500
              "sequence item 0: expected str instance, int found")).
Proof.
  pose proof (download_results_outcome Examples.writing Examples.two_jobs
                "a" "json" 70 two_jobs_snapshots) as Hout.
  split_and!; [exact two_jobs_snapshots|reflexivity| |reflexivity].
  exact (proj1 (proj2 (proj2 (proj2 Hout)))).
Defined.

Lemma completed_call_sorted json_loads request api llm pre n classified :
  Main.process_news_search json_loads request api llm
  = pre ++ [Main.analyzing_call n; Main.completed_call classified] →
  Forall AIAnalyzer.sortable classified
  ∧ StronglySorted (key_le AIAnalyzer.relevance_rank) classified.
Proof.
  intros (client & articles & _ & Hout)%process_news_search_completed.
  rewrite AIAnalyzerFacts.analyze_articles_spec in Hout
    by (unfold AIAnalyzer.default_chunk_size; lia).
  by apply AIAnalyzerFacts.sort_by_relevance_ranks in Hout.
Qed.

(** X16.  The two result endpoints on a job that the pipeline
    completed: [get_job_results] returns the query of the request, the
    classified articles, most relevant first, and their number;
    [download_results] returns the path of the snapshot, which is in the
    directory, when there is at least one classified article, and for a
    job completed without any classified article it raises 500 with the
    message of an unknown job, whatever the format. *)
Theorem completed_job_endpoints (json_loads : string → option json)
    (jm : manager) (id : string) (request : SearchRequest)
    (api : NewsFetcher.news_api) (llm : Main.analyzer)
    (clock : nat → Z) (job : JobStatus) (writer : exporter) (now : Z) :
  let jm' := Main.final_state json_loads jm id request api llm clock in
  wf jm →
  get_job jm' id = Some job →
  status job = "completed" →
  ∃ classified,
    get_job_results jm' id
    = inr {| r_job_id := id; r_query := req_query request;
             r_total_articles := Some (Z.of_nat (length classified));
             r_articles := Some classified |}
    ∧ Forall AIAnalyzer.sortable classified
    ∧ StronglySorted (key_le AIAnalyzer.relevance_rank) classified
    ∧ (classified = [] →
       ∀ format,
         download_results writer jm' id format now
         = (jm', inl (HTTPException 500 "Job not found or no results")))
    ∧ (classified ≠ [] →
       download_results writer jm' id "json" now
       = (jm', inr (result_path id "json"))
       ∧ is_Some (results_dir jm' !! result_file id "json")).
Proof.
  cbv zeta. unfold Main.final_state. intros Hwf Hjob Hstatus.
  destruct (process_news_search_shape json_loads request api llm)
    as (tail & Hcalls & Htail).
  pose proof (fetch_loop_shape api request (Z.to_nat (req_max_pages request))
                0 VNull []) as Hshape.
  set (cb := (NewsFetcher.fetch_loop api (Main.update_fetch_progress request)
                (Z.to_nat (req_max_pages request)) 0 VNull []).1) in *.
  assert (Forall Main.is_fetching_call (Main.fetching_call 10 None :: cb))
    as Hpre by (constructor; [by eexists _, _|done]).
  rewrite Hcalls, app_comm_cons in Hjob |- *.
  destruct (get_job (create_job jm id request (clock O)) id) as [job0|] eqn:Hget0.
  2: { by rewrite exec_updates_get, Hget0 in Hjob. }
  apply create_job_get in Hget0 as Hnew; [|done]. subst job0.
  destruct Htail as [[e ->]|[(n & e & ->)|(n & classified & ->)]].
  - destruct (final_state_failed clock _ id _ e _ Hpre Hget0)
      as (job' & Hjob' & Hfailed & _).
    rewrite Hjob in Hjob'. injection Hjob' as <-. congruence.
  - destruct (final_state_failed_analysis clock _ id _ n e _ Hpre Hget0)
      as (job' & Hjob' & Hfailed & _).
    rewrite Hjob in Hjob'. injection Hjob' as <-. congruence.
  - destruct (final_state_completed clock _ id _ n classified _ Hpre Hget0)
      as (job' & Hjob' & _ & _ & Hresults & Htotal & Hquery & Hdir).
    rewrite Hjob in Hjob'. injection Hjob' as <-.
    exists classified.
    destruct (completed_call_sorted json_loads request api llm
                (Main.fetching_call 10 None :: cb) n classified)
      as [Hsortable Hsorted]; [by rewrite Hcalls|].
    unfold get_job_results, download_results, export_results.
    rewrite Hjob. unfold get_job in Hjob. rewrite Hjob.
    rewrite Hstatus, Hresults, Htotal, Hquery. cbn [String.eqb negb].
    split_and!.
    + reflexivity.
    + done.
    + done.
    + by intros ->.
    + intros Hne. destruct classified as [|a rest]; [done|].
      split; [reflexivity|]. rewrite Hdir. by rewrite lookup_insert_eq.
Qed.

Lemma completed_job_endpoints_witness :
  ∃ classified,
    get_job_results Examples.prose_run "job-1"
    = inr {| r_job_id := "job-1"; r_query := "solar power";
             r_total_articles := Some (Z.of_nat (length classified));
             r_articles := Some classified |}
    ∧ Forall AIAnalyzer.sortable classified
    ∧ StronglySorted (key_le AIAnalyzer.relevance_rank) classified
    ∧ (classified = [] →
       ∀ format,
         download_results Examples.writing Examples.prose_run "job-1" format
           2000
         = (Examples.prose_run,
            inl (HTTPException 500 "Job not found or no results")))
    ∧ (classified ≠ [] →
       download_results Examples.writing Examples.prose_run "job-1" "json"
         2000
       = (Examples.prose_run, inr (result_path "job-1" "json"))
       ∧ is_Some (results_dir Examples.prose_run !! result_file "job-1" "json")).
Proof.
  apply (completed_job_endpoints (Examples.json_loads_of Examples.json_table)
           Examples.fresh_manager "job-1" Examples.request Examples.one_page
           (inr Examples.prose) Examples.ticks
           {| job_id := "job-1"; status := "completed"; progress := 100;
              created_at := 1000; updated_at := 1004; query := "solar power";
              total_articles := Some 0; error := None; results := Some [] |}
           Examples.writing 2000).
  - constructor.
  - vm_compute. reflexivity.
  - reflexivity.
Defined.

(** X17.  After the delete endpoint a job is unknown to every
    endpoint: it answers that the job was deleted exactly when the table
    held the job, and afterwards the status, the results and the
    download of that id are refused with 404, as is a second
    deletion. *)
Theorem deleted_job_is_unknown (jm : manager) (id : string)
    (writer : exporter) :
  wf jm →
  let jm' := (delete_job_endpoint jm id).1 in
  (delete_job_endpoint jm id).2
  = (if bool_decide (is_Some (get_job jm id))
     then inr "Job deleted successfully"
     else inl (HTTPException 404 "Job not found"))
  ∧ get_job_status jm' id = inl (HTTPException 404 "Job not found")
  ∧ get_job_results jm' id = inl (HTTPException 404 "Job not found")
  ∧ (∀ format now,
       download_results writer jm' id format now
       = (jm', inl (HTTPException 404 "Job not found")))
  ∧ delete_job_endpoint jm' id
    = (jm', inl (HTTPException 404 "Job not found")).
Proof.
  intros Hwf jm'.
  assert (jm' = (delete_job jm id).1) as Hjm'.
  { unfold jm', delete_job_endpoint. by destruct (delete_job jm id) as [? []]. }
  assert (get_job jm' id = None) as Hgone.
  { rewrite Hjm'. by rewrite delete_job_get_eq, decide_True. }
  split_and!.
  - unfold delete_job_endpoint, delete_job, get_job.
    by destruct (odict_get (jobs jm) id).
  - unfold get_job_status. by rewrite Hgone.
  - unfold get_job_results. by rewrite Hgone.
  - intros format now. unfold download_results. by rewrite Hgone.
  - unfold delete_job_endpoint, delete_job. unfold get_job in Hgone.
    by rewrite Hgone.
Qed.

Lemma deleted_job_is_unknown_witness :
  get_job_status (delete_job_endpoint Examples.two_jobs "b").1 "b"
  = inl (HTTPException 404 "Job not found").
Proof.
  assert (wf Examples.two_jobs) as Hwf.
  { unfold wf. simpl. apply NoDup_cons. split; [set_solver|].
    apply NoDup_singleton. }
  exact (proj1 (proj2 (deleted_job_is_unknown Examples.two_jobs "b"
                         Examples.writing Hwf))).
Defined.

End ApiFacts.
